(** * LRU cache: a doubly linked recency list with sentinels and a key index

    Shallow embedding of [main.cpp].  The C++ objects live on a heap of
    [node] cells; a [node*] is an optional heap address ([None] is
    [nullptr]).  Every member function becomes a computation in a small
    heap-and-fault monad: reading or writing through a null or dangling
    pointer is a fault ([None]).  C++ leaves such an access undefined:
    [None] says that the call has no outcome that the source defines. *)

From stdpp Require Import base option list gmap fin_maps.
From Stdlib Require Import ZArith Lia.

Local Open Scope Z_scope.
#[local] Set Warnings "-clear-no-such-hyp".

(** ** Heap cells and pointers *)

Definition loc := positive.

(** [node*]: [None] plays [nullptr]. *)
Abbreviation ptr := (option loc).
Abbreviation nullptr := (@None loc).

(** [class node].  The keys and values are [int]s on which the code does
    no arithmetic: they are carried as integers, unchanged. *)
Record node := Node {
  key : Z;
  value : Z;
  prev : ptr;
  next : ptr
}.

Abbreviation heap := (gmap loc node).

(** ** The heap-and-fault monad *)

Definition M (A : Type) : Type := heap → option (A * heap).

Definition ret {A} (a : A) : M A := λ h, Some (a, h).

Definition bind {A B} (m : M A) (k : A → M B) : M B :=
  λ h, match m h with
       | Some (a, h') => k a h'
       | None => None
       end.

Notation "'let!' x ':=' m 'in' k" := (bind m (λ x, k))
  (at level 10, x name, m at level 100, k at level 200).
Notation "'let!' ' x ':=' m 'in' k" := (bind m (λ x, k))
  (at level 10, x strict pattern, m at level 100, k at level 200).
Notation "m ';;' k" := (bind m (λ _, k))
  (at level 100, k at level 200, right associativity).

(** Reading a cell: [p->...] on a null or freed pointer faults. *)
Definition load (p : ptr) : M node :=
  λ h, match p with
       | Some l => match h !! l with
                   | Some n => Some (n, h)
                   | None => None
                   end
       | None => None
       end.

(** Overwriting a cell that is allocated. *)
Definition store (p : ptr) (f : node → node) : M unit :=
  λ h, match p with
       | Some l => match h !! l with
                   | Some n => Some (tt, <[l := f n]> h)
                   | None => None
                   end
       | None => None
       end.

Definition get_key (p : ptr) : M Z := let! n := load p in ret (key n).
Definition get_value (p : ptr) : M Z := let! n := load p in ret (value n).
Definition get_prev (p : ptr) : M ptr := let! n := load p in ret (prev n).
Definition get_next (p : ptr) : M ptr := let! n := load p in ret (next n).

Definition with_value (v : Z) (n : node) : node := Node (key n) v (prev n) (next n).
Definition with_prev (q : ptr) (n : node) : node := Node (key n) (value n) q (next n).
Definition with_next (q : ptr) (n : node) : node := Node (key n) (value n) (prev n) q.

Definition set_value (p : ptr) (v : Z) : M unit := store p (with_value v).
Definition set_prev (p q : ptr) : M unit := store p (with_prev q).
Definition set_next (p q : ptr) : M unit := store p (with_next q).

(** [new node(k, v)]: a cell at an address that is not in use, with both
    links null (the constructor of [node]).  Allocation does not fail;
    an address freed earlier may come back. *)
Definition new_node (k v : Z) : M ptr :=
  λ h, let l := fresh (dom h) in
       Some (Some l, <[l := Node k v nullptr nullptr]> h).

(** [delete p]: frees the cell; deleting [nullptr] does nothing, deleting
    a pointer that is not allocated is a fault. *)
Definition delete_node (p : ptr) : M unit :=
  λ h, match p with
       | Some l => match h !! l with
                   | Some _ => Some (tt, delete l h)
                   | None => None
                   end
       | None => Some (tt, h)
       end.

(** ** [class double_linked_list] *)

Record double_linked_list := DLL {
  head : ptr;
  tail : ptr
}.

(** The constructor: two sentinel nodes linked to each other. *)
Definition double_linked_list_new : M double_linked_list :=
  let! hd := new_node (-1) (-1) in
  let! tl := new_node (-1) (-1) in
  set_next hd tl;;
  set_prev tl hd;;
  ret (DLL hd tl).

Definition remove_node (temp : ptr) : M unit :=
  let! before := get_prev temp in
  let! after := get_next temp in
  set_next before after;;
  set_prev after before.

Definition add_first (L : double_linked_list) (temp : ptr) : M unit :=
  let! after_head := get_next (head L) in
  set_prev temp (head L);;
  set_next temp after_head;;
  set_next (head L) temp;;
  set_prev after_head temp.

Definition move_to_front (L : double_linked_list) (temp : ptr) : M unit :=
  remove_node temp;;
  add_first L temp.

Definition remove_last (L : double_linked_list) : M ptr :=
  let! first := get_next (head L) in
  if decide (first = tail L) then ret nullptr
  else
    let! last := get_prev (tail L) in
    remove_node last;;
    ret last.

(** ** [class LRU_CACHE] *)

Record LRU_CACHE := Cache {
  capacity : Z;
  cacheMap : gmap Z ptr;
  cacheList : double_linked_list
}.

(** [int] and [size_t] of the usual 64-bit data model. *)
Definition INT_MIN : Z := - 2 ^ 31.
Definition INT_MAX : Z := 2 ^ 31 - 1.
Definition is_int (z : Z) : Prop := INT_MIN ≤ z ≤ INT_MAX.
Definition SIZE_WIDTH : Z := 64.

(** The conversion of an [int] to [size_t]: reduction modulo [2^64]. *)
Definition to_size_t (z : Z) : Z := z mod 2 ^ SIZE_WIDTH.

(** [cacheMap.size() >= capacity]: the operands have types [size_t] and
    [int], so by the usual arithmetic conversions [capacity] is converted
    to [size_t] and the comparison is unsigned. *)
Definition at_capacity (c : LRU_CACHE) : bool :=
  bool_decide (to_size_t (capacity c) ≤ Z.of_nat (size (cacheMap c))).

(** [LRU_CACHE(int cap)]: the members are built first (an empty map, the
    list with its sentinels), then the body stores [cap]. *)
Definition LRU_CACHE_new (cap : Z) : M LRU_CACHE :=
  let! L := double_linked_list_new in
  ret (Cache cap ∅ L).

(** [get] writes to cells only: the members of the cache stay as they
    are ([cacheMap[key]] is read at a key that [find] has found). *)
Definition get (k : Z) (c : LRU_CACHE) : M Z :=
  match cacheMap c !! k with
  | None => ret (-1)
  | Some targetNode =>
      move_to_front (cacheList c) targetNode;;
      get_value targetNode
  end.

(** [put] yields the cache with its updated index.

    Line 106, [cacheMap.erase(lruNode->key)], hands the key to [erase] by
    reference.  Where [lruNode] points at a cell, the key erased is the
    one that the cell holds, which [get_key] reads.  Where [lruNode] is
    [nullptr] -- [remove_last] found the list empty -- the expression
    [lruNode->key] is undefined in C++, and [main.cpp] fixes no outcome
    for it: it makes no load of its own there, and what follows is left
    to the library and the machine.  The model has no outcome to give at
    that point: its [None] there is the absence of a defined outcome,
    not a statement that the program stops.  What is proved of [put]
    shows that the point is not reached, or stops at it, or is about the
    calls that returned. *)
Definition put (k v : Z) (c : LRU_CACHE) : M LRU_CACHE :=
  match cacheMap c !! k with
  | Some existingNode =>
      set_value existingNode v;;
      move_to_front (cacheList c) existingNode;;
      ret c
  | None =>
      let! c1 :=
        (if at_capacity c then
           let! lruNode := remove_last (cacheList c) in
           let! lruKey := get_key lruNode in
           delete_node lruNode;;
           ret (Cache (capacity c) (delete lruKey (cacheMap c)) (cacheList c))
         else ret c) in
      let! newNode := new_node k v in
      add_first (cacheList c1) newNode;;
      ret (Cache (capacity c1) (<[k := newNode]> (cacheMap c1)) (cacheList c1))
  end.

(** ** Sequences of calls *)

Inductive op :=
| Get (k : Z)
| Put (k v : Z).

(** One call; a [get] also yields its result. *)
Definition step (o : op) (c : LRU_CACHE) : M (option Z * LRU_CACHE) :=
  match o with
  | Get k => let! r := get k c in ret (Some r, c)
  | Put k v => let! c' := put k v c in ret (None, c')
  end.

(** The calls of [ops] in order, collecting what the [get]s returned. *)
Fixpoint run (ops : list op) (c : LRU_CACHE) : M (list Z * LRU_CACHE) :=
  match ops with
  | [] => ret ([], c)
  | o :: ops' =>
      let! '(r, c') := step o c in
      let! '(rs, c'') := run ops' c' in
      ret (from_option (λ z, [z]) [] r ++ rs, c'')
  end.

(** A cache is built, then used: the shape of [main]. *)
Definition session (cap : Z) (ops : list op) : M (list Z * LRU_CACHE) :=
  let! c := LRU_CACHE_new cap in run ops c.

(** The calls of [main]. *)
Definition main_ops : list op :=
  [Put 1 10; Put 2 20; Get 1; Put 3 30; Get 2; Put 4 40; Get 1; Get 3; Get 4].

(** * The vocabulary of the statements *)

(** ** Reading the recency list *)

(** The class has no accessor for the order of its list; the statements
    read it off the heap, walking from the head sentinel as a debugger
    would. *)

(** The addresses met from [p] along [next] up to, not including, [tl];
    [fuel] bounds the walk. *)
Fixpoint walk (fuel : nat) (h : heap) (p tl : ptr) : option (list loc) :=
  match fuel with
  | O => None
  | S fuel' =>
      if decide (p = tl) then Some []
      else match p with
           | Some l => match h !! l with
                       | Some n => cons l <$> walk fuel' h (next n) tl
                       | None => None
                       end
           | None => None
           end
  end.

(** The real nodes of the list, most recently used first. *)
Definition nodes_of (h : heap) (L : double_linked_list) : option (list loc) :=
  match head L with
  | Some hd => match h !! hd with
               | Some n => walk (S (size h)) h (next n) (tail L)
               | None => None
               end
  | None => None
  end.

Definition entry_of (h : heap) (l : loc) : option (Z * Z) :=
  (λ n, (key n, value n)) <$> h !! l.

(** The (key, value) pairs of the list, most recently used first. *)
Definition entries (h : heap) (c : LRU_CACHE) : option (list (Z * Z)) :=
  ls ← nodes_of h (cacheList c); mapM (entry_of h) ls.

(** What [main] prints, and the entries it leaves. *)
Definition main_run : option (list Z * option (list (Z * Z))) :=
  match session 2 main_ops ∅ with
  | Some ((rs, c), h) => Some (rs, entries h c)
  | None => None
  end.

(** ** Field views of the heap *)

Definition hkey (h : heap) (l : loc) : option Z := key <$> h !! l.
Definition hval (h : heap) (l : loc) : option Z := value <$> h !! l.
Definition hprev (h : heap) (l : loc) : option ptr := prev <$> h !! l.
Definition hnext (h : heap) (l : loc) : option ptr := next <$> h !! l.

(** ** The representation invariant *)

(** [a] and [b] are neighbours: [a->next == b] and [b->prev == a]. *)
Definition link (h : heap) (a b : loc) : Prop :=
  hnext h a = Some (Some b) ∧ hprev h b = Some (Some a).

(** Every two consecutive cells of [c] are neighbours. *)
Fixpoint linked (h : heap) (c : list loc) : Prop :=
  match c with
  | [] => True
  | a :: c' => match c' with
               | [] => True
               | b :: _ => link h a b ∧ linked h c'
               end
  end.

(** The list between the sentinels [hd] and [tl] holds the cells [ls],
    most recently used first. *)
Definition dll_rep (h : heap) (hd tl : loc) (ls : list loc) : Prop :=
  NoDup (hd :: ls ++ [tl]) ∧ linked h (hd :: ls ++ [tl]).

(** The index maps exactly the keys of the cells [ls], each to its cell. *)
Definition index_rep (h : heap) (m : gmap Z ptr) (ls : list loc) : Prop :=
  ∀ k p, m !! k = Some p ↔ ∃ l, p = Some l ∧ l ∈ ls ∧ hkey h l = Some k.

(** The same for a list object, whose two pointers are its sentinels. *)
Definition list_rep (h : heap) (L : double_linked_list) (ls : list loc) : Prop :=
  ∃ hd tl, L = DLL (Some hd) (Some tl) ∧ dll_rep h hd tl ls.

Definition cache_rep (h : heap) (c : LRU_CACHE) (ls : list loc) : Prop :=
  ∃ hd tl, cacheList c = DLL (Some hd) (Some tl) ∧
           dll_rep h hd tl ls ∧ index_rep h (cacheMap c) ls.

(** The keys of the cells [ls], in order. *)
Definition keys_of (h : heap) (ls : list loc) : list (option Z) := hkey h <$> ls.

(** ** The heaps the list operations leave *)

(** Two heaps hold the same keys and values at the same addresses. *)
Definition same_data (h h' : heap) : Prop :=
  (∀ x, hkey h' x = hkey h x) ∧ (∀ x, hval h' x = hval h x).

(** The heap after [remove_node p], where [b] and [a] are the cells
    before and after [p]. *)
Definition unlinked (h : heap) (b a : loc) : heap :=
  alter (with_prev (Some b)) a (alter (with_next (Some a)) b h).

(** The heap after [add_first p], where [f] is the cell that followed
    the head sentinel [hd]. *)
Definition pushed (h : heap) (hd p f : loc) : heap :=
  alter (with_prev (Some p)) f
    (alter (with_next (Some p)) hd
       (alter (with_next (Some f)) p
          (alter (with_prev (Some hd)) p h))).

(** ** The branch of [put] for a new key *)

(** The two blocks of the branch of [put] for a new key: the eviction
    made at full capacity, and the insertion of the new cell. *)
Definition evict (c : LRU_CACHE) : M LRU_CACHE :=
  let! lruNode := remove_last (cacheList c) in
  let! lruKey := get_key lruNode in
  delete_node lruNode;;
  ret (Cache (capacity c) (delete lruKey (cacheMap c)) (cacheList c)).

Definition insert_new (k v : Z) (c1 : LRU_CACHE) : M LRU_CACHE :=
  let! newNode := new_node k v in
  add_first (cacheList c1) newNode;;
  ret (Cache (capacity c1) (<[k := newNode]> (cacheMap c1)) (cacheList c1)).

(** Lines 106 to 117 of [put]: what the branch for a new key at capacity
    does with the pointer [lruNode] that [remove_last] has returned. *)
Definition after_remove_last (k v : Z) (c : LRU_CACHE) (lruNode : ptr)
  : M LRU_CACHE :=
  let! lruKey := get_key lruNode in
  delete_node lruNode;;
  insert_new k v (Cache (capacity c) (delete lruKey (cacheMap c)) (cacheList c)).

(** ** The entries of a cache, and what a call does to them *)

(** [es] are the (key, value) pairs of the cells [ls], in order. *)
Definition cells (h : heap) (ls : list loc) (es : list (Z * Z)) : Prop :=
  Forall2 (λ l e, entry_of h l = Some e) ls es.

(** The effect of a call on the entries of a cache of capacity [cap],
    with the result of a [get]. *)
Inductive lru_step (cap : Z) : op → list (Z * Z) → option Z → list (Z * Z) → Prop :=
| lru_get_miss k es :
    k ∉ es.*1 →
    lru_step cap (Get k) es (Some (-1)) es
| lru_get_hit k v es1 es2 :
    lru_step cap (Get k) (es1 ++ (k, v) :: es2) (Some v) ((k, v) :: es1 ++ es2)
| lru_put_hit k v v0 es1 es2 :
    lru_step cap (Put k v) (es1 ++ (k, v0) :: es2) None ((k, v) :: es1 ++ es2)
| lru_put_room k v es :
    k ∉ es.*1 → Z.of_nat (length es) < cap →
    lru_step cap (Put k v) es None ((k, v) :: es)
| lru_put_full k v es e :
    k ∉ (es ++ [e]).*1 → Z.of_nat (length (es ++ [e])) = cap →
    lru_step cap (Put k v) (es ++ [e]) None ((k, v) :: es).

(** A cache in use: it keeps the capacity [cap] it was built with, is
    well formed, and holds at most [cap] entries. *)
Definition cache_inv (cap : Z) (h : heap) (c : LRU_CACHE) : Prop :=
  capacity c = cap ∧
  ∃ ls, cache_rep h c ls ∧ Z.of_nat (length ls) ≤ cap.

(** ** Capacities below 1 *)

(** What C1 asks of a capacity: the constructor fails, or every call on
    the cache it yields faults. *)
Definition rejected (cap : Z) (h0 : heap) : Prop :=
  match LRU_CACHE_new cap h0 with
  | None => True
  | Some (c, h) => ∀ o, step o c h = None
  end.

(** ** Recency *)

(** [o] is an access to key [k]: a [put] of [k], or a [get] of [k] that
    hits. *)
Definition accesses (k : Z) (o : op) (c : LRU_CACHE) : bool :=
  match o with
  | Get k' => bool_decide (k' = k) && bool_decide (is_Some (cacheMap c !! k))
  | Put k' _ => bool_decide (k' = k)
  end.

(** No call of [ops], run from the state [(c, h)], is an access to [k]. *)
Fixpoint untouched (k : Z) (ops : list op) (c : LRU_CACHE) (h : heap) : bool :=
  match ops with
  | [] => true
  | o :: ops' =>
      negb (accesses k o c) &&
      match step o c h with
      | Some ((_, c'), h') => untouched k ops' c' h'
      | None => true
      end
  end.

(** If [J] is among the keys [ks], then [K] is too, and before it. *)
Definition ahead (K J : Z) (ks : list Z) : Prop :=
  J ∈ ks → [K; J] `sublist_of` ks.

(** ** A list model of the cache *)

(** The cache as a plain list of (key, value) pairs, most recently used
    first: what the pointer code is compared with. *)
Fixpoint assoc (k : Z) (es : list (Z * Z)) : option Z :=
  match es with
  | [] => None
  | (k', v) :: es' => if decide (k' = k) then Some v else assoc k es'
  end.

Definition without (k : Z) (es : list (Z * Z)) : list (Z * Z) :=
  filter (λ e, e.1 ≠ k) es.

(** One call on the model of a cache that evicts at [ecap] entries. *)
Definition model_step (ecap : Z) (o : op) (es : list (Z * Z))
  : option Z * list (Z * Z) :=
  match o with
  | Get k =>
      match assoc k es with
      | Some v => (Some v, (k, v) :: without k es)
      | None => (Some (-1), es)
      end
  | Put k v =>
      match assoc k es with
      | Some _ => (None, (k, v) :: without k es)
      | None =>
          (None, (k, v) :: (if bool_decide (ecap ≤ Z.of_nat (length es))
                            then removelast es else es))
      end
  end.

Fixpoint model_run (ecap : Z) (ops : list op) (es : list (Z * Z))
  : list Z * list (Z * Z) :=
  match ops with
  | [] => ([], es)
  | o :: ops' =>
      let '(r, es') := model_step ecap o es in
      let '(rs, es'') := model_run ecap ops' es' in
      (from_option (λ z, [z]) [] r ++ rs, es'')
  end.

(** A cache that evicts at [ecap] entries: the capacity it stores
    converts to the [size_t] [ecap], it is well formed and holds at most
    [ecap] entries. *)
Definition cache_inv_at (ecap : Z) (h : heap) (c : LRU_CACHE) : Prop :=
  to_size_t (capacity c) = ecap ∧
  ∃ ls, cache_rep h c ls ∧ Z.of_nat (length ls) ≤ ecap.

Definition is_put (o : op) : bool :=
  match o with
  | Put _ _ => true
  | Get _ => false
  end.

(** ** The cells of the cache among the others *)

(** The cells of a list object: its sentinels and the cells between. *)
Definition chain_of (hd tl : loc) (ls : list loc) : list loc := hd :: ls ++ [tl].

(** With respect to the heap [h0] the cache was built on: the cells of
    [h0] are all there, unchanged, and the cells added are exactly those
    of the list, one for each sentinel and each entry. *)
Definition owns (h0 h : heap) (c : LRU_CACHE) (ls : list loc) : Prop :=
  ∃ hd tl, cacheList c = DLL (Some hd) (Some tl) ∧
    (∀ x, is_Some (h0 !! x) → h !! x = h0 !! x) ∧
    (∀ x, x ∈ chain_of hd tl ls → h0 !! x = None) ∧
    (∀ x, is_Some (h !! x) ↔ is_Some (h0 !! x) ∨ x ∈ chain_of hd tl ls).

(** ** A cache holding two entries, for the examples *)

(** The state of [main] after [put(1, 10)] and [put(2, 20)]: the sentinels
    at addresses 1 and 2, the cells of keys 1 and 2 at addresses 3 and 4. *)
Definition demo_heap : gmap loc node :=
  {[ 1%positive := Node (-1) (-1) nullptr (Some 4%positive);
     2%positive := Node (-1) (-1) (Some 3%positive) nullptr;
     3%positive := Node 1 10 (Some 4%positive) (Some 2%positive);
     4%positive := Node 2 20 (Some 1%positive) (Some 3%positive) ]}.

Definition demo_cache : LRU_CACHE :=
  Cache 2 {[ 1 := Some 3%positive; 2 := Some 4%positive ]}
    (DLL (Some 1%positive) (Some 2%positive)).

(** The state of the examples after [get(1)]: the cell of key 1 in front. *)
Definition demo_heap_got : gmap loc node :=
  {[ 1%positive := Node (-1) (-1) nullptr (Some 3%positive);
     2%positive := Node (-1) (-1) (Some 4%positive) nullptr;
     3%positive := Node 1 10 (Some 1%positive) (Some 4%positive);
     4%positive := Node 2 20 (Some 3%positive) (Some 2%positive) ]}.

(** The heap of a list that was just built: the two sentinels. *)
Definition demo_heap_empty : gmap loc node :=
  {[ 1%positive := Node (-1) (-1) nullptr (Some 2%positive);
     2%positive := Node (-1) (-1) (Some 1%positive) nullptr ]}.

(** The heap of the examples with one more cell, not yet linked. *)
Definition demo_heap_new : gmap loc node :=
  <[ 5%positive := Node 3 30 nullptr nullptr ]> demo_heap.

(** A heap that holds a cell of somebody else before the cache is built. *)
Definition demo_heap_other : gmap loc node :=
  {[ 1%positive := Node 7 70 nullptr nullptr ]}.

(** * The walkthrough of [main], computed *)

(** The model prints what the comments of [main] announce, and ends with
    the entries of keys 4 and 3. *)
Example main_run_ok :
  main_run = Some ([10; -1; -1; 30; 40], Some [(4, 40); (3, 30)]).
Proof. vm_compute. reflexivity. Qed.

(** * The heap and the list *)

(** ** Running monadic code *)

Lemma bind_some {A B} (m : M A) (k : A → M B) h a h' :
  m h = Some (a, h') → bind m k h = k a h'.
Proof. intros E. unfold bind. by rewrite E. Qed.

(** One step of symbolic execution: the first computation of a [bind]
    is known to succeed. *)
Tactic Notation "exec" uconstr(H) := rewrite (bind_some _ _ _ _ _ H).

Lemma load_some h l n : h !! l = Some n → load (Some l) h = Some (n, h).
Proof. intros E. unfold load. by rewrite E. Qed.

Lemma store_some h l n f :
  h !! l = Some n → store (Some l) f h = Some (tt, alter f l h).
Proof.
  intros E. unfold store. rewrite E. do 2 f_equal.
  apply map_eq. intros x. rewrite lookup_alter, lookup_insert.
  case_decide; [subst; by rewrite E | done].
Qed.

Lemma get_prev_some h l q : hprev h l = Some q → get_prev (Some l) h = Some (q, h).
Proof.
  unfold hprev, get_prev. destruct (h !! l) as [n|] eqn:E; [|done].
  intros [= <-]. by exec ((load_some _ _ _ E)).
Qed.

Lemma get_next_some h l q : hnext h l = Some q → get_next (Some l) h = Some (q, h).
Proof.
  unfold hnext, get_next. destruct (h !! l) as [n|] eqn:E; [|done].
  intros [= <-]. by exec ((load_some _ _ _ E)).
Qed.

Lemma get_key_some h l k : hkey h l = Some k → get_key (Some l) h = Some (k, h).
Proof.
  unfold hkey, get_key. destruct (h !! l) as [n|] eqn:E; [|done].
  intros [= <-]. by exec ((load_some _ _ _ E)).
Qed.

Lemma get_value_some h l v : hval h l = Some v → get_value (Some l) h = Some (v, h).
Proof.
  unfold hval, get_value. destruct (h !! l) as [n|] eqn:E; [|done].
  intros [= <-]. by exec ((load_some _ _ _ E)).
Qed.

Lemma set_next_some h l q :
  is_Some (h !! l) → set_next (Some l) q h = Some (tt, alter (with_next q) l h).
Proof. intros [n E]. by apply store_some with n. Qed.

Lemma set_prev_some h l q :
  is_Some (h !! l) → set_prev (Some l) q h = Some (tt, alter (with_prev q) l h).
Proof. intros [n E]. by apply store_some with n. Qed.

Lemma set_value_some h l v :
  is_Some (h !! l) → set_value (Some l) v h = Some (tt, alter (with_value v) l h).
Proof. intros [n E]. by apply store_some with n. Qed.

(** ** The fields after a write *)

Ltac field_alter :=
  intros; unfold hkey, hval, hprev, hnext;
  rewrite lookup_alter; case_decide; subst;
  try match goal with |- context [?h !! ?x] => destruct (h !! x) end; done.

Lemma hnext_alter_next h l q x :
  hnext (alter (with_next q) l h) x =
  if decide (x = l) then (λ _, q) <$> h !! x else hnext h x.
Proof. case_decide; field_alter. Qed.
Lemma hprev_alter_next h l q x : hprev (alter (with_next q) l h) x = hprev h x.
Proof. field_alter. Qed.
Lemma hkey_alter_next h l q x : hkey (alter (with_next q) l h) x = hkey h x.
Proof. field_alter. Qed.
Lemma hval_alter_next h l q x : hval (alter (with_next q) l h) x = hval h x.
Proof. field_alter. Qed.

Lemma hprev_alter_prev h l q x :
  hprev (alter (with_prev q) l h) x =
  if decide (x = l) then (λ _, q) <$> h !! x else hprev h x.
Proof. case_decide; field_alter. Qed.
Lemma hnext_alter_prev h l q x : hnext (alter (with_prev q) l h) x = hnext h x.
Proof. field_alter. Qed.
Lemma hkey_alter_prev h l q x : hkey (alter (with_prev q) l h) x = hkey h x.
Proof. field_alter. Qed.
Lemma hval_alter_prev h l q x : hval (alter (with_prev q) l h) x = hval h x.
Proof. field_alter. Qed.

Lemma hval_alter_value h l v x :
  hval (alter (with_value v) l h) x =
  if decide (x = l) then (λ _, v) <$> h !! x else hval h x.
Proof. case_decide; field_alter. Qed.
Lemma hnext_alter_value h l v x : hnext (alter (with_value v) l h) x = hnext h x.
Proof. field_alter. Qed.
Lemma hprev_alter_value h l v x : hprev (alter (with_value v) l h) x = hprev h x.
Proof. field_alter. Qed.
Lemma hkey_alter_value h l v x : hkey (alter (with_value v) l h) x = hkey h x.
Proof. field_alter. Qed.

Lemma alter_is_Some (f : node → node) (h : heap) l x :
  is_Some (alter f l h !! x) ↔ is_Some (h !! x).
Proof.
  rewrite lookup_alter. case_decide; [|done]. subst.
  by rewrite fmap_is_Some.
Qed.

Lemma hnext_is_Some h l q : hnext h l = Some q → is_Some (h !! l).
Proof. unfold hnext. destruct (h !! l); [eauto | done]. Qed.
Lemma hprev_is_Some h l q : hprev h l = Some q → is_Some (h !! l).
Proof. unfold hprev. destruct (h !! l); [eauto | done]. Qed.
Lemma hkey_is_Some h l k : hkey h l = Some k → is_Some (h !! l).
Proof. unfold hkey. destruct (h !! l); [eauto | done]. Qed.

(** ** Chains of neighbours *)

Lemma linked_cons h a b c : linked h (a :: b :: c) ↔ link h a b ∧ linked h (b :: c).
Proof. done. Qed.

Lemma linked_app h c1 x c2 :
  linked h (c1 ++ x :: c2) ↔ linked h (c1 ++ [x]) ∧ linked h (x :: c2).
Proof.
  induction c1 as [|a c1 IH]; [simpl; tauto|].
  destruct c1 as [|b c1].
  - simpl. destruct c2; tauto.
  - cbn [app] in *. rewrite !linked_cons. tauto.
Qed.

(** A chain ending in [u] survives writes that keep [next] on its cells
    before [u] and [prev] on all its cells. *)
Lemma linked_frame_init h h' c u :
  (∀ x, x ∈ c → hnext h' x = hnext h x) →
  (∀ x, x ∈ c ++ [u] → hprev h' x = hprev h x) →
  linked h (c ++ [u]) → linked h' (c ++ [u]).
Proof.
  induction c as [|a c IH]; [done|]. intros Hn Hp.
  assert (∀ b c', c ++ [u] = b :: c' → b ∈ c ++ [u]) as Hin
    by (intros b c' ->; left).
  change ((a :: c) ++ [u]) with (a :: (c ++ [u])) in *.
  destruct (c ++ [u]) as [|b c'] eqn:E; [done|].
  rewrite !linked_cons. intros [[Hab Hba] Hl]. split.
  - split.
    + rewrite Hn; [done | left].
    + rewrite Hp; [done | right; left].
  - apply IH; [| | done].
    + intros x Hx. apply Hn. by right.
    + intros x Hx. apply Hp. by right.
Qed.

(** A chain starting at [v] survives writes that keep [next] on all its
    cells and [prev] on its cells after [v]. *)
Lemma linked_frame_tail h h' v c :
  (∀ x, x ∈ v :: c → hnext h' x = hnext h x) →
  (∀ x, x ∈ c → hprev h' x = hprev h x) →
  linked h (v :: c) → linked h' (v :: c).
Proof.
  revert v. induction c as [|b c IH]; [done|]. intros v Hn Hp.
  rewrite !linked_cons. intros [[Hab Hba] Hl]. split.
  - split.
    + rewrite Hn; [done | left].
    + rewrite Hp; [done | left].
  - apply IH; [| | done].
    + intros x Hx. apply Hn. by right.
    + intros x Hx. apply Hp. by right.
Qed.

(** A chain survives writes that change no link of its cells. *)
Lemma linked_frame h h' c :
  (∀ x, x ∈ c → hnext h' x = hnext h x) →
  (∀ x, x ∈ c → hprev h' x = hprev h x) →
  linked h c → linked h' c.
Proof.
  destruct c as [|v c]; [done|]. intros Hn Hp.
  apply linked_frame_tail; [done|]. intros x Hx. apply Hp. by right.
Qed.

(** Every cell of a chain of two or more cells is allocated. *)
Lemma linked_alloc h c x :
  (2 ≤ length c)%nat → linked h c → x ∈ c → is_Some (h !! x).
Proof.
  induction c as [|a c IH]; [simpl; lia|].
  destruct c as [|b c]; [simpl; lia|].
  intros _. rewrite linked_cons. intros [[Hn Hp] Hl] Hx.
  apply elem_of_cons in Hx as [->|Hx]; [by eapply hnext_is_Some|].
  destruct c as [|b' c].
  - apply list_elem_of_singleton in Hx as ->. by eapply hprev_is_Some.
  - apply IH; [simpl; lia | done | done].
Qed.

Lemma dll_rep_alloc h hd tl ls x :
  dll_rep h hd tl ls → x ∈ hd :: ls ++ [tl] → is_Some (h !! x).
Proof.
  intros [_ Hl]. apply linked_alloc; [|done].
  simpl. rewrite length_app. simpl. lia.
Qed.

(** A non-empty list has a last cell, and a list followed by a cell has
    a first one. *)
Lemma snoc_shape {A} (a : A) (l : list A) : ∃ c b, a :: l = c ++ [b].
Proof.
  revert a. induction l as [|x l IH]; intros a.
  - by exists [], a.
  - destruct (IH x) as (c & b & E). exists (a :: c), b. by rewrite E.
Qed.

Lemma cons_shape {A} (l : list A) (z : A) : ∃ a c, l ++ [z] = a :: c.
Proof. destruct l as [|a l]; simpl; eauto. Qed.

(** ** The list operations on a well-formed list *)

Lemma same_data_refl h : same_data h h.
Proof. done. Qed.

Lemma same_data_trans h1 h2 h3 :
  same_data h1 h2 → same_data h2 h3 → same_data h1 h3.
Proof.
  intros [K1 V1] [K2 V2]. split; intros x.
  - by rewrite K2, K1.
  - by rewrite V2, V1.
Qed.

Lemma same_data_alloc h h' x : same_data h h' → is_Some (h' !! x) ↔ is_Some (h !! x).
Proof.
  intros [K _]. specialize (K x). unfold hkey in K.
  destruct (h' !! x), (h !! x); simpl in K; try done; split; eauto.
Qed.

Lemma unlinked_same_data h b a : same_data h (unlinked h b a).
Proof.
  split; intros x; unfold unlinked.
  - by rewrite hkey_alter_prev, hkey_alter_next.
  - by rewrite hval_alter_prev, hval_alter_next.
Qed.

Lemma remove_node_spec h c1 b p a c2 :
  NoDup (c1 ++ b :: p :: a :: c2) →
  linked h (c1 ++ b :: p :: a :: c2) →
  remove_node (Some p) h = Some (tt, unlinked h b a) ∧
  linked (unlinked h b a) (c1 ++ b :: a :: c2).
Proof.
  intros Hnd Hl.
  apply NoDup_app in Hnd as (Hnd1 & Hdisj & Hnd2).
  apply NoDup_cons in Hnd2 as (Hb & Hnd2).
  apply NoDup_cons in Hnd2 as (Hp & Hnd2).
  apply NoDup_cons in Hnd2 as (Ha & Hnd2).
  apply linked_app in Hl as (Hl1 & Hl2).
  rewrite !linked_cons in Hl2. destruct Hl2 as ([Hbn Hpp] & [Hpn Hap] & Hl2).
  assert (is_Some (h !! b)) as Hsb by (by eapply hnext_is_Some).
  assert (is_Some (h !! a)) as Hsa by (by eapply hprev_is_Some).
  split.
  - unfold remove_node.
    exec ((get_prev_some _ _ _ Hpp)).
    exec ((get_next_some _ _ _ Hpn)).
    exec ((set_next_some _ _ _ Hsb)).
    apply set_prev_some. by apply (proj2 (alter_is_Some _ _ _ _)).
  - apply linked_app. split; [|rewrite linked_cons; split; [split|]].
    + apply (linked_frame_init h); [| |done]; intros x Hx; unfold unlinked.
      * rewrite hnext_alter_prev, hnext_alter_next.
        case_decide; [subst; set_solver | done].
      * rewrite hprev_alter_prev, hprev_alter_next.
        case_decide; [|done]. subst.
        destruct (proj1 (elem_of_app _ _ _) Hx); set_solver.
    + unfold unlinked. rewrite hnext_alter_prev, hnext_alter_next.
      rewrite decide_True by done. destruct Hsb as [? ->]. done.
    + unfold unlinked. rewrite hprev_alter_prev. rewrite decide_True by done.
      destruct (proj2 (alter_is_Some (with_next (Some a)) h b a) Hsa) as [? ->]. done.
    + apply (linked_frame_tail h); [| |done]; intros x Hx; unfold unlinked.
      * rewrite hnext_alter_prev, hnext_alter_next.
        case_decide; [subst; set_solver | done].
      * rewrite hprev_alter_prev, hprev_alter_next.
        case_decide; [subst; set_solver | done].
Qed.

Lemma pushed_same_data h hd p f : same_data h (pushed h hd p f).
Proof.
  split; intros x; unfold pushed.
  - by rewrite hkey_alter_prev, !hkey_alter_next, hkey_alter_prev.
  - by rewrite hval_alter_prev, !hval_alter_next, hval_alter_prev.
Qed.

Lemma add_first_spec h hd tl f rest p :
  NoDup (hd :: f :: rest) → p ∉ hd :: f :: rest → is_Some (h !! p) →
  linked h (hd :: f :: rest) →
  add_first (DLL (Some hd) tl) (Some p) h = Some (tt, pushed h hd p f) ∧
  linked (pushed h hd p f) (hd :: p :: f :: rest).
Proof.
  intros Hnd Hp Hsp Hl.
  apply NoDup_cons in Hnd as (Hhd & Hnd).
  apply NoDup_cons in Hnd as (Hf & Hnd).
  rewrite linked_cons in Hl. destruct Hl as ([Hhn Hfp] & Hl).
  assert (is_Some (h !! hd)) as Hshd by (by eapply hnext_is_Some).
  assert (is_Some (h !! f)) as Hsf by (by eapply hprev_is_Some).
  assert (p ≠ hd ∧ p ≠ f ∧ (p ∉ rest) ∧ hd ≠ f) as (Hphd & Hpf & Hpr & Hhf)
    by set_solver.
  split.
  - unfold add_first. simpl.
    exec ((get_next_some _ _ _ Hhn)).
    exec ((set_prev_some _ _ _ Hsp)).
    erewrite bind_some; [|apply set_next_some; by apply (proj2 (alter_is_Some _ _ _ _))].
    erewrite bind_some;
      [|apply set_next_some; by do 2 apply (proj2 (alter_is_Some _ _ _ _))].
    apply set_prev_some. by do 3 apply (proj2 (alter_is_Some _ _ _ _)).
  - rewrite !linked_cons. split; [split|split; [split|]]; unfold pushed.
    + rewrite hnext_alter_prev, hnext_alter_next.
      rewrite decide_True by done.
      destruct (proj2 (alter_is_Some (with_next (Some f)) _ p hd)
                  (proj2 (alter_is_Some (with_prev (Some hd)) h p hd) Hshd))
        as [? ->]. done.
    + rewrite hprev_alter_prev, decide_False by done.
      rewrite !hprev_alter_next, hprev_alter_prev, decide_True by done.
      destruct Hsp as [? ->]. done.
    + rewrite hnext_alter_prev, hnext_alter_next, decide_False by done.
      rewrite hnext_alter_next, decide_True by done.
      destruct (proj2 (alter_is_Some (with_prev (Some hd)) h p p) Hsp) as [? ->].
      done.
    + rewrite hprev_alter_prev, decide_True by done.
      destruct (proj2 (alter_is_Some (with_next (Some p)) _ hd f)
                  (proj2 (alter_is_Some (with_next (Some f)) _ p f)
                     (proj2 (alter_is_Some (with_prev (Some hd)) h p f) Hsf)))
        as [? ->]. done.
    + apply (linked_frame_tail h); [| |done]; intros x Hx.
      * rewrite hnext_alter_prev, !hnext_alter_next, hnext_alter_prev.
        repeat case_decide; subst; set_solver.
      * rewrite hprev_alter_prev, !hprev_alter_next, hprev_alter_prev.
        repeat case_decide; subst; set_solver.
Qed.

(** *** At the level of the whole list *)

Lemma dll_add_first h hd tl ls p :
  dll_rep h hd tl ls → p ∉ hd :: ls ++ [tl] → is_Some (h !! p) →
  ∃ h', add_first (DLL (Some hd) (Some tl)) (Some p) h = Some (tt, h') ∧
        dll_rep h' hd tl (p :: ls) ∧ same_data h h'.
Proof.
  intros [Hnd Hl] Hp Hsp.
  destruct (cons_shape ls tl) as (f & rest & E). rewrite E in *.
  destruct (add_first_spec h hd (Some tl) f rest p) as [Hrun Hl']; try done.
  exists (pushed h hd p f). split; [done|]. split; [|apply pushed_same_data].
  split; simpl; rewrite E; [|done].
  apply NoDup_cons in Hnd as (Hhd & Hnd).
  apply NoDup_cons. split; [set_solver|]. apply NoDup_cons. split; [set_solver|done].
Qed.

Lemma dll_remove_node h hd tl l1 p l2 :
  dll_rep h hd tl (l1 ++ p :: l2) →
  ∃ h', remove_node (Some p) h = Some (tt, h') ∧
        dll_rep h' hd tl (l1 ++ l2) ∧ same_data h h' ∧
        p ∉ hd :: (l1 ++ l2) ++ [tl].
Proof.
  intros [Hnd Hl].
  destruct (snoc_shape hd l1) as (c1 & b & E1).
  destruct (cons_shape l2 tl) as (a & c2 & E2).
  assert (hd :: (l1 ++ p :: l2) ++ [tl] = c1 ++ b :: p :: a :: c2) as E.
  { rewrite <- app_assoc. cbn [app]. rewrite E2.
    change (hd :: l1 ++ p :: a :: c2) with ((hd :: l1) ++ p :: a :: c2).
    rewrite E1, <- app_assoc. done. }
  assert (hd :: (l1 ++ l2) ++ [tl] = c1 ++ b :: a :: c2) as E'.
  { rewrite <- app_assoc, E2.
    change (hd :: l1 ++ a :: c2) with ((hd :: l1) ++ a :: c2).
    rewrite E1, <- app_assoc. done. }
  rewrite E in Hnd, Hl.
  destruct (remove_node_spec h c1 b p a c2 Hnd Hl) as [Hrun Hl'].
  exists (unlinked h b a). split; [done|].
  assert (NoDup (c1 ++ b :: a :: c2) ∧ p ∉ c1 ++ b :: a :: c2) as [Hnd' Hp].
  { apply NoDup_app in Hnd as (Hnd1 & Hdisj & Hnd2).
    apply NoDup_cons in Hnd2 as (Hb & Hnd2).
    apply NoDup_cons in Hnd2 as (Hp & Hnd2).
    split.
    - apply NoDup_app. split; [done|]. split.
      + intros x Hx. specialize (Hdisj x Hx). set_solver.
      + apply NoDup_cons. split; [set_solver | done].
    - intros Hin. apply elem_of_app in Hin as [Hin|Hin].
      + specialize (Hdisj p Hin). set_solver.
      + set_solver. }
  split; [|split; [apply unlinked_same_data|by rewrite E']].
  split; by rewrite E'.
Qed.

Lemma dll_move_to_front h hd tl l1 p l2 :
  dll_rep h hd tl (l1 ++ p :: l2) →
  ∃ h', move_to_front (DLL (Some hd) (Some tl)) (Some p) h = Some (tt, h') ∧
        dll_rep h' hd tl (p :: l1 ++ l2) ∧ same_data h h'.
Proof.
  intros Hrep.
  assert (is_Some (h !! p)) as Hsp.
  { eapply dll_rep_alloc; [done|]. set_solver. }
  destruct (dll_remove_node _ _ _ _ _ _ Hrep) as (h1 & Hrun1 & Hrep1 & Hsd1 & Hp).
  destruct (dll_add_first h1 hd tl (l1 ++ l2) p Hrep1 Hp) as (h2 & Hrun2 & Hrep2 & Hsd2).
  { by apply (same_data_alloc h h1). }
  exists h2. split; [|split; [done|by eapply same_data_trans]].
  unfold move_to_front. by exec Hrun1.
Qed.

Lemma dll_remove_last h hd tl l p :
  dll_rep h hd tl (l ++ [p]) →
  ∃ h', remove_last (DLL (Some hd) (Some tl)) h = Some (Some p, h') ∧
        dll_rep h' hd tl l ∧ same_data h h' ∧ p ∉ hd :: l ++ [tl].
Proof.
  intros Hrep.
  destruct (dll_remove_node h hd tl l p [] Hrep) as (h1 & Hrun1 & Hrep1 & Hsd1 & Hp).
  rewrite app_nil_r in Hrep1, Hp.
  exists h1. split; [|done].
  destruct Hrep as [Hnd Hl].
  destruct (cons_shape (l ++ [p]) tl) as (f & rest & E).
  assert (f ≠ tl) as Hf.
  { intros ->. apply NoDup_cons in Hnd as [_ Hnd]. rewrite E in Hnd.
    apply NoDup_cons in Hnd as [Hnd _]. apply Hnd.
    destruct l; simpl in E; injection E as _ <-; set_solver. }
  assert (link h p tl) as [_ Hpt].
  { assert (hd :: (l ++ [p]) ++ [tl] = (hd :: l) ++ p :: [tl]) as E'
      by (by rewrite <- app_assoc).
    rewrite E' in Hl. apply linked_app in Hl as [_ Hl].
    by apply linked_cons in Hl as [Hl _]. }
  rewrite E in Hl. apply linked_cons in Hl as [[Hhn _] _].
  unfold remove_last. simpl.
  exec ((get_next_some _ _ _ Hhn)).
  rewrite decide_False by congruence.
  exec ((get_prev_some _ _ _ Hpt)).
  by exec Hrun1.
Qed.

Lemma dll_remove_last_empty h hd tl :
  dll_rep h hd tl [] →
  remove_last (DLL (Some hd) (Some tl)) h = Some (nullptr, h).
Proof.
  intros [_ Hl]. simpl in Hl. destruct Hl as [[Hhn _] _].
  unfold remove_last. simpl.
  exec ((get_next_some _ _ _ Hhn)).
  by rewrite decide_True.
Qed.

(** ** The index against the list *)

Lemma index_rep_ext h h' (m : gmap Z ptr) ls ls' :
  (∀ x, hkey h' x = hkey h x) → (∀ x, x ∈ ls' ↔ x ∈ ls) →
  index_rep h m ls → index_rep h' m ls'.
Proof.
  intros Hk Hin Hm k p. rewrite (Hm k p).
  split; intros (l & -> & Hl & Hkl); exists l.
  - by rewrite Hin, Hk.
  - by rewrite <- Hin, <- Hk.
Qed.

(** The cells of a well-formed list carry pairwise different keys. *)
Lemma index_rep_inj h (m : gmap Z ptr) ls l1 l2 k :
  index_rep h m ls → l1 ∈ ls → l2 ∈ ls →
  hkey h l1 = Some k → hkey h l2 = Some k → l1 = l2.
Proof.
  intros Hm H1 H2 K1 K2.
  assert (m !! k = Some (Some l1)) as E1 by (apply Hm; eauto).
  assert (m !! k = Some (Some l2)) as E2 by (apply Hm; eauto).
  congruence.
Qed.

(** [cacheMap.size()] is the number of cells of the list. *)
Lemma index_rep_size h (m : gmap Z ptr) ls :
  NoDup ls → (∀ x, x ∈ ls → is_Some (h !! x)) →
  index_rep h m ls → size m = length ls.
Proof.
  revert m. induction ls as [|l ls IH]; intros m Hnd Hal Hm.
  - assert (m = ∅) as ->; [|by rewrite map_size_empty].
    apply map_empty. intros k. destruct (m !! k) as [p|] eqn:E; [|done].
    apply Hm in E as (l & _ & Hl & _). by apply elem_of_nil in Hl.
  - apply NoDup_cons in Hnd as [Hl Hnd].
    destruct (Hal l) as [n En]; [left|].
    assert (hkey h l = Some (key n)) as Hk by (unfold hkey; by rewrite En).
    assert (m !! key n = Some (Some l)) as E.
    { apply Hm. exists l. split; [done|]. split; [left | done]. }
    rewrite <- (insert_id m _ _ E), <- insert_delete_eq.
    rewrite map_size_insert_None by apply lookup_delete_eq.
    simpl. f_equal. apply IH; [done | |].
    + intros x Hx. apply Hal. by right.
    + intros k p. rewrite lookup_delete_Some, (Hm k p). split.
      * intros (Hne & l0 & -> & Hl0 & Hk0). exists l0. split; [done|].
        apply elem_of_cons in Hl0 as [->|Hl0]; [congruence | done].
      * intros (l0 & -> & Hl0 & Hk0). split.
        -- intros <-.
           assert (l0 = l); [|congruence].
           eapply (index_rep_inj h m (l :: ls)); eauto; [by right | left].
        -- exists l0. split; [done|]. split; [by right | done].
Qed.

Lemma cache_rep_size h c ls :
  cache_rep h c ls → size (cacheMap c) = length ls.
Proof.
  intros (hd & tl & _ & Hd & Hm).
  apply (index_rep_size h); [| |done].
  - destruct Hd as [Hnd _]. apply NoDup_cons in Hnd as [_ Hnd].
    by apply NoDup_app in Hnd as [Hnd _].
  - intros x Hx. eapply dll_rep_alloc; [done|]. set_solver.
Qed.

Lemma cache_rep_NoDup h c ls : cache_rep h c ls → NoDup ls.
Proof.
  intros (hd & tl & _ & [Hnd _] & _). apply NoDup_cons in Hnd as [_ Hnd].
  by apply NoDup_app in Hnd as [Hnd _].
Qed.

Lemma cache_rep_alloc h c ls x : cache_rep h c ls → x ∈ ls → is_Some (h !! x).
Proof.
  intros (hd & tl & _ & Hd & _) Hx. eapply dll_rep_alloc; [done|]. set_solver.
Qed.

(** A key is in the index exactly when a cell of the list carries it. *)
Lemma cache_rep_lookup h c ls k :
  cache_rep h c ls → is_Some (cacheMap c !! k) ↔ Some k ∈ keys_of h ls.
Proof.
  intros (hd & tl & _ & _ & Hm). unfold keys_of. rewrite list_elem_of_fmap. split.
  - intros [p Hp]. apply Hm in Hp as (l & _ & Hl & Hk). eauto.
  - intros (l & Hk & Hl). exists (Some l). apply Hm. eauto.
Qed.

Lemma cache_rep_keys_NoDup h c ls : cache_rep h c ls → NoDup (keys_of h ls).
Proof.
  intros Hrep. pose proof (cache_rep_NoDup _ _ _ Hrep) as Hnd.
  destruct Hrep as (hd & tl & _ & Hd & Hm). unfold keys_of.
  apply NoDup_fmap_2_strong; [|done].
  intros l1 l2 H1 H2 E.
  destruct (dll_rep_alloc h hd tl ls l1 Hd) as [n En]; [set_solver|].
  eapply (index_rep_inj h); eauto.
  - unfold hkey. by rewrite En.
  - rewrite <- E. unfold hkey. by rewrite En.
Qed.

(** * The cache *)

(** ** [get] and [put] on a well-formed cache *)

(** A key of the index sits in exactly one cell of the list. *)
Lemma cache_rep_find h c ls k p :
  cache_rep h c ls → cacheMap c !! k = Some p →
  ∃ l l1 l2, p = Some l ∧ ls = l1 ++ l :: l2 ∧ hkey h l = Some k.
Proof.
  intros (hd & tl & _ & _ & Hm) E.
  apply Hm in E as (l & -> & Hl & Hk).
  apply list_elem_of_split in Hl as (l1 & l2 & ->). eauto 6.
Qed.

Lemma get_miss_spec h c k :
  cacheMap c !! k = None → get k c h = Some (-1, h).
Proof. intros E. unfold get. by rewrite E. Qed.

Lemma get_hit_spec h c l1 l l2 k :
  cache_rep h c (l1 ++ l :: l2) → cacheMap c !! k = Some (Some l) →
  ∃ v h', get k c h = Some (v, h') ∧ hval h l = Some v ∧
          cache_rep h' c (l :: l1 ++ l2) ∧ same_data h h'.
Proof.
  intros Hrep E.
  destruct (cache_rep_alloc h c _ l Hrep) as [n En]; [set_solver|].
  destruct Hrep as (hd & tl & EL & Hd & Hm).
  destruct (dll_move_to_front _ _ _ _ _ _ Hd) as (h' & Hrun & Hd' & Hsd).
  exists (value n), h'.
  assert (hval h l = Some (value n)) as Hv by (unfold hval; by rewrite En).
  split; [|split; [done|split; [|done]]].
  - unfold get. rewrite E, EL, (bind_some _ _ _ _ _ Hrun).
    apply get_value_some. destruct Hsd as [_ Hsd]. by rewrite Hsd.
  - exists hd, tl. split; [done|]. split; [done|].
    apply (index_rep_ext h h' _ (l1 ++ l :: l2)); [apply Hsd| |done].
    intros x. set_solver.
Qed.

Lemma put_hit_spec h c l1 l l2 k v :
  cache_rep h c (l1 ++ l :: l2) → cacheMap c !! k = Some (Some l) →
  ∃ h', put k v c h = Some (c, h') ∧
        cache_rep h' c (l :: l1 ++ l2) ∧
        (∀ x, hkey h' x = hkey h x) ∧
        hval h' l = Some v ∧ (∀ x, x ≠ l → hval h' x = hval h x).
Proof.
  intros Hrep E.
  pose proof (cache_rep_alloc h c _ l Hrep) as Hsl.
  destruct Hrep as (hd & tl & EL & Hd & Hm).
  set (h1 := alter (with_value v) l h).
  assert (dll_rep h1 hd tl (l1 ++ l :: l2)) as Hd1.
  { destruct Hd as [Hnd Hl]. split; [done|].
    apply (linked_frame h); [| |done]; intros x _; unfold h1.
    - apply hnext_alter_value.
    - apply hprev_alter_value. }
  destruct (dll_move_to_front _ _ _ _ _ _ Hd1) as (h' & Hrun & Hd' & [Hk Hv]).
  exists h'. split; [|split; [|split; [|split]]].
  - unfold put. rewrite E, EL.
    exec ((set_value_some h l v (Hsl ltac:(set_solver)))).
    fold h1. by exec Hrun.
  - exists hd, tl. split; [done|]. split; [done|].
    apply (index_rep_ext h h' _ (l1 ++ l :: l2)); [| |done].
    + intros x. rewrite Hk. apply hkey_alter_value.
    + intros x. set_solver.
  - intros x. rewrite Hk. apply hkey_alter_value.
  - rewrite Hv. unfold h1. rewrite hval_alter_value, decide_True by done.
    destruct Hsl as [? ->]; [set_solver | done].
  - intros x Hx. rewrite Hv. unfold h1.
    by rewrite hval_alter_value, decide_False.
Qed.

Lemma put_miss_eq h c k v :
  cacheMap c !! k = None →
  put k v c h = bind (if at_capacity c then evict c else ret c) (insert_new k v) h.
Proof. intros E. unfold put. by rewrite E. Qed.

Lemma hkey_insert (h : heap) l n x :
  hkey (<[l := n]> h) x = if decide (x = l) then Some (key n) else hkey h x.
Proof. unfold hkey. rewrite lookup_insert. by repeat case_decide; subst. Qed.
Lemma hval_insert (h : heap) l n x :
  hval (<[l := n]> h) x = if decide (x = l) then Some (value n) else hval h x.
Proof. unfold hval. rewrite lookup_insert. by repeat case_decide; subst. Qed.
Lemma hkey_delete (h : heap) l x :
  hkey (delete l h) x = if decide (x = l) then None else hkey h x.
Proof. unfold hkey. rewrite lookup_delete. by repeat case_decide; subst. Qed.
Lemma hval_delete (h : heap) l x :
  hval (delete l h) x = if decide (x = l) then None else hval h x.
Proof. unfold hval. rewrite lookup_delete. by repeat case_decide; subst. Qed.

Lemma fresh_not_alloc (h : heap) : h !! fresh (dom h) = None.
Proof. apply not_elem_of_dom, is_fresh. Qed.

Lemma insert_new_spec h c ls k v :
  cache_rep h c ls → cacheMap c !! k = None →
  let l := fresh (dom h) in
  let h1 := <[l := Node k v nullptr nullptr]> h in
  ∃ h', new_node k v h = Some (Some l, h1) ∧
        list_rep h1 (cacheList c) ls ∧
        add_first (cacheList c) (Some l) h1 = Some (tt, h') ∧
        insert_new k v c h =
          Some (Cache (capacity c) (<[k := Some l]> (cacheMap c)) (cacheList c), h') ∧
        cache_rep h' (Cache (capacity c) (<[k := Some l]> (cacheMap c)) (cacheList c))
          (l :: ls) ∧
        hkey h' l = Some k ∧ hval h' l = Some v ∧
        (∀ x, x ≠ l → hkey h' x = hkey h x ∧ hval h' x = hval h x).
Proof.
  intros (hd & tl & EL & Hd & Hm) E l h1.
  pose proof (fresh_not_alloc h) as Hfresh. fold l in Hfresh.
  assert (∀ x, x ∈ hd :: ls ++ [tl] → x ≠ l) as Hne.
  { intros x Hx ->. destruct (dll_rep_alloc _ _ _ _ _ Hd Hx) as [? ?]. congruence. }
  assert (dll_rep h1 hd tl ls) as Hd1.
  { destruct Hd as [Hnd Hl]. split; [done|].
    apply (linked_frame h); [| |done]; intros x Hx; unfold h1, hnext, hprev;
      by rewrite lookup_insert_ne by (apply not_eq_sym, Hne, Hx). }
  destruct (dll_add_first h1 hd tl ls l Hd1) as (h' & Hrun & Hd' & [Hk Hv]).
  { intros Hx. by apply (Hne l Hx). }
  { unfold h1. rewrite lookup_insert_eq. eauto. }
  exists h'. split; [done|]. split; [by exists hd, tl|]. split; [by rewrite EL|].
  split; [|split; [|split; [|split]]].
  - unfold insert_new, new_node, bind at 1. fold l. fold h1. rewrite EL.
    by exec Hrun.
  - exists hd, tl. split; [done|]. split; [done|]. simpl.
    intros k' p. rewrite lookup_insert. case_decide as Hkk.
    + subst k'. split.
      * intros [= <-]. exists l. split; [done|]. split; [left|].
        rewrite Hk. unfold h1. by rewrite hkey_insert, decide_True.
      * intros (l0 & -> & Hl0 & Hk0). do 2 f_equal.
        apply elem_of_cons in Hl0 as [->|Hl0]; [done|]. exfalso.
        assert (cacheMap c !! k = Some (Some l0)); [|congruence].
        apply Hm. exists l0. split; [done|]. split; [done|].
        rewrite Hk in Hk0. unfold h1 in Hk0.
        rewrite hkey_insert, decide_False in Hk0; [done|].
        apply Hne. set_solver.
    + rewrite (Hm k' p). split.
      * intros (l0 & -> & Hl0 & Hk0). exists l0. split; [done|]. split; [by right|].
        rewrite Hk. unfold h1. rewrite hkey_insert, decide_False; [done|].
        apply Hne. set_solver.
      * intros (l0 & -> & Hl0 & Hk0). exists l0. split; [done|].
        rewrite Hk in Hk0. unfold h1 in Hk0. rewrite hkey_insert in Hk0.
        case_decide; [simpl in Hk0; congruence|].
        split; [set_solver | done].
  - rewrite Hk. unfold h1. by rewrite hkey_insert, decide_True.
  - rewrite Hv. unfold h1. by rewrite hval_insert, decide_True.
  - intros x Hx. rewrite Hk, Hv. unfold h1.
    by rewrite hkey_insert, hval_insert, !decide_False.
Qed.

Lemma evict_spec h c ls p :
  cache_rep h c (ls ++ [p]) →
  ∃ kp h1 h',
    hkey h p = Some kp ∧
    remove_last (cacheList c) h = Some (Some p, h1) ∧
    list_rep h1 (cacheList c) ls ∧ is_Some (h1 !! p) ∧
    same_data h h1 ∧ h' = delete p h1 ∧
    evict c h =
      Some (Cache (capacity c) (delete kp (cacheMap c)) (cacheList c), h') ∧
    cache_rep h' (Cache (capacity c) (delete kp (cacheMap c)) (cacheList c)) ls ∧
    (∀ x, x ≠ p → hkey h' x = hkey h x ∧ hval h' x = hval h x).
Proof.
  intros Hrep.
  destruct (cache_rep_alloc h c _ p Hrep) as [n En]; [set_solver|].
  assert (p ∉ ls) as Hnp.
  { pose proof (cache_rep_NoDup _ _ _ Hrep) as Hnd.
    apply NoDup_app in Hnd as (_ & Hnp & _).
    intros Hin. apply (Hnp p Hin). left. }
  destruct Hrep as (hd & tl & EL & Hd & Hm).
  destruct (dll_remove_last _ _ _ _ _ Hd) as (h1 & Hrun & Hd1 & [Hk Hv] & Hp).
  assert (hkey h p = Some (key n)) as Hkp by (unfold hkey; by rewrite En).
  exists (key n), h1, (delete p h1).
  split; [done|]. split; [by rewrite EL|].
  split; [by exists hd, tl|].
  split; [apply (same_data_alloc h h1); [done | eauto]|].
  split; [done|]. split; [done|].
  split; [|split].
  - unfold evict. rewrite EL, (bind_some _ _ _ _ _ Hrun).
    exec ((get_key_some h1 p (key n) ltac:(by rewrite Hk))).
    unfold bind, delete_node.
    destruct (h1 !! p) eqn:E1; [done|].
    specialize (Hk p). unfold hkey in Hk. rewrite E1, En in Hk. done.
  - exists hd, tl. split; [done|]. split.
    + destruct Hd1 as [Hnd1 Hl1]. split; [done|].
      apply (linked_frame h1); [| |done]; intros x Hx; unfold hnext, hprev;
        rewrite lookup_delete_ne; try done; intros ->; done.
    + simpl. intros k q. rewrite lookup_delete_Some, (Hm k q). split.
      * intros (Hne & l & -> & Hl & Hkl). exists l. split; [done|].
        apply elem_of_app in Hl as [Hl|Hl].
        -- split; [done|]. rewrite hkey_delete, decide_False, Hk; [done|].
           by intros ->.
        -- apply list_elem_of_singleton in Hl as ->. congruence.
      * intros (l & -> & Hl & Hkl). rewrite hkey_delete in Hkl.
        case_decide as Hlp; [done|]. rewrite Hk in Hkl. split.
        -- intros <-. apply Hlp.
           eapply (index_rep_inj h _ (ls ++ [p])); eauto; set_solver.
        -- exists l. split; [done|]. split; [set_solver | done].
  - intros x Hx. by rewrite hkey_delete, hval_delete, !decide_False, Hk, Hv.
Qed.

Lemma evict_empty h c : cache_rep h c [] → evict c h = None.
Proof.
  intros (hd & tl & EL & Hd & Hm).
  unfold evict. rewrite EL.
  by exec ((dll_remove_last_empty _ _ _ Hd)).
Qed.

(** [put] of a new key below capacity. *)
Lemma put_room_spec h c ls k v :
  cache_rep h c ls → cacheMap c !! k = None → at_capacity c = false →
  let l := fresh (dom h) in
  let c' := Cache (capacity c) (<[k := Some l]> (cacheMap c)) (cacheList c) in
  ∃ h', put k v c h = Some (c', h') ∧ cache_rep h' c' (l :: ls) ∧
        hkey h' l = Some k ∧ hval h' l = Some v ∧
        (∀ x, x ≠ l → hkey h' x = hkey h x ∧ hval h' x = hval h x).
Proof.
  intros Hrep E Hcap l c'.
  rewrite (put_miss_eq _ _ _ _ E), Hcap. unfold bind at 1, ret.
  destruct (insert_new_spec h c ls k v Hrep E) as (h' & _ & _ & _ & H).
  by exists h'.
Qed.

(** [put] of a new key at capacity, the list holding [ls ++ [p]]. *)
Lemma put_full_spec h c ls p k v :
  cache_rep h c (ls ++ [p]) → cacheMap c !! k = None → at_capacity c = true →
  ∃ kp h1 l h',
    hkey h p = Some kp ∧
    evict c h = Some (Cache (capacity c) (delete kp (cacheMap c)) (cacheList c), h1) ∧
    cache_rep h1 (Cache (capacity c) (delete kp (cacheMap c)) (cacheList c)) ls ∧
    l = fresh (dom h1) ∧
    let c' := Cache (capacity c) (<[k := Some l]> (delete kp (cacheMap c)))
                (cacheList c) in
    put k v c h = Some (c', h') ∧ cache_rep h' c' (l :: ls) ∧
    hkey h' l = Some k ∧ hval h' l = Some v ∧
    (∀ x, x ∈ ls → hkey h' x = hkey h x ∧ hval h' x = hval h x).
Proof.
  intros Hrep E Hcap.
  assert (p ∉ ls) as Hnp.
  { pose proof (cache_rep_NoDup _ _ _ Hrep) as Hnd.
    apply NoDup_app in Hnd as (_ & Hnp & _).
    intros Hin. apply (Hnp p Hin). left. }
  destruct (evict_spec _ _ _ _ Hrep)
    as (kp & h0 & h1 & Hkp & _ & _ & _ & _ & _ & Hev & Hrep1 & Hfr1).
  set (c1 := Cache (capacity c) (delete kp (cacheMap c)) (cacheList c)) in *.
  assert (cacheMap c1 !! k = None) as E1.
  { simpl. apply lookup_delete_None. by right. }
  destruct (insert_new_spec h1 c1 ls k v Hrep1 E1)
    as (h' & _ & _ & _ & Hins & Hrep' & Hk & Hv & Hfr).
  exists kp, h1, (fresh (dom h1)), h'.
  split; [done|]. split; [done|]. split; [done|]. split; [done|].
  split; [|split; [done|split; [done|split; [done|]]]].
  - rewrite (put_miss_eq _ _ _ _ E), Hcap. by exec Hev.
  - intros x Hx.
    assert (x ≠ fresh (dom h1)) as Hxl.
    { intros ->. destruct (cache_rep_alloc _ _ _ _ Hrep1 Hx) as [? Hs].
      by rewrite fresh_not_alloc in Hs. }
    assert (x ≠ p) as Hxp by (by intros ->).
    destruct (Hfr x Hxl) as [-> ->]. by apply Hfr1.
Qed.

(** [put] of a new key at capacity goes on with what [remove_last]
    returned. *)
Lemma put_full_after h c k v lruNode h1 :
  cacheMap c !! k = None → at_capacity c = true →
  remove_last (cacheList c) h = Some (lruNode, h1) →
  put k v c h = after_remove_last k v c lruNode h1.
Proof.
  intros E Hcap Hrl. unfold put, after_remove_last, insert_new.
  rewrite E, Hcap. unfold bind at 1. unfold bind at 1. rewrite Hrl.
  unfold bind. destruct (get_key lruNode h1) as [[kp h2]|]; [|done].
  by destruct (delete_node lruNode h2) as [[[] h3]|].
Qed.

(** ** The constructor *)

Lemma double_linked_list_new_spec h :
  let hd := fresh (dom h) in
  let tl := fresh (dom (<[hd := Node (-1) (-1) nullptr nullptr]> h)) in
  ∃ h', double_linked_list_new h = Some (DLL (Some hd) (Some tl), h') ∧
        dll_rep h' hd tl [] ∧
        (∀ x, x ≠ hd → x ≠ tl → h' !! x = h !! x).
Proof.
  intros hd tl.
  set (h1 := <[hd := Node (-1) (-1) nullptr nullptr]> h) in *.
  set (h2 := <[tl := Node (-1) (-1) nullptr nullptr]> h1).
  assert (hd ≠ tl) as Hne.
  { intros E. pose proof (fresh_not_alloc h1) as F. fold tl in F.
    rewrite <- E in F. unfold h1 in F. by rewrite lookup_insert_eq in F. }
  assert (is_Some (h2 !! hd)) as Hshd.
  { unfold h2, h1. rewrite lookup_insert_ne, lookup_insert_eq by done. eauto. }
  assert (is_Some (h2 !! tl)) as Hstl.
  { unfold h2. rewrite lookup_insert_eq. eauto. }
  exists (alter (with_prev (Some hd)) tl (alter (with_next (Some tl)) hd h2)).
  split; [|split].
  - unfold double_linked_list_new, new_node. unfold bind at 1. fold hd. fold h1.
    unfold bind at 1. fold tl. fold h2.
    exec ((set_next_some _ _ _ Hshd)).
    erewrite bind_some; [done|].
    apply set_prev_some. by apply (proj2 (alter_is_Some _ _ _ _)).
  - split; simpl.
    + apply NoDup_cons. split; [set_solver|]. apply NoDup_singleton.
    + split; [split|done].
      * rewrite hnext_alter_prev, hnext_alter_next, decide_True by done.
        destruct Hshd as [? ->]. done.
      * rewrite hprev_alter_prev, decide_True by done.
        destruct (proj2 (alter_is_Some (with_next (Some tl)) h2 hd tl) Hstl)
          as [? ->]. done.
  - intros x Hx1 Hx2. rewrite !lookup_alter_ne by done.
    unfold h2, h1. by rewrite !lookup_insert_ne.
Qed.

Lemma LRU_CACHE_new_spec cap h :
  ∃ L h', LRU_CACHE_new cap h = Some (Cache cap ∅ L, h') ∧
          cache_rep h' (Cache cap ∅ L) [].
Proof.
  destruct (double_linked_list_new_spec h) as (h' & Hrun & Hd & _).
  eexists _, h'. split.
  - unfold LRU_CACHE_new. by exec Hrun.
  - eexists _, _. split; [done|]. split; [done|]. simpl.
    intros k p. rewrite lookup_empty. split; [done|].
    intros (l & _ & Hl & _). by apply elem_of_nil in Hl.
Qed.

(** ** The walk along [next] reads the represented list *)

Lemma walk_spec h tl ls : ∀ a q fuel,
  NoDup (a :: ls ++ [tl]) → linked h (a :: ls ++ [tl]) →
  hnext h a = Some q → (length ls < fuel)%nat →
  walk fuel h q (Some tl) = Some ls.
Proof.
  induction ls as [|b ls IH]; intros a q fuel Hnd Hl Hq Hfuel.
  - simpl in Hl. destruct Hl as [[Hn _] _].
    destruct fuel; [simpl in Hfuel; lia|]. simpl.
    rewrite decide_True; [done | congruence].
  - cbn [app] in Hl, Hnd. apply linked_cons in Hl as [[Hn Hp] Hl].
    apply NoDup_cons in Hnd as [_ Hnd].
    destruct fuel; [simpl in Hfuel; lia|]. simpl.
    assert (q = Some b) as -> by congruence.
    assert (b ≠ tl) as Hb.
    { apply NoDup_cons in Hnd as [Hnd _]. set_solver. }
    rewrite decide_False by congruence.
    destruct (hprev_is_Some _ _ _ Hp) as [n En]. rewrite En.
    rewrite (IH b (next n) fuel); [done | done | done | |].
    + unfold hnext. by rewrite En.
    + simpl in Hfuel. lia.
Qed.

Lemma alloc_length (h : heap) (ls : list loc) :
  NoDup ls → (∀ x, x ∈ ls → is_Some (h !! x)) → (length ls ≤ size h)%nat.
Proof.
  intros Hnd Hal.
  rewrite <- (size_list_to_set (C := gset loc) ls Hnd), <- (size_dom (D := gset loc) h).
  apply subseteq_size. intros x Hx.
  apply elem_of_list_to_set in Hx. by apply elem_of_dom, Hal.
Qed.

Lemma list_rep_nodes_of h L ls : list_rep h L ls → nodes_of h L = Some ls.
Proof.
  intros (hd & tl & -> & Hd).
  assert (length ls ≤ size h)%nat as Hlen.
  { pose proof Hd as [Hnd _]. apply alloc_length.
    - apply NoDup_cons in Hnd as [_ Hnd]. by apply NoDup_app in Hnd as [Hnd _].
    - intros x Hx. eapply dll_rep_alloc; [done|]. set_solver. }
  destruct (dll_rep_alloc h hd tl ls hd Hd) as [n En]; [left|].
  destruct Hd as [Hnd Hl].
  unfold nodes_of. cbn [head tail]. rewrite En.
  apply (walk_spec h tl ls hd); [done | done | |].
  - unfold hnext. by rewrite En.
  - lia.
Qed.

Lemma cache_rep_list_rep h c ls : cache_rep h c ls → list_rep h (cacheList c) ls.
Proof. intros (hd & tl & EL & Hd & _). by exists hd, tl. Qed.

Lemma cache_rep_nodes_of h c ls :
  cache_rep h c ls → nodes_of h (cacheList c) = Some ls.
Proof. intros Hrep. by apply list_rep_nodes_of, cache_rep_list_rep. Qed.

(** The list a cache represents is therefore unique. *)
Lemma cache_rep_unique h c ls ls' : cache_rep h c ls → cache_rep h c ls' → ls = ls'.
Proof.
  intros H1 H2. apply cache_rep_nodes_of in H1, H2. congruence.
Qed.

Lemma entry_of_Some h l k v :
  entry_of h l = Some (k, v) ↔ hkey h l = Some k ∧ hval h l = Some v.
Proof.
  unfold entry_of, hkey, hval. destruct (h !! l) as [n|]; simpl; [|naive_solver].
  split; [by intros [= <- <-] | by intros [[= <-] [= <-]]].
Qed.

Lemma entry_of_ext h h' x :
  hkey h' x = hkey h x → hval h' x = hval h x → entry_of h' x = entry_of h x.
Proof.
  unfold entry_of, hkey, hval.
  destruct (h' !! x) as [[]|], (h !! x) as [[]|]; simpl; congruence.
Qed.

Lemma same_data_entry h h' x : same_data h h' → entry_of h' x = entry_of h x.
Proof. intros [K V]. by apply entry_of_ext. Qed.

Lemma cache_rep_entries h c ls :
  cache_rep h c ls → entries h c = mapM (entry_of h) ls.
Proof.
  intros Hrep. unfold entries. by rewrite (cache_rep_nodes_of _ _ _ Hrep).
Qed.

Lemma cache_rep_entries_Some h c ls :
  cache_rep h c ls →
  ∃ es, entries h c = Some es ∧ Forall2 (λ l e, entry_of h l = Some e) ls es.
Proof.
  intros Hrep. rewrite (cache_rep_entries _ _ _ Hrep).
  destruct (mapM (entry_of h) ls) as [es|] eqn:E.
  - exists es. split; [done|]. by apply mapM_Some.
  - exfalso. apply mapM_None, Exists_exists in E as (x & Hx & Ex).
    destruct (cache_rep_alloc _ _ _ _ Hrep Hx) as [n En].
    unfold entry_of in Ex. by rewrite En in Ex.
Qed.

(** The keys read along the list are the keys of the represented cells. *)
Lemma cells_keys h ls es :
  Forall2 (λ l e, entry_of h l = Some e) ls es → keys_of h ls = Some <$> es.*1.
Proof.
  induction 1 as [|l [k v] ls es He _ IH]; [done|].
  apply entry_of_Some in He as [Hk _].
  unfold keys_of in *. rewrite !fmap_cons. cbn [fst]. by rewrite Hk, IH.
Qed.

(** ** The entries read along the list *)

Lemma cells_ext h h' ls es :
  (∀ x, x ∈ ls → hkey h' x = hkey h x ∧ hval h' x = hval h x) →
  cells h ls es → cells h' ls es.
Proof.
  intros Hsame Hc. induction Hc as [|l e ls es He Hc IH]; [constructor|].
  constructor.
  - rewrite <- He. destruct (Hsame l) as [Hk Hv]; [left|]. by apply entry_of_ext.
  - apply IH. intros x Hx. apply Hsame. by right.
Qed.

Lemma cells_length h ls es : cells h ls es → length es = length ls.
Proof. intros Hc. symmetry. by eapply Forall2_length. Qed.

Lemma cache_rep_cells h c ls es :
  cache_rep h c ls → (entries h c = Some es ↔ cells h ls es).
Proof.
  intros Hrep. rewrite (cache_rep_entries _ _ _ Hrep). apply mapM_Some.
Qed.

Lemma cache_rep_has_cells h c ls : cache_rep h c ls → ∃ es, cells h ls es.
Proof.
  intros Hrep. destruct (cache_rep_entries_Some _ _ _ Hrep) as (es & _ & Hc). eauto.
Qed.

(** A key is in the index exactly when it is read along the list. *)
Lemma cache_rep_lookup_cells h c ls es k :
  cache_rep h c ls → cells h ls es →
  is_Some (cacheMap c !! k) ↔ k ∈ es.*1.
Proof.
  intros Hrep Hc. rewrite (cache_rep_lookup _ _ _ _ Hrep), (cells_keys _ _ _ Hc).
  rewrite list_elem_of_fmap. split.
  - by intros (k' & [= <-] & Hk).
  - intros Hk. eauto.
Qed.

Lemma cache_rep_cells_NoDup h c ls es :
  cache_rep h c ls → cells h ls es → NoDup es.*1.
Proof.
  intros Hrep Hc. pose proof (cache_rep_keys_NoDup _ _ _ Hrep) as Hnd.
  rewrite (cells_keys _ _ _ Hc) in Hnd.
  by apply (NoDup_fmap (@Some Z)) in Hnd.
Qed.

(** ** What one call does to the entries *)

Lemma to_size_t_int cap : 0 ≤ cap ≤ INT_MAX → to_size_t cap = cap.
Proof.
  unfold to_size_t, INT_MAX, SIZE_WIDTH. intros H. apply Z.mod_small. lia.
Qed.

Lemma at_capacity_true h c ls :
  0 ≤ capacity c ≤ INT_MAX → cache_rep h c ls →
  at_capacity c = true ↔ capacity c ≤ Z.of_nat (length ls).
Proof.
  intros Hcap Hrep. unfold at_capacity.
  rewrite (to_size_t_int _ Hcap), (cache_rep_size _ _ _ Hrep).
  apply bool_decide_eq_true.
Qed.

Lemma at_capacity_false h c ls :
  0 ≤ capacity c ≤ INT_MAX → cache_rep h c ls →
  at_capacity c = false ↔ Z.of_nat (length ls) < capacity c.
Proof.
  intros Hcap Hrep. unfold at_capacity.
  rewrite (to_size_t_int _ Hcap), (cache_rep_size _ _ _ Hrep).
  rewrite bool_decide_eq_false. lia.
Qed.

Lemma cells_split h l1 l l2 es :
  cells h (l1 ++ l :: l2) es →
  ∃ es1 e es2, es = es1 ++ e :: es2 ∧
               cells h l1 es1 ∧ entry_of h l = Some e ∧ cells h l2 es2.
Proof.
  intros Hc. apply Forall2_app_inv_l in Hc as (es1 & es' & H1 & H2 & ->).
  apply Forall2_cons_inv_l in H2 as (e & es2 & He & H2 & ->). eauto 8.
Qed.

Lemma cells_app h l1 l2 es1 es2 :
  cells h l1 es1 → cells h l2 es2 → cells h (l1 ++ l2) (es1 ++ es2).
Proof. apply Forall2_app. Qed.

Lemma get_refines cap h c ls es k :
  cache_rep h c ls → cells h ls es →
  ∃ r h' ls' es',
    get k c h = Some (r, h') ∧ cache_rep h' c ls' ∧ cells h' ls' es' ∧
    length ls' = length ls ∧ lru_step cap (Get k) es (Some r) es'.
Proof.
  intros Hrep Hc. destruct (cacheMap c !! k) as [p|] eqn:E.
  - destruct (cache_rep_find _ _ _ _ _ Hrep E) as (l & l1 & l2 & -> & -> & Hk).
    destruct (get_hit_spec _ _ _ _ _ _ Hrep E) as (v & h' & Hrun & Hv & Hrep' & Hsd).
    destruct (cells_split _ _ _ _ _ Hc) as (es1 & e & es2 & -> & Hc1 & He & Hc2).
    assert (e = (k, v)) as ->.
    { assert (entry_of h l = Some (k, v)) by (by apply entry_of_Some). congruence. }
    assert (cells h' (l :: l1 ++ l2) ((k, v) :: es1 ++ es2)) as Hc'.
    { apply (cells_ext h); [intros x _; split; apply Hsd|].
      constructor; [done|]. by apply cells_app. }
    exists v, h', (l :: l1 ++ l2), ((k, v) :: es1 ++ es2).
    split; [done|]. split; [done|]. split; [done|]. split; [|constructor].
    simpl. rewrite !length_app. simpl. lia.
  - exists (-1), h, ls, es.
    split; [by apply get_miss_spec|]. split; [done|]. split; [done|].
    split; [done|]. constructor.
    rewrite <- (cache_rep_lookup_cells _ _ _ _ k Hrep Hc), E.
    by intros [? ?].
Qed.

(** ** Sessions *)

Lemma cache_inv_entries cap h c :
  cache_inv cap h c → ∃ ls es, cache_rep h c ls ∧ cells h ls es ∧ entries h c = Some es.
Proof.
  intros (_ & ls & Hrep & _).
  destruct (cache_rep_has_cells _ _ _ Hrep) as [es Hc].
  exists ls, es. split; [done|]. split; [done|]. by apply (cache_rep_cells h c ls).
Qed.

Lemma new_inv cap h0 :
  0 ≤ cap →
  ∃ c h, LRU_CACHE_new cap h0 = Some (c, h) ∧ cache_inv cap h c ∧
         cacheMap c = ∅ ∧ cache_rep h c [].
Proof.
  intros Hcap. destruct (LRU_CACHE_new_spec cap h0) as (L & h & Hrun & Hrep).
  exists (Cache cap ∅ L), h. split; [done|]. split; [|done].
  split; [done|]. exists []. split; [done|]. simpl. lia.
Qed.

(** Running a sequence in two parts. *)
Lemma run_app ops1 ops2 : ∀ c h rs1 c1 h1,
  run ops1 c h = Some ((rs1, c1), h1) →
  run (ops1 ++ ops2) c h =
    match run ops2 c1 h1 with
    | Some ((rs2, c2), h2) => Some ((rs1 ++ rs2, c2), h2)
    | None => None
    end.
Proof.
  induction ops1 as [|o ops1 IH]; intros c h rs1 c1 h1 E.
  - injection E as <- <- <-. simpl. by destruct (run ops2 c h) as [[[??]?]|].
  - cbn [run app] in *. unfold bind at 1 in E. unfold bind at 1.
    destruct (step o c h) as [[[r c'] h']|]; [|done]. cbn beta iota in *.
    unfold bind at 1 in E. unfold bind at 1.
    destruct (run ops1 c' h') as [[[rs c''] h'']|] eqn:E1; [|done].
    injection E as <- <- <-.
    rewrite (IH _ _ _ _ _ E1).
    destruct (run ops2 c'' h'') as [[[rs2 c2] h2]|]; [|done].
    unfold ret. by rewrite app_assoc.
Qed.

(** ** The capacity as [size_t] *)

(** Of the capacities an [int] can hold, only 0 is handled as at most 0
    by the comparison in [size_t]. *)
Lemma to_size_t_nonpos cap : is_int cap → to_size_t cap ≤ 0 ↔ cap = 0.
Proof.
  unfold is_int, INT_MIN, INT_MAX, to_size_t, SIZE_WIDTH. intros Hint.
  split; [|by intros ->].
  intros Hle. destruct (decide (0 ≤ cap)) as [Hpos|Hneg].
  - rewrite Z.mod_small in Hle by lia. lia.
  - assert (cap mod 2 ^ 64 = cap + 2 ^ 64) as E
      by (symmetry; apply (Z.mod_unique _ _ (-1)); lia).
    lia.
Qed.

(** A negative capacity converts to a [size_t] of at least [2^63], which
    no index size below that reaches: such a cache never evicts. *)
Lemma negative_capacity_not_full c :
  INT_MIN ≤ capacity c < 0 → Z.of_nat (size (cacheMap c)) < 2 ^ 63 →
  at_capacity c = false.
Proof.
  unfold at_capacity, to_size_t, SIZE_WIDTH, INT_MIN. intros Hcap Hsize.
  apply bool_decide_eq_false.
  assert (capacity c mod 2 ^ 64 = capacity c + 2 ^ 64) as ->; [|lia].
  symmetry. apply (Z.mod_unique _ _ (-1)); lia.
Qed.

(** ** Recency *)

Lemma ahead_front (K J : Z) ks : K ≠ J → ahead K J (K :: ks).
Proof.
  intros Hne Hin. apply elem_of_cons in Hin as [->|Hin]; [done|].
  apply sublist_skip.
  apply list_elem_of_split in Hin as (k1 & k2 & ->).
  apply sublist_inserts_l, sublist_skip, sublist_nil_l.
Qed.

Lemma pair_sublist_drop (K J x : Z) a b :
  x ≠ K → x ≠ J → [K; J] `sublist_of` a ++ x :: b → [K; J] `sublist_of` a ++ b.
Proof.
  intros HK HJ Hs. apply sublist_app_cons_r in Hs as [Hs|(l1 & l2 & E & _)]; [done|].
  exfalso. destruct l1 as [|y [|z [|w l1]]]; simplify_eq/=.
Qed.

Lemma pair_sublist_drop_last (K J x : Z) ks :
  NoDup (ks ++ [x]) → J ∈ ks →
  [K; J] `sublist_of` ks ++ [x] → [K; J] `sublist_of` ks.
Proof.
  intros Hnd HJ Hs.
  apply sublist_app_cons_r in Hs as [Hs|(l1 & l2 & E & _ & H2)].
  - by rewrite app_nil_r in Hs.
  - exfalso. apply sublist_nil_r in H2 as ->.
    destruct l1 as [|y [|z [|w l1]]]; simplify_eq/=.
    apply NoDup_app in Hnd as (_ & Hnd & _). apply (Hnd _ HJ). left.
Qed.

(** A call that is not an access to [J] keeps [K] ahead of [J]. *)
Lemma ahead_step cap o es r es' K J :
  K ≠ J → lru_step cap o es r es' → NoDup es.*1 →
  (∀ k, o = Get k → k = J → J ∉ es.*1) →
  (∀ k v, o = Put k v → k ≠ J) →
  ahead K J es.*1 → ahead K J es'.*1.
Proof.
  intros Hne Hstep Hnd Hget Hput Ha.
  assert (∀ (k v : Z) (es1 es2 : list (Z * Z)),
            k ≠ J → ahead K J (es1 ++ (k, v) :: es2).*1 →
            ahead K J ((k, v) :: es1 ++ es2).*1) as Hmove.
  { intros k v es1 es2 Hk. rewrite !fmap_cons, !fmap_app, fmap_cons. cbn [fst].
    intros Ha' Hin. destruct (decide (k = K)) as [->|HkK]; [by apply ahead_front|].
    apply elem_of_cons in Hin as [->|Hin]; [done|].
    apply sublist_cons, (pair_sublist_drop K J k); [done | done |].
    apply Ha'. set_solver. }
  inversion Hstep; subst.
  - done.
  - apply Hmove; [|done]. intros Hk.
    apply (Hget k eq_refl Hk). rewrite fmap_app, fmap_cons. set_solver.
  - apply Hmove.
    + by apply (Hput k v).
    + by rewrite fmap_app, fmap_cons in Ha |- *.
  - rewrite fmap_cons. cbn [fst]. intros Hin.
    apply elem_of_cons in Hin as [Hk|Hin]; [by destruct (Hput k v)|].
    by apply sublist_cons, Ha.
  - rewrite fmap_cons. cbn [fst]. intros Hin.
    apply elem_of_cons in Hin as [Hk|Hin]; [by destruct (Hput k v)|].
    rewrite fmap_app in Ha, Hnd. simpl in Ha, Hnd.
    apply sublist_cons, (pair_sublist_drop_last K J e.1); [done | done |].
    apply Ha. set_solver.
Qed.

(** A [put] leaves its pair at the front of the list. *)
Lemma lru_put_front cap k v es r es' :
  lru_step cap (Put k v) es r es' → ∃ rest, es' = (k, v) :: rest.
Proof. inversion 1; subst; eauto. Qed.

(** An access to [K] brings [K] to the front. *)
Lemma access_front cap o es r es' K :
  lru_step cap o es r es' →
  (∃ v, o = Put K v) ∨ (o = Get K ∧ K ∈ es.*1) →
  ∃ v rest, es' = (K, v) :: rest.
Proof.
  intros Hstep [[v ->]|[-> Hin]]; inversion Hstep; subst; try done; eauto.
Qed.

Lemma accesses_true h c ls es k o :
  cache_rep h c ls → cells h ls es → accesses k o c = true →
  (∃ v, o = Put k v) ∨ (o = Get k ∧ k ∈ es.*1).
Proof.
  intros Hrep Hc. destruct o as [k'|k' v]; simpl.
  - rewrite andb_true_iff, !bool_decide_eq_true. intros [-> Hs]. right.
    split; [done|]. by apply (cache_rep_lookup_cells h c ls).
  - rewrite bool_decide_eq_true. intros ->. eauto.
Qed.

Lemma accesses_false h c ls es k o :
  cache_rep h c ls → cells h ls es → accesses k o c = false →
  (∀ k', o = Get k' → k' = k → k ∉ es.*1) ∧ (∀ k' v, o = Put k' v → k' ≠ k).
Proof.
  intros Hrep Hc. destruct o as [k0|k0 v0]; simpl.
  - rewrite andb_false_iff, !bool_decide_eq_false. intros Hacc. split; [|done].
    intros k' [= <-] -> Hin. apply (cache_rep_lookup_cells h c ls) in Hin; [|done..].
    by destruct Hacc.
  - rewrite bool_decide_eq_false. intros Hacc. split; [done|].
    by intros k' v [= <- <-].
Qed.

Lemma session_app cap ops1 ops2 h0 rs1 c1 h1 :
  session cap ops1 h0 = Some ((rs1, c1), h1) →
  session cap (ops1 ++ ops2) h0 =
    match run ops2 c1 h1 with
    | Some ((rs2, c2), h2) => Some ((rs1 ++ rs2, c2), h2)
    | None => None
    end.
Proof.
  unfold session, bind. destruct (LRU_CACHE_new cap h0) as [[c0 h]|]; [|done].
  apply run_app.
Qed.

(** ** A cache in use *)

(** From here on the capacity is one that [main] could pass and the spec
    allows: at least 1, and an [int]. *)
Section in_use.
Context (cap : Z) (Hcap : 1 ≤ cap ≤ INT_MAX).

(** Every call on a cache in use succeeds, keeps it in use, and acts on
    its entries as [lru_step] says. *)
Lemma put_refines h c ls es k v :
  capacity c = cap →
  cache_rep h c ls → Z.of_nat (length ls) ≤ cap → cells h ls es →
  ∃ c' h' ls' es',
    put k v c h = Some (c', h') ∧ capacity c' = cap ∧
    cache_rep h' c' ls' ∧ Z.of_nat (length ls') ≤ cap ∧ cells h' ls' es' ∧
    lru_step cap (Put k v) es None es'.
Proof.
  intros Ecap Hrep Hlen Hc.
  assert (0 ≤ capacity c ≤ INT_MAX) as Hcap' by lia.
  destruct (cacheMap c !! k) as [p|] eqn:E.
  - destruct (cache_rep_find _ _ _ _ _ Hrep E) as (l & l1 & l2 & -> & -> & Hk).
    destruct (put_hit_spec _ _ _ _ _ _ v Hrep E)
      as (h' & Hrun & Hrep' & Hk' & Hvl & Hv').
    destruct (cells_split _ _ _ _ _ Hc) as (es1 & [k0 v0] & es2 & -> & Hc1 & He & Hc2).
    apply entry_of_Some in He as [Hk0 Hv0].
    assert (k0 = k) as -> by congruence.
    pose proof (cache_rep_NoDup _ _ _ Hrep) as Hnd.
    apply NoDup_app in Hnd as (_ & Hn1 & Hnd). apply NoDup_cons in Hnd as [Hn2 _].
    exists c, h', (l :: l1 ++ l2), ((k, v) :: es1 ++ es2).
    split; [done|]. split; [done|]. split; [done|]. split; [|split; [|constructor]].
    + revert Hlen. simpl. rewrite !length_app. simpl. lia.
    + constructor.
      * apply entry_of_Some. by rewrite Hk'.
      * apply cells_app.
        -- apply (cells_ext h); [|done]. intros x Hx. split; [done|].
           apply Hv'. intros ->. specialize (Hn1 l Hx). set_solver.
        -- apply (cells_ext h); [|done]. intros x Hx. split; [done|].
           apply Hv'. by intros ->.
  - assert (k ∉ es.*1) as Hnk.
    { rewrite <- (cache_rep_lookup_cells _ _ _ _ k Hrep Hc), E. by intros [? ?]. }
    destruct (at_capacity c) eqn:Hat.
    + apply (at_capacity_true h c ls Hcap' Hrep) in Hat.
      destruct ls as [|a ls0]; [simpl in Hat; lia|].
      destruct (snoc_shape a ls0) as (ls' & q & Els). rewrite Els in *.
      assert (at_capacity c = true) as Hat'
        by (by apply (at_capacity_true h c (ls' ++ [q]) Hcap' Hrep)).
      destruct (put_full_spec _ _ _ _ k v Hrep E Hat')
        as (kp & h1 & l & h' & Hkp & _ & Hrep1 & El & Hrun & Hrep' & Hkl & Hvl & Hfr).
      destruct (cells_split _ _ _ _ _ Hc) as (es1 & e & es2 & -> & Hc1 & He & Hc2).
      apply Forall2_nil_inv_l in Hc2 as ->.
      eexists _, h', (l :: ls'), ((k, v) :: es1).
      split; [exact Hrun|]. split; [done|]. split; [done|].
      split; [|split].
      * revert Hlen. simpl. rewrite length_app. simpl. lia.
      * constructor; [by apply entry_of_Some|].
        by apply (cells_ext h).
      * constructor; [done|].
        rewrite (cells_length _ _ _ Hc). lia.
    + pose proof Hat as Hat'.
      apply (at_capacity_false h c ls Hcap' Hrep) in Hat.
      destruct (put_room_spec _ _ _ k v Hrep E Hat')
        as (h' & Hrun & Hrep' & Hkl & Hvl & Hfr).
      eexists _, h', (fresh (dom h) :: ls), ((k, v) :: es).
      split; [exact Hrun|]. split; [done|]. split; [done|].
      split; [|split].
      * simpl. lia.
      * constructor; [by apply entry_of_Some|].
        apply (cells_ext h); [|done]. intros x Hx. apply Hfr.
        intros ->. destruct (cache_rep_alloc _ _ _ _ Hrep Hx) as [? Hs].
        by rewrite fresh_not_alloc in Hs.
      * constructor; [done|].
        rewrite (cells_length _ _ _ Hc). lia.
Qed.

Lemma step_refines h c o es :
  cache_inv cap h c → entries h c = Some es →
  ∃ r c' h' es',
    step o c h = Some ((r, c'), h') ∧ cache_inv cap h' c' ∧
    entries h' c' = Some es' ∧ lru_step cap o es r es'.
Proof.
  intros (Ecap & ls & Hrep & Hlen) Hes.
  apply (cache_rep_cells _ _ _ _ Hrep) in Hes.
  destruct o as [k|k v].
  - destruct (get_refines cap _ _ _ _ k Hrep Hes)
      as (r & h' & ls' & es' & Hrun & Hrep' & Hc' & Hlen' & Hstep).
    exists (Some r), c, h', es'. split; [|split; [|split; [|done]]].
    + unfold step. by exec Hrun.
    + split; [done|]. exists ls'. split; [done|]. lia.
    + by apply (cache_rep_cells _ _ ls').
  - destruct (put_refines _ _ _ _ k v Ecap Hrep Hlen Hes)
      as (c' & h' & ls' & es' & Hrun & Ecap' & Hrep' & Hlen' & Hc' & Hstep).
    exists None, c', h', es'. split; [|split; [|split; [|done]]].
    + unfold step. by exec Hrun.
    + split; [done|]. by exists ls'.
    + by apply (cache_rep_cells _ _ ls').
Qed.

Lemma run_inv ops : ∀ h c,
  cache_inv cap h c →
  ∃ rs c' h', run ops c h = Some ((rs, c'), h') ∧ cache_inv cap h' c'.
Proof.
  induction ops as [|o ops IH]; intros h c Hinv.
  - by exists [], c, h.
  - destruct (cache_inv_entries _ _ _ Hinv) as (ls & es & _ & _ & Hes).
    destruct (step_refines h c o es Hinv Hes)
      as (r & c1 & h1 & es1 & Hstep & Hinv1 & _ & _).
    destruct (IH h1 c1 Hinv1) as (rs & c' & h' & Hrun & Hinv').
    exists (from_option (λ z, [z]) [] r ++ rs), c', h'. split; [|done].
    cbn [run]. exec Hstep. cbn beta iota.
    by exec Hrun.
Qed.

Lemma session_inv ops h0 :
  ∃ rs c h, session cap ops h0 = Some ((rs, c), h) ∧ cache_inv cap h c.
Proof.
  destruct (new_inv cap h0) as (c0 & h1 & Hnew & Hinv & _); [lia|].
  destruct (run_inv ops h1 c0 Hinv) as (rs & c & h & Hrun & Hinv').
  exists rs, c, h. split; [|done].
  unfold session. by exec Hnew.
Qed.

Lemma session_inv_eq ops h0 rs c h :
  session cap ops h0 = Some ((rs, c), h) → cache_inv cap h c.
Proof.
  intros E. destruct (session_inv ops h0) as (rs' & c' & h' & E' & Hinv).
  congruence.
Qed.

(** After [put(k, v)] the index sends [k] to a cell holding [v]. *)
Lemma put_stores h c k v :
  cache_inv cap h c →
  ∃ c' h' ls' l,
    put k v c h = Some (c', h') ∧ cache_inv cap h' c' ∧ cache_rep h' c' ls' ∧
    cacheMap c' !! k = Some (Some l) ∧ hval h' l = Some v.
Proof.
  intros Hinv.
  destruct (cache_inv_entries _ _ _ Hinv) as (ls & es & Hrep & Hc & _).
  destruct Hinv as (Ecap & ls0 & Hrep0 & Hlen).
  rewrite <- (cache_rep_unique _ _ _ _ Hrep Hrep0) in Hlen.
  destruct (put_refines _ _ _ _ k v Ecap Hrep Hlen Hc)
    as (c' & h' & ls' & es' & Hrun & Ecap' & Hrep' & Hlen' & Hc' & Hstep).
  apply lru_put_front in Hstep as [rest ->].
  destruct ls' as [|l ls']; [inversion Hc'|].
  apply Forall2_cons in Hc' as [He _]. apply entry_of_Some in He as [Hk Hv].
  exists c', h', (l :: ls'), l. split; [done|]. split.
  { split; [done|]. by exists (l :: ls'). }
  split; [done|]. split; [|done].
  destruct Hrep' as (hd & tl & _ & _ & Hm). apply Hm.
  exists l. split; [done|]. split; [left | done].
Qed.

(** While [J] is not accessed, [K] stays ahead of it. *)
Lemma untouched_run K J post : ∀ c h es,
  K ≠ J →
  cache_inv cap h c → entries h c = Some es → ahead K J es.*1 →
  untouched J post c h = true →
  ∃ rs c' h' es',
    run post c h = Some ((rs, c'), h') ∧ cache_inv cap h' c' ∧
    entries h' c' = Some es' ∧ ahead K J es'.*1.
Proof.
  induction post as [|o post IH]; intros c h es Hne Hinv Hes Ha Hun.
  - by exists [], c, h, es.
  - destruct (step_refines h c o es Hinv Hes)
      as (r & c1 & h1 & es1 & Hstep & Hinv1 & Hes1 & Hlru).
    cbn [untouched] in Hun. rewrite Hstep in Hun.
    apply andb_true_iff in Hun as [Hacc Hun]. apply negb_true_iff in Hacc.
    destruct Hinv as (Ecap & ls & Hrep & Hlen).
    pose proof (proj1 (cache_rep_cells _ _ _ _ Hrep) Hes) as Hc.
    destruct (accesses_false _ _ _ _ _ _ Hrep Hc Hacc) as [Hget Hput].
    assert (ahead K J es1.*1) as Ha1.
    { by apply (ahead_step cap o es r es1 K J Hne Hlru
                  (cache_rep_cells_NoDup _ _ _ _ Hrep Hc)). }
    destruct (IH c1 h1 es1 Hne Hinv1 Hes1 Ha1 Hun)
      as (rs & c' & h' & es' & Hrun & Hinv' & Hes' & Ha').
    exists (from_option (λ z, [z]) [] r ++ rs), c', h', es'.
    split; [|done].
    cbn [run]. exec Hstep. cbn beta iota.
    by exec Hrun.
Qed.

End in_use.

(** ** The cache of the examples *)

Lemma demo_session :
  session 2 [Put 1 10; Put 2 20] ∅ = Some (([], demo_cache), demo_heap).
Proof. vm_compute. reflexivity. Qed.

Lemma demo_rep : cache_rep demo_heap demo_cache [4%positive; 3%positive].
Proof.
  destruct (session_inv_eq 2 ltac:(unfold INT_MAX; lia) _ ∅ _ _ _ demo_session)
    as (_ & ls & Hrep & _).
  pose proof (cache_rep_nodes_of _ _ _ Hrep) as E.
  vm_compute in E. by injection E as <-.
Qed.

(** * The properties of the cache *)

(** ** Construction *)

(** C1 as stated fails: the constructor accepts capacity 0, and [get]
    answers on the cache it yields. *)
Lemma capacity_below_one_not_rejected :
  ¬ (∀ cap h0, is_int cap → cap < 1 → rejected cap h0).
Proof.
  intros H.
  assert (is_int 0) as Hint by (unfold is_int, INT_MIN, INT_MAX; lia).
  specialize (H 0 ∅ Hint ltac:(lia)). unfold rejected in H.
  destruct (LRU_CACHE_new 0 ∅) as [[c h]|] eqn:E; [|by vm_compute in E].
  specialize (H (Get 1)).
  vm_compute in E. injection E as <- <-. by vm_compute in H.
Qed.

(** The walkthrough of [main] on a cache built with capacity -1: nothing
    is evicted, every [get] hits. *)
Example main_run_negative :
  match session (-1) main_ops ∅ with
  | Some ((rs, c), h) => Some (rs, entries h c)
  | None => None
  end = Some ([10; 20; 10; 30; 40], Some [(4, 40); (3, 30); (1, 10); (2, 20)]).
Proof. vm_compute. reflexivity. Qed.

(** C1, amended -- the constructor never rejects.  For every capacity,
    below 1 or not, it succeeds and yields a well-formed empty cache that
    stores the capacity, and on which [get] answers -1 for every key. *)
Theorem constructor_accepts_every_capacity :
  ∀ cap h0, ∃ c h,
    LRU_CACHE_new cap h0 = Some (c, h) ∧
    capacity c = cap ∧ cacheMap c = ∅ ∧
    cache_rep h c [] ∧ entries h c = Some [] ∧
    ∀ k, get k c h = Some (-1, h).
Proof.
  intros cap h0.
  destruct (LRU_CACHE_new_spec cap h0) as (L & h & Hrun & Hrep).
  exists (Cache cap ∅ L), h. split; [done|]. split; [done|]. split; [done|].
  split; [done|]. split.
  - by rewrite (cache_rep_entries _ _ _ Hrep).
  - intros k. by apply get_miss_spec.
Qed.

(** ** Eviction *)

(** C2 -- eviction before insertion.  In a well-formed cache with a
    capacity from 1 up to [INT_MAX] whose index holds exactly [capacity]
    keys, [put] of a new key goes through these stages, each of which
    succeeds: [remove_last] unlinks and returns the tail cell [p] of the
    list; the key [kp] of [p] is erased from the index and [p] is freed;
    only then a new cell [l] is made, linked at the front, and entered in
    the index.  Between the stages the list and the index hold one entry
    less than the capacity, at the end exactly the capacity: never more. *)
Theorem put_full_evicts_then_inserts h c ls k v :
  cache_rep h c ls → 1 ≤ capacity c ≤ INT_MAX →
  Z.of_nat (size (cacheMap c)) = capacity c →
  cacheMap c !! k = None →
  ∃ ls' p kp h1 h2 l h3 h4,
    let c1 := Cache (capacity c) (delete kp (cacheMap c)) (cacheList c) in
    let c2 := Cache (capacity c) (<[k := Some l]> (delete kp (cacheMap c)))
                (cacheList c) in
    ls = ls' ++ [p] ∧ hkey h p = Some kp ∧ cacheMap c !! kp = Some (Some p) ∧
    remove_last (cacheList c) h = Some (Some p, h1) ∧
    nodes_of h1 (cacheList c) = Some ls' ∧
    get_key (Some p) h1 = Some (kp, h1) ∧
    delete_node (Some p) h1 = Some (tt, h2) ∧
    cache_rep h2 c1 ls' ∧
    new_node k v h2 = Some (Some l, h3) ∧
    nodes_of h3 (cacheList c) = Some ls' ∧
    add_first (cacheList c) (Some l) h3 = Some (tt, h4) ∧
    put k v c h = Some (c2, h4) ∧
    cache_rep h4 c2 (l :: ls') ∧
    entry_of h4 l = Some (k, v) ∧
    Z.of_nat (length ls') < capacity c ∧
    Z.of_nat (size (cacheMap c1)) < capacity c ∧
    Z.of_nat (length (l :: ls')) = capacity c ∧
    Z.of_nat (size (cacheMap c2)) = capacity c.
Proof.
  intros Hrep Hcap Hsize E.
  assert (at_capacity c = true) as Hat.
  { apply (at_capacity_true h c ls); [lia | done |].
    rewrite <- (cache_rep_size _ _ _ Hrep). lia. }
  rewrite (cache_rep_size _ _ _ Hrep) in Hsize.
  destruct ls as [|a ls0]; [simpl in Hsize; lia|].
  destruct (snoc_shape a ls0) as (ls' & p & Els). rewrite Els in *.
  destruct (evict_spec _ _ _ _ Hrep)
    as (kp & h1 & h2 & Hkp & Hrl & Hlr1 & Hsp & Hsd & Eh2 & Hev & Hrep1 & Hfr1).
  set (c1 := Cache (capacity c) (delete kp (cacheMap c)) (cacheList c)) in *.
  assert (cacheMap c1 !! k = None) as E1.
  { simpl. apply lookup_delete_None. by right. }
  destruct (insert_new_spec h2 c1 ls' k v Hrep1 E1)
    as (h4 & Hnew & Hlr3 & Hadd & Hins & Hrep2 & Hk & Hv & Hfr).
  exists ls', p, kp, h1, h2, (fresh (dom h2)),
    (<[fresh (dom h2) := Node k v nullptr nullptr]> h2), h4.
  cbn zeta. fold c1.
  set (c2 := Cache (capacity c)
               (<[k := Some (fresh (dom h2))]> (delete kp (cacheMap c)))
               (cacheList c)) in *.
  rewrite length_app in Hsize. simpl in Hsize.
  split; [done|]. split; [done|]. split.
  { destruct Hrep as (hd & tl & _ & _ & Hm). apply Hm.
    exists p. split; [done|]. split; [set_solver | done]. }
  split; [done|]. split; [by apply list_rep_nodes_of|]. split.
  { apply get_key_some. destruct Hsd as [Hsd _]. by rewrite Hsd. }
  split.
  { unfold delete_node. destruct Hsp as [n ->]. by rewrite Eh2. }
  split; [done|]. split; [done|]. split; [by apply list_rep_nodes_of|].
  split; [done|]. split.
  { rewrite (put_miss_eq _ _ _ _ E), Hat. by exec Hev. }
  split; [done|]. split; [by apply entry_of_Some|].
  split; [lia|]. split.
  { rewrite (cache_rep_size _ _ _ Hrep1). lia. }
  split.
  { simpl. lia. }
  pose proof (cache_rep_size _ _ _ Hrep2) as Hs.
  unfold c2. simpl in Hs |- *. lia.
Qed.

Lemma put_full_evicts_then_inserts_witness :
  cache_rep demo_heap demo_cache [4%positive; 3%positive] ∧
  1 ≤ capacity demo_cache ≤ INT_MAX ∧
  Z.of_nat (size (cacheMap demo_cache)) = capacity demo_cache ∧
  cacheMap demo_cache !! 3 = None ∧
  ∃ ls' p kp h1 h2 l h3 h4,
    let c1 := Cache 2 (delete kp (cacheMap demo_cache)) (cacheList demo_cache) in
    let c2 := Cache 2 (<[3 := Some l]> (delete kp (cacheMap demo_cache)))
                (cacheList demo_cache) in
    [4%positive; 3%positive] = ls' ++ [p] ∧ hkey demo_heap p = Some kp ∧
    cacheMap demo_cache !! kp = Some (Some p) ∧
    remove_last (cacheList demo_cache) demo_heap = Some (Some p, h1) ∧
    nodes_of h1 (cacheList demo_cache) = Some ls' ∧
    get_key (Some p) h1 = Some (kp, h1) ∧
    delete_node (Some p) h1 = Some (tt, h2) ∧
    cache_rep h2 c1 ls' ∧
    new_node 3 30 h2 = Some (Some l, h3) ∧
    nodes_of h3 (cacheList demo_cache) = Some ls' ∧
    add_first (cacheList demo_cache) (Some l) h3 = Some (tt, h4) ∧
    put 3 30 demo_cache demo_heap = Some (c2, h4) ∧
    cache_rep h4 c2 (l :: ls') ∧
    entry_of h4 l = Some (3, 30) ∧
    Z.of_nat (length ls') < 2 ∧
    Z.of_nat (size (cacheMap c1)) < 2 ∧
    Z.of_nat (length (l :: ls')) = 2 ∧
    Z.of_nat (size (cacheMap c2)) = 2.
Proof.
  split; [exact demo_rep|].
  split; [unfold INT_MAX; simpl; lia|].
  split; [reflexivity|]. split; [reflexivity|].
  apply (put_full_evicts_then_inserts demo_heap demo_cache
           [4%positive; 3%positive] 3 30 demo_rep).
  - unfold INT_MAX. simpl. lia.
  - reflexivity.
  - reflexivity.
Defined.

(** The same call, computed: key 1, the least recently used, leaves. *)
Example put_full_demo :
  match put 3 30 demo_cache demo_heap with
  | Some (c', h') => Some (size (cacheMap c'), entries h' c')
  | None => None
  end = Some (2%nat, Some [(3, 30); (2, 20)]).
Proof. vm_compute. reflexivity. Qed.

(** ** The invariants *)

(** C3 -- capacity invariant.  For every capacity from 1 up to [INT_MAX]
    and every sequence of [get] and [put] calls on a freshly built cache,
    the calls all succeed and, after the last one, the size of the index
    equals the number of entries of the recency list and is at most the
    capacity.  (A sequence is arbitrary, so this holds after each call.) *)
Theorem capacity_invariant cap ops h0 :
  1 ≤ cap ≤ INT_MAX →
  ∃ rs c h es,
    session cap ops h0 = Some ((rs, c), h) ∧
    capacity c = cap ∧
    entries h c = Some es ∧
    size (cacheMap c) = length es ∧
    Z.of_nat (length es) ≤ cap.
Proof.
  intros Hcap.
  destruct (session_inv cap Hcap ops h0) as (rs & c & h & Hrun & Hinv).
  destruct (cache_inv_entries _ _ _ Hinv) as (ls & es & Hrep & Hc & Hes).
  destruct Hinv as (Ecap & ls' & Hrep' & Hlen).
  rewrite <- (cache_rep_unique _ _ _ _ Hrep Hrep') in Hlen.
  exists rs, c, h, es. split; [done|]. split; [done|]. split; [done|].
  rewrite (cache_rep_size _ _ _ Hrep), (cells_length _ _ _ Hc). split; [done | lia].
Qed.

Lemma capacity_invariant_witness :
  1 ≤ 2 ≤ INT_MAX ∧
  ∃ rs c h es,
    session 2 main_ops ∅ = Some ((rs, c), h) ∧
    capacity c = 2 ∧
    entries h c = Some es ∧
    size (cacheMap c) = length es ∧
    Z.of_nat (length es) ≤ 2.
Proof.
  split; [unfold INT_MAX; lia|].
  apply (capacity_invariant 2 main_ops ∅). unfold INT_MAX. lia.
Defined.

(** C4 -- bijection invariant.  For every capacity from 1 up to [INT_MAX]
    and every sequence of calls on a freshly built cache, after the last
    call the index maps exactly the keys of the cells linked in the list,
    each key to the cell that carries it; the key set of the index is the
    set of keys read along the list, and no key is read twice. *)
Theorem bijection_invariant cap ops h0 :
  1 ≤ cap ≤ INT_MAX →
  ∃ rs c h ls es,
    session cap ops h0 = Some ((rs, c), h) ∧
    nodes_of h (cacheList c) = Some ls ∧
    entries h c = Some es ∧
    index_rep h (cacheMap c) ls ∧
    dom (cacheMap c) = list_to_set es.*1 ∧
    NoDup es.*1.
Proof.
  intros Hcap.
  destruct (session_inv cap Hcap ops h0) as (rs & c & h & Hrun & Hinv).
  destruct (cache_inv_entries _ _ _ Hinv) as (ls & es & Hrep & Hc & Hes).
  exists rs, c, h, ls, es. split; [done|].
  split; [by apply cache_rep_nodes_of|]. split; [done|]. split; [|split].
  - by destruct Hrep as (? & ? & _ & _ & ?).
  - apply set_eq. intros k.
    rewrite elem_of_dom, elem_of_list_to_set.
    by apply (cache_rep_lookup_cells h c ls).
  - by apply (cache_rep_cells_NoDup h c ls).
Qed.

Lemma bijection_invariant_witness :
  1 ≤ 2 ≤ INT_MAX ∧
  ∃ rs c h ls es,
    session 2 main_ops ∅ = Some ((rs, c), h) ∧
    nodes_of h (cacheList c) = Some ls ∧
    entries h c = Some es ∧
    index_rep h (cacheMap c) ls ∧
    dom (cacheMap c) = list_to_set es.*1 ∧
    NoDup es.*1.
Proof.
  split; [unfold INT_MAX; lia|].
  apply (bijection_invariant 2 main_ops ∅). unfold INT_MAX. lia.
Defined.

(** ** The recency law *)

(** C5 -- recency law.  Take a cache built with a capacity from 1 up to
    [INT_MAX] and used by the calls [pre]; let the next call [a] be an
    access to [K] (a [put] of [K], or a [get] of [K] that hits), and let
    the calls [post] that follow hold no access to another key [J], so
    that [K] was accessed more recently than [J].  Then all the calls
    succeed, and in the state they reach: if [J] is still read along the
    list, [K] is read before it (nearer the front, farther from
    eviction); and if the index still holds [J] it holds [K].  So, at any
    time before [J] is accessed again, [K] has not been evicted unless
    [J] has been: [J] is evicted no later than [K]. *)
Theorem recency_law cap pre a post h0 K J rs1 c1 h1 r c2 h2 :
  1 ≤ cap ≤ INT_MAX → K ≠ J →
  session cap pre h0 = Some ((rs1, c1), h1) →
  accesses K a c1 = true →
  step a c1 h1 = Some ((r, c2), h2) →
  untouched J post c2 h2 = true →
  ∃ rs c h es,
    run post c2 h2 = Some ((rs, c), h) ∧
    session cap (pre ++ a :: post) h0 =
      Some ((rs1 ++ from_option (λ z, [z]) [] r ++ rs, c), h) ∧
    entries h c = Some es ∧
    (J ∈ es.*1 → [K; J] `sublist_of` es.*1) ∧
    (is_Some (cacheMap c !! J) → is_Some (cacheMap c !! K)).
Proof.
  intros Hcap Hne Hpre Hacc Hstep Hun.
  pose proof (session_inv_eq _ Hcap _ _ _ _ _ Hpre) as Hinv1.
  destruct (cache_inv_entries _ _ _ Hinv1) as (ls1 & es1 & Hrep1 & Hc1 & Hes1).
  destruct (step_refines cap Hcap h1 c1 a es1 Hinv1 Hes1)
    as (r' & c2' & h2' & es2 & Hstep' & Hinv2 & Hes2 & Hlru).
  rewrite Hstep in Hstep'. injection Hstep' as <- <- <-.
  destruct (access_front cap a es1 r es2 K Hlru
              (accesses_true _ _ _ _ _ _ Hrep1 Hc1 Hacc)) as (v & rest & ->).
  destruct (untouched_run cap Hcap K J post c2 h2 _ Hne Hinv2 Hes2) as
    (rs & c & h & es & Hrun & Hinv & Hes & Ha); [|done|].
  { rewrite fmap_cons. by apply ahead_front. }
  exists rs, c, h, es. split; [done|]. split; [|split; [done|split; [done|]]].
  - rewrite (session_app _ _ _ _ _ _ _ Hpre). cbn [run].
    exec Hstep. cbn beta iota.
    by exec Hrun.
  - destruct Hinv as (_ & ls & Hrep & _).
    pose proof (proj1 (cache_rep_cells _ _ _ _ Hrep) Hes) as Hc.
    rewrite !(cache_rep_lookup_cells _ _ _ _ _ Hrep Hc). intros HJ.
    apply (elem_of_sublist [K; J]); [left | by apply Ha].
Qed.

Lemma recency_law_witness :
  1 ≤ 2 ≤ INT_MAX ∧ 1 ≠ 2 ∧
  session 2 [Put 1 10; Put 2 20] ∅ = Some (([], demo_cache), demo_heap) ∧
  accesses 1 (Get 1) demo_cache = true ∧
  step (Get 1) demo_cache demo_heap = Some ((Some 10, demo_cache), demo_heap_got) ∧
  untouched 2 [Put 3 30] demo_cache demo_heap_got = true ∧
  ∃ rs c h es,
    run [Put 3 30] demo_cache demo_heap_got = Some ((rs, c), h) ∧
    session 2 ([Put 1 10; Put 2 20] ++ Get 1 :: [Put 3 30]) ∅ =
      Some (([] ++ [10] ++ rs, c), h) ∧
    entries h c = Some es ∧
    (2 ∈ es.*1 → [1; 2] `sublist_of` es.*1) ∧
    (is_Some (cacheMap c !! 2) → is_Some (cacheMap c !! 1)).
Proof.
  split; [unfold INT_MAX; lia|]. split; [lia|].
  split; [exact demo_session|]. split; [reflexivity|].
  split; [vm_compute; reflexivity|]. split; [vm_compute; reflexivity|].
  apply (recency_law 2 [Put 1 10; Put 2 20] (Get 1) [Put 3 30] ∅ 1 2
           [] demo_cache demo_heap (Some 10) demo_cache demo_heap_got).
  - unfold INT_MAX. lia.
  - lia.
  - exact demo_session.
  - reflexivity.
  - vm_compute. reflexivity.
  - vm_compute. reflexivity.
Defined.

(** The walkthrough of [main] up to [put(3, 30)], computed: key 1, read
    after key 2 was written, stays; key 2 is evicted. *)
Example recency_demo :
  match session 2 [Put 1 10; Put 2 20; Get 1; Put 3 30] ∅ with
  | Some ((_, c), h) => Some (entries h c)
  | None => None
  end = Some (Some [(3, 30); (1, 10)]).
Proof. vm_compute. reflexivity. Qed.

(** ** Hits and misses *)

(** C6 -- a hit of [get].  In every well-formed state, [get] of a key of
    the index returns the value stored in that key's cell, moves the cell
    to the front of the list and keeps the other cells in their order;
    no key or value changes, and the list keeps its length. *)
Theorem get_hit_moves_to_front h c ls k p :
  cache_rep h c ls → cacheMap c !! k = Some p →
  ∃ l l1 l2 v h' es1 es2,
    p = Some l ∧ ls = l1 ++ l :: l2 ∧ entry_of h l = Some (k, v) ∧
    get k c h = Some (v, h') ∧
    cache_rep h' c (l :: l1 ++ l2) ∧
    (∀ x, entry_of h' x = entry_of h x) ∧
    entries h c = Some (es1 ++ (k, v) :: es2) ∧
    entries h' c = Some ((k, v) :: es1 ++ es2) ∧
    length (l :: l1 ++ l2) = length ls.
Proof.
  intros Hrep E.
  destruct (cache_rep_find _ _ _ _ _ Hrep E) as (l & l1 & l2 & -> & -> & Hk).
  destruct (get_hit_spec _ _ _ _ _ _ Hrep E) as (v & h' & Hrun & Hv & Hrep' & Hsd).
  destruct (cache_rep_has_cells _ _ _ Hrep) as [es Hc].
  destruct (cells_split _ _ _ _ _ Hc) as (es1 & e & es2 & -> & Hc1 & He & Hc2).
  assert (entry_of h l = Some (k, v)) as He' by (by apply entry_of_Some).
  assert (e = (k, v)) as -> by congruence.
  exists l, l1, l2, v, h', es1, es2.
  split; [done|]. split; [done|]. split; [done|]. split; [done|].
  split; [done|]. split; [intros x; by apply same_data_entry|].
  split; [by apply (cache_rep_cells h c (l1 ++ l :: l2))|]. split.
  - apply (cache_rep_cells h' c (l :: l1 ++ l2)); [done|].
    apply (cells_ext h); [intros x _; split; apply Hsd|].
    constructor; [done|]. by apply cells_app.
  - simpl. rewrite !length_app. simpl. lia.
Qed.

Lemma get_hit_moves_to_front_witness :
  cache_rep demo_heap demo_cache [4%positive; 3%positive] ∧
  cacheMap demo_cache !! 1 = Some (Some 3%positive) ∧
  ∃ l l1 l2 v h' es1 es2,
    Some 3%positive = Some l ∧ [4%positive; 3%positive] = l1 ++ l :: l2 ∧
    entry_of demo_heap l = Some (1, v) ∧
    get 1 demo_cache demo_heap = Some (v, h') ∧
    cache_rep h' demo_cache (l :: l1 ++ l2) ∧
    (∀ x, entry_of h' x = entry_of demo_heap x) ∧
    entries demo_heap demo_cache = Some (es1 ++ (1, v) :: es2) ∧
    entries h' demo_cache = Some ((1, v) :: es1 ++ es2) ∧
    length (l :: l1 ++ l2) = length [4%positive; 3%positive].
Proof.
  split; [exact demo_rep|]. split; [reflexivity|].
  apply (get_hit_moves_to_front demo_heap demo_cache
           [4%positive; 3%positive] 1 (Some 3%positive) demo_rep).
  reflexivity.
Defined.

(** The same call, computed: the entry of key 1 comes first. *)
Example get_hit_demo :
  match get 1 demo_cache demo_heap with
  | Some (v, h') => Some (v, entries h' demo_cache)
  | None => None
  end = Some (10, Some [(1, 10); (2, 20)]).
Proof. vm_compute. reflexivity. Qed.

(** C7 -- update, not growth.  In every well-formed state, at capacity or
    not, [put] of a key of the index writes the new value into that key's
    cell and moves the cell to the front; the index and the capacity are
    returned as they were, no cell leaves the list, and every other cell
    keeps its key and value. *)
Theorem put_hit_updates h c ls k v p :
  cache_rep h c ls → cacheMap c !! k = Some p →
  ∃ l l1 l2 v0 h' es1 es2,
    p = Some l ∧ ls = l1 ++ l :: l2 ∧ entry_of h l = Some (k, v0) ∧
    put k v c h = Some (c, h') ∧
    cache_rep h' c (l :: l1 ++ l2) ∧
    entry_of h' l = Some (k, v) ∧
    (∀ x, x ≠ l → entry_of h' x = entry_of h x) ∧
    entries h c = Some (es1 ++ (k, v0) :: es2) ∧
    entries h' c = Some ((k, v) :: es1 ++ es2) ∧
    length (l :: l1 ++ l2) = length ls.
Proof.
  intros Hrep E.
  destruct (cache_rep_find _ _ _ _ _ Hrep E) as (l & l1 & l2 & -> & -> & Hk).
  destruct (put_hit_spec _ _ _ _ _ _ v Hrep E)
    as (h' & Hrun & Hrep' & Hk' & Hvl & Hv').
  destruct (cache_rep_has_cells _ _ _ Hrep) as [es Hc].
  destruct (cells_split _ _ _ _ _ Hc) as (es1 & [k0 v0] & es2 & -> & Hc1 & He & Hc2).
  pose proof He as He'. apply entry_of_Some in He' as [Hk0 Hv0].
  assert (k0 = k) as -> by congruence.
  pose proof (cache_rep_NoDup _ _ _ Hrep) as Hnd.
  apply NoDup_app in Hnd as (_ & Hn1 & Hnd). apply NoDup_cons in Hnd as [Hn2 _].
  assert (entry_of h' l = Some (k, v)) as Hel.
  { apply entry_of_Some. by rewrite Hk'. }
  exists l, l1, l2, v0, h', es1, es2.
  split; [done|]. split; [done|]. split; [done|]. split; [done|].
  split; [done|]. split; [done|]. split; [|split; [|split]].
  - intros x Hx. apply entry_of_ext; [done | by apply Hv'].
  - by apply (cache_rep_cells h c (l1 ++ l :: l2)).
  - apply (cache_rep_cells h' c (l :: l1 ++ l2)); [done|].
    constructor; [done|]. apply cells_app.
    + apply (cells_ext h); [|done]. intros x Hx. split; [done|].
      apply Hv'. intros ->. specialize (Hn1 l Hx). set_solver.
    + apply (cells_ext h); [|done]. intros x Hx. split; [done|].
      apply Hv'. by intros ->.
  - simpl. rewrite !length_app. simpl. lia.
Qed.

Lemma put_hit_updates_witness :
  cache_rep demo_heap demo_cache [4%positive; 3%positive] ∧
  cacheMap demo_cache !! 1 = Some (Some 3%positive) ∧
  ∃ l l1 l2 v0 h' es1 es2,
    Some 3%positive = Some l ∧ [4%positive; 3%positive] = l1 ++ l :: l2 ∧
    entry_of demo_heap l = Some (1, v0) ∧
    put 1 11 demo_cache demo_heap = Some (demo_cache, h') ∧
    cache_rep h' demo_cache (l :: l1 ++ l2) ∧
    entry_of h' l = Some (1, 11) ∧
    (∀ x, x ≠ l → entry_of h' x = entry_of demo_heap x) ∧
    entries demo_heap demo_cache = Some (es1 ++ (1, v0) :: es2) ∧
    entries h' demo_cache = Some ((1, 11) :: es1 ++ es2) ∧
    length (l :: l1 ++ l2) = length [4%positive; 3%positive].
Proof.
  split; [exact demo_rep|]. split; [reflexivity|].
  apply (put_hit_updates demo_heap demo_cache
           [4%positive; 3%positive] 1 11 (Some 3%positive) demo_rep).
  reflexivity.
Defined.

(** The same call, computed on the full cache of capacity 2: both keys
    stay, key 1 with its new value at the front. *)
Example put_hit_demo :
  match put 1 11 demo_cache demo_heap with
  | Some (c', h') => Some (at_capacity demo_cache, size (cacheMap c'), entries h' c')
  | None => None
  end = Some (true, 2%nat, Some [(1, 11); (2, 20)]).
Proof. vm_compute. reflexivity. Qed.

(** C8 -- miss transparency.  In every state, [get] of a key that the
    index does not hold returns -1 and leaves the heap as it was: every
    cell, link and so the order of the list are unchanged; [get] has no
    access to change the index or the capacity. *)
Theorem get_miss_unchanged h c k :
  cacheMap c !! k = None →
  get k c h = Some (-1, h) ∧
  step (Get k) c h = Some ((Some (-1), c), h).
Proof.
  intros E. split; [by apply get_miss_spec|].
  unfold step. by exec ((get_miss_spec h c k E)).
Qed.

Lemma get_miss_unchanged_witness :
  cacheMap demo_cache !! 3 = None ∧
  get 3 demo_cache demo_heap = Some (-1, demo_heap) ∧
  step (Get 3) demo_cache demo_heap = Some ((Some (-1), demo_cache), demo_heap).
Proof.
  split; [reflexivity|].
  apply (get_miss_unchanged demo_heap demo_cache 3). reflexivity.
Defined.

(** ** Faults and the miss indicator *)

(** C9 -- the eviction branch never meets an empty list when the capacity
    is at least 1.  In every state reached by calls on a freshly built
    cache of capacity from 1 up to [INT_MAX], if [put] of a new key finds
    the cache at capacity, then [remove_last] returns a cell that is not
    null and still allocated, reading its key and freeing it succeed, and
    so does the whole [put].  On a cache built with capacity 0 -- with any
    capacity that the comparison [cacheMap.size() >= capacity] handles as
    at most 0 -- the first [put] takes the eviction branch with the list
    empty: [remove_last] returns [nullptr] and writes nothing, and [put]
    goes on to lines 106 to 117 with [lruNode] null, where it applies
    [->] to it.  What comes of that is undefined, and is not stated. *)
Theorem eviction_is_safe :
  (∀ cap ops h0 k v,
     1 ≤ cap ≤ INT_MAX →
     ∃ rs c h,
       session cap ops h0 = Some ((rs, c), h) ∧
       (cacheMap c !! k = None → at_capacity c = true →
        ∃ p h1 kp,
          remove_last (cacheList c) h = Some (Some p, h1) ∧
          is_Some (h1 !! p) ∧
          get_key (Some p) h1 = Some (kp, h1) ∧
          delete_node (Some p) h1 = Some (tt, delete p h1)) ∧
       is_Some (put k v c h)) ∧
  (∀ cap h0 k v,
     to_size_t cap ≤ 0 →
     ∃ c h,
       LRU_CACHE_new cap h0 = Some (c, h) ∧
       cacheMap c !! k = None ∧ at_capacity c = true ∧
       remove_last (cacheList c) h = Some (nullptr, h) ∧
       put k v c h = after_remove_last k v c nullptr h).
Proof.
  split.
  - intros cap ops h0 k v Hcap.
    destruct (session_inv cap Hcap ops h0) as (rs & c & h & Hrun & Hinv).
    exists rs, c, h. split; [done|]. split.
    + intros E Hat. destruct Hinv as (Ecap & ls & Hrep & Hlen).
      apply (at_capacity_true h c ls) in Hat; [|lia|done].
      destruct ls as [|a ls0]; [simpl in Hat; lia|].
      destruct (snoc_shape a ls0) as (ls' & p & Els). rewrite Els in *.
      destruct (evict_spec _ _ _ _ Hrep)
        as (kp & h1 & h2 & Hkp & Hrl & _ & Hsp & [Hsd _] & _).
      exists p, h1, kp. split; [done|]. split; [done|]. split.
      * apply get_key_some. by rewrite Hsd.
      * unfold delete_node. by destruct Hsp as [n ->].
    + destruct (put_stores cap Hcap h c k v Hinv) as (c' & h' & _ & _ & -> & _).
      eauto.
  - intros cap h0 k v Hcap.
    destruct (LRU_CACHE_new_spec cap h0) as (L & h & Hrun & Hrep).
    assert (at_capacity (Cache cap ∅ L) = true) as Hat.
    { unfold at_capacity. simpl. rewrite map_size_empty.
      by apply bool_decide_eq_true. }
    assert (remove_last L h = Some (nullptr, h)) as Hrl.
    { destruct Hrep as (hd & tl & EL & Hd & _). simpl in EL. subst L.
      by apply dll_remove_last_empty. }
    exists (Cache cap ∅ L), h. split; [done|]. split; [done|]. split; [done|].
    split; [done|]. by apply put_full_after.
Qed.

Lemma eviction_is_safe_witness :
  (1 ≤ 2 ≤ INT_MAX ∧
   ∃ rs c h,
     session 2 [Put 1 10; Put 2 20] ∅ = Some ((rs, c), h) ∧
     (cacheMap c !! 3 = None → at_capacity c = true →
      ∃ p h1 kp,
        remove_last (cacheList c) h = Some (Some p, h1) ∧
        is_Some (h1 !! p) ∧
        get_key (Some p) h1 = Some (kp, h1) ∧
        delete_node (Some p) h1 = Some (tt, delete p h1)) ∧
     is_Some (put 3 30 c h)) ∧
  (to_size_t 0 ≤ 0 ∧
   ∃ c h,
     LRU_CACHE_new 0 ∅ = Some (c, h) ∧
     cacheMap c !! 1 = None ∧ at_capacity c = true ∧
     remove_last (cacheList c) h = Some (nullptr, h) ∧
     put 1 10 c h = after_remove_last 1 10 c nullptr h).
Proof.
  split.
  - split; [unfold INT_MAX; lia|].
    apply (proj1 eviction_is_safe 2 [Put 1 10; Put 2 20] ∅ 3 30).
    unfold INT_MAX. lia.
  - split; [by vm_compute|].
    apply (proj2 eviction_is_safe 0 ∅ 1 10). by vm_compute.
Defined.

(** The eviction branch on the full cache of the examples, and on a
    cache just built with capacity 0, computed. *)
Example eviction_demo :
  (cacheMap demo_cache !! 3, at_capacity demo_cache,
   fst <$> remove_last (cacheList demo_cache) demo_heap) =
  (None, true, Some (Some 3%positive)) ∧
  match LRU_CACHE_new 0 ∅ with
  | Some (c, h) => Some (at_capacity c, fst <$> remove_last (cacheList c) h)
  | None => None
  end = Some (true, Some nullptr).
Proof. split; vm_compute; reflexivity. Qed.

(** C10 -- the miss indicator is in band.  In every state, [get] of a key
    that the index does not hold returns -1.  And in every state reached
    by calls on a freshly built cache of capacity from 1 up to [INT_MAX],
    [put(k, -1)] succeeds and leaves [k] in the index, and the [get(k)]
    that follows returns -1 as well: the same result as a miss. *)
Theorem miss_indicator_in_band :
  (∀ h c k, cacheMap c !! k = None → get k c h = Some (-1, h)) ∧
  (∀ cap ops h0 k,
     1 ≤ cap ≤ INT_MAX →
     ∃ rs c h c' h' h'',
       session cap ops h0 = Some ((rs, c), h) ∧
       put k (-1) c h = Some (c', h') ∧
       is_Some (cacheMap c' !! k) ∧
       get k c' h' = Some (-1, h'')).
Proof.
  split; [intros h c k; apply get_miss_spec|].
  intros cap ops h0 k Hcap.
  destruct (session_inv cap Hcap ops h0) as (rs & c & h & Hrun & Hinv).
  destruct (put_stores cap Hcap h c k (-1) Hinv)
    as (c' & h' & ls' & l & Hput & _ & Hrep' & El & Hv).
  destruct (cache_rep_find _ _ _ _ _ Hrep' El) as (l' & l1 & l2 & [= <-] & -> & Hk).
  destruct (get_hit_spec _ _ _ _ _ _ Hrep' El) as (v & h'' & Hget & Hv' & _).
  assert (v = -1) as -> by congruence.
  exists rs, c, h, c', h', h''. split; [done|]. split; [done|].
  split; [by rewrite El|done].
Qed.

Lemma miss_indicator_in_band_witness :
  (cacheMap demo_cache !! 3 = None ∧
   get 3 demo_cache demo_heap = Some (-1, demo_heap)) ∧
  (1 ≤ 2 ≤ INT_MAX ∧
   ∃ rs c h c' h' h'',
     session 2 [Put 1 10; Put 2 20] ∅ = Some ((rs, c), h) ∧
     put 7 (-1) c h = Some (c', h') ∧
     is_Some (cacheMap c' !! 7) ∧
     get 7 c' h' = Some (-1, h'')).
Proof.
  split.
  - split; [reflexivity|].
    apply (proj1 miss_indicator_in_band demo_heap demo_cache 3). reflexivity.
  - split; [unfold INT_MAX; lia|].
    apply (proj2 miss_indicator_in_band 2 [Put 1 10; Put 2 20] ∅ 7).
    unfold INT_MAX. lia.
Defined.

(** The two answers, computed: -1 for the stored value and for a miss. *)
Example miss_indicator_demo :
  match put 7 (-1) demo_cache demo_heap with
  | Some (c', h') => Some (fst <$> get 7 c' h', fst <$> get 8 c' h')
  | None => None
  end = Some (Some (-1), Some (-1)).
Proof. vm_compute. reflexivity. Qed.

(** * Further properties of the code *)

(** ** What the list operations read and write *)

Lemma bind_inv {A B} (m : M A) (k : A → M B) h b h'' :
  bind m k h = Some (b, h'') → ∃ a h', m h = Some (a, h') ∧ k a h' = Some (b, h'').
Proof.
  unfold bind. destruct (m h) as [[a h']|]; [|done]. intros E. by exists a, h'.
Qed.

Lemma load_inv p h n h' :
  load p h = Some (n, h') → ∃ l, p = Some l ∧ h !! l = Some n ∧ h' = h.
Proof.
  unfold load. destruct p as [l|]; [|done].
  destruct (h !! l) as [n0|] eqn:E; [|done]. intros [= <- <-]. by exists l.
Qed.

Lemma store_inv p f h u h' :
  store p f h = Some (u, h') → ∃ l, p = Some l ∧ is_Some (h !! l) ∧ h' = alter f l h.
Proof.
  destruct p as [l|]; [|done]. intros E.
  destruct (h !! l) as [n|] eqn:En; [|unfold store in E; by rewrite En in E].
  rewrite (store_some h l n f En) in E. injection E as <- <-.
  exists l. split; [done|]. split; [|done]. rewrite En. eauto.
Qed.

Lemma get_prev_inv p h q h' :
  get_prev p h = Some (q, h') → ∃ l, p = Some l ∧ hprev h l = Some q ∧ h' = h.
Proof.
  intros E. apply bind_inv in E as (n & h1 & E1 & E2).
  apply load_inv in E1 as (l & -> & En & ->). injection E2 as <- <-.
  exists l. split; [done|]. split; [|done]. unfold hprev. by rewrite En.
Qed.

Lemma get_next_inv p h q h' :
  get_next p h = Some (q, h') → ∃ l, p = Some l ∧ hnext h l = Some q ∧ h' = h.
Proof.
  intros E. apply bind_inv in E as (n & h1 & E1 & E2).
  apply load_inv in E1 as (l & -> & En & ->). injection E2 as <- <-.
  exists l. split; [done|]. split; [|done]. unfold hnext. by rewrite En.
Qed.

(** [remove_node] succeeds only on a cell with two allocated neighbours,
    and then writes [before->next] and [after->prev], nothing else. *)
Lemma remove_node_inv p h u h' :
  remove_node p h = Some (u, h') →
  ∃ l b a, p = Some l ∧ hprev h l = Some (Some b) ∧ hnext h l = Some (Some a) ∧
           is_Some (h !! b) ∧ is_Some (h !! a) ∧ h' = unlinked h b a.
Proof.
  intros E. apply bind_inv in E as (before & h1 & E1 & E).
  apply get_prev_inv in E1 as (l & -> & Hp & ->).
  apply bind_inv in E as (after & h1 & E1 & E).
  apply get_next_inv in E1 as (l' & [= <-] & Hn & ->).
  apply bind_inv in E as (u1 & h1 & E1 & E).
  apply store_inv in E1 as (b & -> & Hb & ->).
  apply store_inv in E as (a & -> & Ha & ->).
  exists l, b, a. split; [done|]. split; [done|]. split; [done|].
  split; [done|]. split; [|done]. by apply alter_is_Some in Ha.
Qed.

(** [add_first] needs a list with a head sentinel followed by a cell, and
    an allocated [temp]; it writes both links of [temp], [head->next] and
    [after_head->prev], nothing else. *)
Lemma add_first_inv L p h u h' :
  add_first L p h = Some (u, h') →
  ∃ hd l f, head L = Some hd ∧ p = Some l ∧ hnext h hd = Some (Some f) ∧
            is_Some (h !! l) ∧ h' = pushed h hd l f.
Proof.
  unfold add_first, set_prev, set_next.
  intros E. apply bind_inv in E as (after_head & h1 & E1 & E).
  apply get_next_inv in E1 as (hd & Ehd & Hn & ->). rewrite Ehd in E.
  apply bind_inv in E as (u1 & h1 & E1 & E).
  apply store_inv in E1 as (l & -> & Hl & ->).
  apply bind_inv in E as (u2 & h2 & E1 & E).
  apply store_inv in E1 as (l' & [= <-] & _ & ->).
  apply bind_inv in E as (u3 & h3 & E1 & E).
  apply store_inv in E1 as (hd' & [= <-] & _ & ->).
  apply store_inv in E as (f & -> & _ & ->).
  exists hd, l, f. done.
Qed.

Lemma unlinked_frame h b a x : x ≠ b → x ≠ a → unlinked h b a !! x = h !! x.
Proof. intros. unfold unlinked. by rewrite !lookup_alter_ne. Qed.

Lemma pushed_frame h hd p f x :
  x ≠ hd → x ≠ p → x ≠ f → pushed h hd p f !! x = h !! x.
Proof. intros. unfold pushed. by rewrite !lookup_alter_ne. Qed.

(** The neighbours of a cell of the list are cells of the list. *)
Lemma dll_neighbours h hd tl l1 p l2 :
  dll_rep h hd tl (l1 ++ p :: l2) →
  ∃ b a, hprev h p = Some (Some b) ∧ hnext h p = Some (Some a) ∧
         b ∈ hd :: l1 ∧ a ∈ l2 ++ [tl] ∧ b ≠ p ∧ a ≠ p.
Proof.
  intros [Hnd Hl].
  destruct (snoc_shape hd l1) as (c1 & b & E1).
  destruct (cons_shape l2 tl) as (a & c2 & E2).
  assert (hd :: (l1 ++ p :: l2) ++ [tl] = (hd :: l1) ++ p :: (l2 ++ [tl])) as E
    by (by rewrite <- app_assoc).
  rewrite E in Hnd, Hl.
  assert (b ∈ hd :: l1) as Hb by (rewrite E1; set_solver).
  assert (a ∈ l2 ++ [tl]) as Ha by (rewrite E2; left).
  apply NoDup_app in Hnd as (_ & Hdisj & Hnd). apply NoDup_cons in Hnd as [Hp _].
  rewrite E1, E2, <- app_assoc in Hl. cbn [app] in Hl.
  apply linked_app in Hl as [_ Hl]. rewrite !linked_cons in Hl.
  destruct Hl as ([_ Hpp] & [Hpn _] & _).
  exists b, a. split; [done|]. split; [done|]. split; [done|]. split; [done|].
  split.
  - intros ->. apply (Hdisj p Hb). left.
  - intros ->. by apply Hp.
Qed.

Lemma dll_first h hd tl ls :
  dll_rep h hd tl ls → ∃ f, hnext h hd = Some (Some f) ∧ f ∈ ls ++ [tl].
Proof.
  intros [_ Hl]. destruct (cons_shape ls tl) as (f & c & E). rewrite E in *.
  apply linked_cons in Hl as [[Hn _] _]. exists f. split; [done | left].
Qed.

Lemma with_next_same n q : next n = q → with_next q n = n.
Proof. destruct n. simpl. by intros ->. Qed.

Lemma with_prev_same n q : prev n = q → with_prev q n = n.
Proof. destruct n. simpl. by intros ->. Qed.

Lemma demo_dll_rep :
  dll_rep demo_heap 1%positive 2%positive [4%positive; 3%positive].
Proof.
  destruct demo_rep as (hd & tl & E & Hd & _). by injection E as <- <-.
Qed.

(** ** The list on its own *)

(** X1 -- the constructor of the list.  On every heap it succeeds: it
    takes two addresses that were not in use, different from each other,
    for the sentinels, which carry key and value -1 and are linked to each
    other with nothing between; every cell that was there is left as it
    was. *)
Theorem list_constructor_empty h :
  ∃ hd tl h',
    double_linked_list_new h = Some (DLL (Some hd) (Some tl), h') ∧
    hd ≠ tl ∧ h !! hd = None ∧ h !! tl = None ∧
    dll_rep h' hd tl [] ∧
    nodes_of h' (DLL (Some hd) (Some tl)) = Some [] ∧
    entry_of h' hd = Some (-1, -1) ∧ entry_of h' tl = Some (-1, -1) ∧
    hprev h' hd = Some nullptr ∧ hnext h' tl = Some nullptr ∧
    ∀ x, x ≠ hd → x ≠ tl → h' !! x = h !! x.
Proof.
  destruct (double_linked_list_new_spec h) as (h' & Hrun & Hd & Hfr).
  set (hd := fresh (dom h)) in *.
  set (tl := fresh (dom (<[hd := Node (-1) (-1) nullptr nullptr]> h))) in *.
  assert (hd ≠ tl) as Hne.
  { destruct Hd as [Hnd _]. apply NoDup_cons in Hnd as [Hnd _]. set_solver. }
  assert (h !! tl = None) as Htl.
  { pose proof (fresh_not_alloc (<[hd := Node (-1) (-1) nullptr nullptr]> h)) as F.
    fold tl in F. by rewrite lookup_insert_ne in F. }
  exists hd, tl, h'. split; [done|]. split; [done|].
  split; [apply fresh_not_alloc|]. split; [done|]. split; [done|].
  split; [apply list_rep_nodes_of; by exists hd, tl|].
  unfold double_linked_list_new, new_node, set_next, set_prev in Hrun.
  unfold bind at 1 in Hrun. fold hd in Hrun. unfold bind at 1 in Hrun. fold tl in Hrun.
  apply bind_inv in Hrun as (u1 & h1 & E1 & E).
  apply store_inv in E1 as (l1 & [= <-] & _ & ->).
  apply bind_inv in E as (u2 & h2 & E1 & E).
  apply store_inv in E1 as (l2 & [= <-] & _ & ->).
  unfold ret in E. injection E as <-.
  assert (∀ H : heap,
            alter (with_prev (Some hd)) tl (alter (with_next (Some tl)) hd H) !! hd
            = with_next (Some tl) <$> H !! hd) as Ehd.
  { intros H. by rewrite lookup_alter_ne, lookup_alter_eq. }
  assert (∀ H : heap,
            alter (with_prev (Some hd)) tl (alter (with_next (Some tl)) hd H) !! tl
            = with_prev (Some hd) <$> H !! tl) as Etl.
  { intros H. by rewrite lookup_alter_eq, lookup_alter_ne. }
  unfold entry_of, hprev, hnext. rewrite Ehd, Etl.
  rewrite lookup_insert_eq, lookup_insert_ne, lookup_insert_eq by done.
  repeat split; try done; intros x H1 H2; by apply Hfr.
Qed.

Lemma dll_remove_node_frame h hd tl l1 p l2 :
  dll_rep h hd tl (l1 ++ p :: l2) →
  ∃ h',
    remove_node (Some p) h = Some (tt, h') ∧
    dll_rep h' hd tl (l1 ++ l2) ∧
    h' !! p = h !! p ∧
    (∀ x, entry_of h' x = entry_of h x) ∧
    (∀ x, x ∉ chain_of hd tl (l1 ++ p :: l2) → h' !! x = h !! x).
Proof.
  intros Hd.
  destruct (dll_remove_node _ _ _ _ _ _ Hd) as (h' & Hrun & Hd' & Hsd & _).
  destruct (dll_neighbours _ _ _ _ _ _ Hd) as (b & a & Hp & Hn & Hb & Ha & Hbp & Hap).
  destruct (remove_node_inv _ _ _ _ Hrun) as (l & b' & a' & [= <-] & Hp' & Hn' & _ & _ & ->).
  assert (b' = b) as -> by congruence. assert (a' = a) as -> by congruence.
  exists (unlinked h b a). split; [done|]. split; [done|].
  split; [by apply unlinked_frame|]. split; [intros x; by apply same_data_entry|].
  intros x Hx. apply unlinked_frame; intros ->; apply Hx; unfold chain_of.
  - rewrite <- app_assoc. change (hd :: l1 ++ (p :: l2) ++ [tl])
      with ((hd :: l1) ++ (p :: l2) ++ [tl]). set_solver.
  - rewrite <- app_assoc. set_solver.
Qed.

(** X2 -- [remove_node] on a cell of a well-formed list.  The cell leaves
    the list and the others keep their order.  The cell itself is not
    written: it stays allocated, with its key, its value and its two
    links, which still point at its former neighbours.  Only cells of the
    list are written, and no key or value changes. *)
Theorem remove_node_unlinks h hd tl l1 p l2 :
  dll_rep h hd tl (l1 ++ p :: l2) →
  ∃ h',
    remove_node (Some p) h = Some (tt, h') ∧
    dll_rep h' hd tl (l1 ++ l2) ∧
    h' !! p = h !! p ∧
    (∀ x, entry_of h' x = entry_of h x) ∧
    (∀ x, x ∉ chain_of hd tl (l1 ++ p :: l2) → h' !! x = h !! x).
Proof. apply dll_remove_node_frame. Qed.

Lemma remove_node_unlinks_witness :
  dll_rep demo_heap 1%positive 2%positive ([4%positive] ++ 3%positive :: []) ∧
  ∃ h',
    remove_node (Some 3%positive) demo_heap = Some (tt, h') ∧
    dll_rep h' 1%positive 2%positive ([4%positive] ++ []) ∧
    h' !! 3%positive = demo_heap !! 3%positive ∧
    (∀ x, entry_of h' x = entry_of demo_heap x) ∧
    (∀ x, x ∉ chain_of 1%positive 2%positive ([4%positive] ++ 3%positive :: []) →
          h' !! x = demo_heap !! x).
Proof.
  split; [exact demo_dll_rep|].
  apply (remove_node_unlinks demo_heap 1%positive 2%positive
           [4%positive] 3%positive []).
  exact demo_dll_rep.
Defined.

Lemma dll_add_first_frame h hd tl ls p :
  dll_rep h hd tl ls → p ∉ chain_of hd tl ls → is_Some (h !! p) →
  ∃ h',
    add_first (DLL (Some hd) (Some tl)) (Some p) h = Some (tt, h') ∧
    dll_rep h' hd tl (p :: ls) ∧
    (∀ x, entry_of h' x = entry_of h x) ∧
    (∀ x, x ∉ chain_of hd tl (p :: ls) → h' !! x = h !! x).
Proof.
  intros Hd Hp Hsp.
  destruct (dll_add_first _ _ _ _ _ Hd Hp Hsp) as (h' & Hrun & Hd' & Hsd).
  destruct (dll_first _ _ _ _ Hd) as (f & Hf & Hfin).
  destruct (add_first_inv _ _ _ _ _ Hrun) as (hd' & l & f' & [= <-] & [= <-] & Hf' & _ & ->).
  assert (f' = f) as -> by congruence.
  exists (pushed h hd p f). split; [done|]. split; [done|].
  split; [intros x; by apply same_data_entry|].
  intros x Hx. apply pushed_frame; intros ->; apply Hx; unfold chain_of; set_solver.
Qed.

(** X3 -- [add_first] of an allocated cell that is not in the list.  The
    cell becomes the first of the list, before the cells that were there,
    whatever its links were; only it and cells of the list are written,
    and no key or value changes. *)
Theorem add_first_links h hd tl ls p :
  dll_rep h hd tl ls → p ∉ chain_of hd tl ls → is_Some (h !! p) →
  ∃ h',
    add_first (DLL (Some hd) (Some tl)) (Some p) h = Some (tt, h') ∧
    dll_rep h' hd tl (p :: ls) ∧
    (∀ x, entry_of h' x = entry_of h x) ∧
    (∀ x, x ∉ chain_of hd tl (p :: ls) → h' !! x = h !! x).
Proof. apply dll_add_first_frame. Qed.

(** X4 -- [remove_last] on an empty list returns [nullptr] and writes
    nothing. *)
Theorem remove_last_empty h hd tl :
  dll_rep h hd tl [] →
  remove_last (DLL (Some hd) (Some tl)) h = Some (nullptr, h).
Proof. apply dll_remove_last_empty. Qed.

Lemma dll_remove_last_frame h hd tl l p :
  dll_rep h hd tl (l ++ [p]) →
  ∃ h',
    remove_last (DLL (Some hd) (Some tl)) h = Some (Some p, h') ∧
    dll_rep h' hd tl l ∧
    h' !! p = h !! p ∧
    (∀ x, entry_of h' x = entry_of h x) ∧
    (∀ x, x ∉ chain_of hd tl (l ++ [p]) → h' !! x = h !! x).
Proof.
  intros Hd.
  destruct (dll_remove_last _ _ _ _ _ Hd) as (h' & Hrun & Hd' & Hsd & _).
  destruct (dll_remove_node_frame h hd tl l p [] Hd) as (h1 & Hrm & _ & Hp & _ & Hfr).
  assert (h' = h1) as ->.
  { unfold remove_last in Hrun. apply bind_inv in Hrun as (first & h0 & E1 & E).
    apply get_next_inv in E1 as (? & _ & _ & ->). case_decide; [done|].
    apply bind_inv in E as (last & h0 & E1 & E).
    apply get_prev_inv in E1 as (? & _ & _ & ->).
    apply bind_inv in E as (u & h2 & E1 & E). injection E as -> ->.
    destruct u. congruence. }
  exists h1. split; [done|]. split; [done|]. split; [done|].
  split; [intros x; by apply same_data_entry|done].
Qed.

(** X5 -- [remove_last] on a list that is not empty returns its last
    cell, the least recently used, and unlinks it: the others keep their
    order.  The cell is not freed and not written (freeing it is left to
    the caller); only cells of the list are written. *)
Theorem remove_last_returns_tail h hd tl l p :
  dll_rep h hd tl (l ++ [p]) →
  ∃ h',
    remove_last (DLL (Some hd) (Some tl)) h = Some (Some p, h') ∧
    dll_rep h' hd tl l ∧
    h' !! p = h !! p ∧
    (∀ x, entry_of h' x = entry_of h x) ∧
    (∀ x, x ∉ chain_of hd tl (l ++ [p]) → h' !! x = h !! x).
Proof. apply dll_remove_last_frame. Qed.

Lemma demo_empty_dll_rep : dll_rep demo_heap_empty 1%positive 2%positive [].
Proof.
  split.
  - apply NoDup_cons. split; [set_solver|]. apply NoDup_singleton.
  - by vm_compute.
Qed.

Lemma demo_new_dll_rep :
  dll_rep demo_heap_new 1%positive 2%positive [4%positive; 3%positive].
Proof.
  destruct demo_dll_rep as [Hnd Hl]. split; [done|].
  apply (linked_frame demo_heap); [| |done]; intros x Hx;
    unfold hnext, hprev, demo_heap_new; rewrite lookup_insert_ne; set_solver.
Qed.

Lemma add_first_links_witness :
  dll_rep demo_heap_new 1%positive 2%positive [4%positive; 3%positive] ∧
  (5%positive ∉ chain_of 1%positive 2%positive [4%positive; 3%positive]) ∧
  is_Some (demo_heap_new !! 5%positive) ∧
  ∃ h',
    add_first (DLL (Some 1%positive) (Some 2%positive)) (Some 5%positive)
      demo_heap_new = Some (tt, h') ∧
    dll_rep h' 1%positive 2%positive (5%positive :: [4%positive; 3%positive]) ∧
    (∀ x, entry_of h' x = entry_of demo_heap_new x) ∧
    (∀ x, x ∉ chain_of 1%positive 2%positive (5%positive :: [4%positive; 3%positive]) →
          h' !! x = demo_heap_new !! x).
Proof.
  assert (5%positive ∉ chain_of 1%positive 2%positive [4%positive; 3%positive]) as Hp
    by (unfold chain_of; set_solver).
  assert (is_Some (demo_heap_new !! 5%positive)) as Hs by (by vm_compute; eauto).
  split; [exact demo_new_dll_rep|]. split; [exact Hp|]. split; [exact Hs|].
  exact (add_first_links demo_heap_new 1%positive 2%positive
           [4%positive; 3%positive] 5%positive demo_new_dll_rep Hp Hs).
Defined.

Lemma remove_last_empty_witness :
  dll_rep demo_heap_empty 1%positive 2%positive [] ∧
  remove_last (DLL (Some 1%positive) (Some 2%positive)) demo_heap_empty
  = Some (nullptr, demo_heap_empty).
Proof.
  split; [exact demo_empty_dll_rep|].
  exact (remove_last_empty demo_heap_empty 1%positive 2%positive demo_empty_dll_rep).
Defined.

Lemma remove_last_returns_tail_witness :
  dll_rep demo_heap 1%positive 2%positive ([4%positive] ++ [3%positive]) ∧
  ∃ h',
    remove_last (DLL (Some 1%positive) (Some 2%positive)) demo_heap
    = Some (Some 3%positive, h') ∧
    dll_rep h' 1%positive 2%positive [4%positive] ∧
    h' !! 3%positive = demo_heap !! 3%positive ∧
    (∀ x, entry_of h' x = entry_of demo_heap x) ∧
    (∀ x, x ∉ chain_of 1%positive 2%positive ([4%positive] ++ [3%positive]) →
          h' !! x = demo_heap !! x).
Proof.
  split; [exact demo_dll_rep|].
  exact (remove_last_returns_tail demo_heap 1%positive 2%positive
           [4%positive] 3%positive demo_dll_rep).
Defined.

Lemma dll_move_to_front_first h hd tl p ls :
  dll_rep h hd tl (p :: ls) →
  move_to_front (DLL (Some hd) (Some tl)) (Some p) h = Some (tt, h).
Proof.
  intros Hd.
  destruct (dll_move_to_front h hd tl [] p ls Hd) as (h' & Hrun & _).
  rewrite Hrun. do 2 f_equal.
  destruct (dll_neighbours h hd tl [] p ls Hd)
    as (b & a & Hp & Hn & Hb & Ha & Hbp & Hap).
  apply list_elem_of_singleton in Hb as ->.
  destruct (dll_first _ _ _ _ Hd) as (f & Hf & _).
  assert (f = p) as ->.
  { destruct Hd as [_ Hl]. cbn [app] in Hl. apply linked_cons in Hl as [[Hl _] _].
    congruence. }
  apply bind_inv in Hrun as (u & h1 & E1 & E2).
  apply remove_node_inv in E1 as (l & b' & a' & [= <-] & Hp' & Hn' & _ & _ & ->).
  assert (b' = hd) as -> by congruence. assert (a' = a) as -> by congruence.
  apply add_first_inv in E2 as (hd' & l & f' & [= <-] & [= <-] & Hf' & _ & ->).
  assert (f' = a) as ->.
  { unfold unlinked in Hf'. rewrite hnext_alter_prev, hnext_alter_next in Hf'.
    rewrite decide_True in Hf' by done.
    destruct (hnext_is_Some _ _ _ Hf) as [n En]. rewrite En in Hf'.
    simpl in Hf'. congruence. }
  assert (hd ≠ a) as Hha.
  { destruct Hd as [Hnd _]. apply NoDup_cons in Hnd as [Hnd _]. set_solver. }
  apply map_eq. intros x. unfold pushed, unlinked, hprev, hnext in *.
  destruct (decide (x = a)) as [->|Hxa];
    [|destruct (decide (x = hd)) as [->|Hxh];
      [|destruct (decide (x = p)) as [->|Hxp]]].
  - rewrite lookup_alter_eq, !lookup_alter_ne, lookup_alter_eq, lookup_alter_ne by done.
    destruct (h !! a) as [n|] eqn:En; [|done]. simpl.
    f_equal. destruct n as [k v pr nx]. unfold with_prev. simpl.
    destruct Hd as [_ Hl]. cbn [app] in Hl. apply linked_cons in Hl as [_ Hl].
    destruct (cons_shape ls tl) as (a0 & c & E). rewrite E in Hl.
    apply linked_cons in Hl as [[Hl1 Hl2] _].
    unfold hnext, hprev in Hl1, Hl2.
    assert (a0 = a) as -> by (destruct (h !! p); simpl in *; congruence).
    rewrite En in Hl2. simpl in Hl2. congruence.
  - rewrite lookup_alter_ne, lookup_alter_eq, !lookup_alter_ne, lookup_alter_eq by done.
    destruct (h !! hd) as [n|] eqn:En; [|done]. simpl in *.
    f_equal. destruct n. unfold with_next. simpl in *. congruence.
  - rewrite lookup_alter_ne, lookup_alter_ne, !lookup_alter_eq, !lookup_alter_ne by done.
    destruct (h !! p) as [n|] eqn:En; [|done]. simpl in *.
    f_equal. destruct n. unfold with_next, with_prev. simpl in *. congruence.
  - by rewrite !lookup_alter_ne.
Qed.

(** X6 -- [move_to_front] of the cell that is already first: it succeeds
    and the heap it leaves is the heap it found. *)
Theorem move_to_front_of_first h hd tl p ls :
  dll_rep h hd tl (p :: ls) →
  move_to_front (DLL (Some hd) (Some tl)) (Some p) h = Some (tt, h).
Proof. apply dll_move_to_front_first. Qed.

Lemma move_to_front_of_first_witness :
  dll_rep demo_heap 1%positive 2%positive (4%positive :: [3%positive]) ∧
  move_to_front (DLL (Some 1%positive) (Some 2%positive)) (Some 4%positive)
    demo_heap = Some (tt, demo_heap).
Proof.
  split; [exact demo_dll_rep|].
  exact (move_to_front_of_first demo_heap 1%positive 2%positive 4%positive
           [3%positive] demo_dll_rep).
Defined.

(** X7 -- [add_first] and then [remove_node] of the same cell.  Both
    succeed, the list is the one before the two calls, and so is every
    other cell of the heap; the cell keeps its key and value. *)
Theorem add_first_then_remove_node h hd tl ls p :
  dll_rep h hd tl ls → p ∉ chain_of hd tl ls → is_Some (h !! p) →
  ∃ h1 h2,
    add_first (DLL (Some hd) (Some tl)) (Some p) h = Some (tt, h1) ∧
    remove_node (Some p) h1 = Some (tt, h2) ∧
    dll_rep h2 hd tl ls ∧
    (∀ x, x ≠ p → h2 !! x = h !! x) ∧
    entry_of h2 p = entry_of h p.
Proof.
  intros Hd Hp Hsp.
  destruct (dll_add_first_frame _ _ _ _ _ Hd Hp Hsp) as (h1 & Hadd & Hd1 & He1 & _).
  destruct (dll_remove_node_frame h1 hd tl [] p ls Hd1)
    as (h2 & Hrm & Hd2 & _ & He2 & _).
  exists h1, h2. split; [done|]. split; [done|]. split; [done|].
  split; [|by rewrite He2, He1].
  destruct (dll_first _ _ _ _ Hd) as (f & Hf & Hfin).
  apply add_first_inv in Hadd as (hd' & l & f' & [= <-] & [= <-] & Hf' & _ & ->).
  assert (f' = f) as -> by congruence.
  destruct (dll_neighbours _ hd tl [] p ls Hd1) as (b & a & Hb & Ha & Hbin & _).
  apply list_elem_of_singleton in Hbin as ->.
  apply remove_node_inv in Hrm as (l & b' & a' & [= <-] & Hb' & Ha' & _ & _ & ->).
  assert (b' = hd) as -> by congruence.
  assert (a' = f) as ->.
  { unfold pushed in Ha'.
    rewrite hnext_alter_prev, hnext_alter_next, decide_False in Ha'
      by (intros ->; apply Hp; left).
    rewrite hnext_alter_next, decide_True in Ha' by done.
    destruct (proj2 (alter_is_Some (with_prev (Some hd)) h p p) Hsp) as [n En].
    rewrite En in Ha'. simpl in Ha'. congruence. }
  assert (hd ≠ f) as Hhf.
  { destruct Hd as [Hnd _]. apply NoDup_cons in Hnd as [Hnd _]. set_solver. }
  assert (f ≠ p) as Hfp by (intros ->; apply Hp; unfold chain_of; set_solver).
  assert (hd ≠ p) as Hhp by (intros ->; apply Hp; left).
  assert (hprev h f = Some (Some hd)) as Hpf.
  { destruct Hd as [_ Hl]. destruct (cons_shape ls tl) as (f0 & c & E). rewrite E in Hl.
    apply linked_cons in Hl as [[Hl1 Hl2] _]. congruence. }
  intros x Hx. unfold unlinked, pushed, hprev, hnext in *.
  destruct (decide (x = f)) as [->|Hxf]; [|destruct (decide (x = hd)) as [->|Hxh]].
  - rewrite lookup_alter_eq, lookup_alter_ne, lookup_alter_eq, !lookup_alter_ne by done.
    destruct (h !! f) as [n|]; [|done]. simpl in *.
    f_equal. destruct n. unfold with_prev. simpl in *. congruence.
  - rewrite lookup_alter_ne, lookup_alter_eq, lookup_alter_ne, lookup_alter_eq,
      !lookup_alter_ne by done.
    destruct (h !! hd) as [n|]; [|done]. simpl in *.
    f_equal. destruct n. unfold with_next. simpl in *. congruence.
  - by rewrite !lookup_alter_ne.
Qed.

Lemma add_first_then_remove_node_witness :
  dll_rep demo_heap_new 1%positive 2%positive [4%positive; 3%positive] ∧
  (5%positive ∉ chain_of 1%positive 2%positive [4%positive; 3%positive]) ∧
  is_Some (demo_heap_new !! 5%positive) ∧
  ∃ h1 h2,
    add_first (DLL (Some 1%positive) (Some 2%positive)) (Some 5%positive)
      demo_heap_new = Some (tt, h1) ∧
    remove_node (Some 5%positive) h1 = Some (tt, h2) ∧
    dll_rep h2 1%positive 2%positive [4%positive; 3%positive] ∧
    (∀ x, x ≠ 5%positive → h2 !! x = demo_heap_new !! x) ∧
    entry_of h2 5%positive = entry_of demo_heap_new 5%positive.
Proof.
  assert (5%positive ∉ chain_of 1%positive 2%positive [4%positive; 3%positive]) as Hp
    by (unfold chain_of; set_solver).
  assert (is_Some (demo_heap_new !! 5%positive)) as Hs by (by vm_compute; eauto).
  split; [exact demo_new_dll_rep|]. split; [exact Hp|]. split; [exact Hs|].
  exact (add_first_then_remove_node demo_heap_new 1%positive 2%positive
           [4%positive; 3%positive] 5%positive demo_new_dll_rep Hp Hs).
Defined.

(** X8 -- a cell that was never linked cannot be unlinked.  [remove_node]
    and [move_to_front] on a cell fresh from [new node(k, v)], whose links
    are null, fault, as they do on [nullptr]. *)
Theorem remove_node_of_unlinked_faults h k v L :
  (let! p := new_node k v in remove_node p) h = None ∧
  (let! p := new_node k v in move_to_front L p) h = None ∧
  remove_node nullptr h = None ∧
  move_to_front L nullptr h = None.
Proof.
  assert (∀ p h1, new_node k v h = Some (p, h1) → remove_node p h1 = None) as Hrm.
  { intros p h1 [= <- <-].
    destruct (remove_node (Some (fresh (dom h))) _) as [[[] h2]|] eqn:E; [|done].
    apply remove_node_inv in E as (l & b & a & [= <-] & Hb & _).
    unfold hprev in Hb. by rewrite lookup_insert_eq in Hb. }
  repeat split.
  - unfold bind at 1. destruct (new_node k v h) as [[p h1]|] eqn:E; [|done].
    by apply Hrm.
  - unfold bind at 1. destruct (new_node k v h) as [[p h1]|] eqn:E; [|done].
    unfold move_to_front, bind. by rewrite (Hrm p h1).
Qed.

(** ** The list model *)

Lemma assoc_None k (es : list (Z * Z)) : k ∉ es.*1 → assoc k es = None.
Proof.
  induction es as [|[k' v] es IH]; [done|]. rewrite fmap_cons. cbn [fst assoc].
  intros Hk. rewrite decide_False by set_solver. apply IH. set_solver.
Qed.

Lemma assoc_app_Some k v (es1 es2 : list (Z * Z)) :
  k ∉ es1.*1 → assoc k (es1 ++ (k, v) :: es2) = Some v.
Proof.
  induction es1 as [|[k' v'] es1 IH]; cbn [app assoc].
  - intros _. by rewrite decide_True.
  - rewrite fmap_cons. cbn [fst]. intros Hk.
    rewrite decide_False by set_solver. apply IH. set_solver.
Qed.

Lemma without_notin k (es : list (Z * Z)) : k ∉ es.*1 → without k es = es.
Proof.
  unfold without. induction es as [|[k' v] es IH]; [done|].
  rewrite fmap_cons. cbn [fst]. intros Hk.
  rewrite filter_cons_True by (simpl; set_solver). f_equal. apply IH. set_solver.
Qed.

Lemma without_mid k v (es1 es2 : list (Z * Z)) :
  k ∉ es1.*1 → k ∉ es2.*1 → without k (es1 ++ (k, v) :: es2) = es1 ++ es2.
Proof.
  intros H1 H2. unfold without. rewrite filter_app, filter_cons_False by (simpl; tauto).
  fold (without k es1). fold (without k es2). by rewrite !without_notin.
Qed.

(** On entries without a repeated key, [lru_step] is [model_step]. *)
Lemma lru_step_model ecap o es r es' :
  lru_step ecap o es r es' → NoDup es.*1 → model_step ecap o es = (r, es').
Proof.
  assert (∀ (k v : Z) (es1 es2 : list (Z * Z)),
            NoDup (es1 ++ (k, v) :: es2).*1 → (k ∉ es1.*1) ∧ (k ∉ es2.*1)) as Hsplit.
  { intros k v es1 es2. rewrite fmap_app, fmap_cons. cbn [fst]. intros Hnd.
    apply NoDup_app in Hnd as (_ & Hd & Hnd). apply NoDup_cons in Hnd as [Hk _].
    split; [|done]. intros Hin. apply (Hd k Hin). left. }
  intros Hstep Hnd. inversion Hstep; subst; cbn [model_step].
  - by rewrite assoc_None.
  - destruct (Hsplit _ _ _ _ Hnd) as [H1 H2].
    by rewrite assoc_app_Some, without_mid.
  - destruct (Hsplit _ _ _ _ Hnd) as [H1 H2].
    by rewrite assoc_app_Some, without_mid.
  - rewrite assoc_None by done. by rewrite bool_decide_eq_false_2 by lia.
  - rewrite assoc_None by done. rewrite bool_decide_eq_true_2 by lia.
    by rewrite removelast_last.
Qed.

(** ** A cache that evicts at [ecap] entries, for any [ecap] from 1 up *)

Lemma at_capacity_at ecap h c ls :
  to_size_t (capacity c) = ecap → cache_rep h c ls →
  at_capacity c = bool_decide (ecap ≤ Z.of_nat (length ls)).
Proof.
  intros <- Hrep. unfold at_capacity. by rewrite (cache_rep_size _ _ _ Hrep).
Qed.

Section effective.
Context (ecap : Z) (Hecap : 1 ≤ ecap).

Lemma put_refines_at h c ls es k v :
  to_size_t (capacity c) = ecap →
  cache_rep h c ls → Z.of_nat (length ls) ≤ ecap → cells h ls es →
  ∃ c' h' ls' es',
    put k v c h = Some (c', h') ∧ capacity c' = capacity c ∧
    cache_rep h' c' ls' ∧ Z.of_nat (length ls') ≤ ecap ∧ cells h' ls' es' ∧
    lru_step ecap (Put k v) es None es'.
Proof.
  intros Ecap Hrep Hlen Hc.
  destruct (cacheMap c !! k) as [p|] eqn:E.
  - destruct (cache_rep_find _ _ _ _ _ Hrep E) as (l & l1 & l2 & -> & -> & Hk).
    destruct (put_hit_spec _ _ _ _ _ _ v Hrep E)
      as (h' & Hrun & Hrep' & Hk' & Hvl & Hv').
    destruct (cells_split _ _ _ _ _ Hc) as (es1 & [k0 v0] & es2 & -> & Hc1 & He & Hc2).
    apply entry_of_Some in He as [Hk0 Hv0].
    assert (k0 = k) as -> by congruence.
    pose proof (cache_rep_NoDup _ _ _ Hrep) as Hnd.
    apply NoDup_app in Hnd as (_ & Hn1 & Hnd). apply NoDup_cons in Hnd as [Hn2 _].
    exists c, h', (l :: l1 ++ l2), ((k, v) :: es1 ++ es2).
    split; [done|]. split; [done|]. split; [done|]. split; [|split; [|constructor]].
    + revert Hlen. simpl. rewrite !length_app. simpl. lia.
    + constructor.
      * apply entry_of_Some. by rewrite Hk'.
      * apply cells_app.
        -- apply (cells_ext h); [|done]. intros x Hx. split; [done|].
           apply Hv'. intros ->. specialize (Hn1 l Hx). set_solver.
        -- apply (cells_ext h); [|done]. intros x Hx. split; [done|].
           apply Hv'. by intros ->.
  - assert (k ∉ es.*1) as Hnk.
    { rewrite <- (cache_rep_lookup_cells _ _ _ _ k Hrep Hc), E. by intros [? ?]. }
    pose proof (at_capacity_at ecap h c ls Ecap Hrep) as Hat.
    case_bool_decide as Hfull.
    + destruct ls as [|a ls0]; [simpl in Hfull; lia|].
      destruct (snoc_shape a ls0) as (ls' & q & Els). rewrite Els in *.
      destruct (put_full_spec _ _ _ _ k v Hrep E Hat)
        as (kp & h1 & l & h' & Hkp & _ & Hrep1 & El & Hrun & Hrep' & Hkl & Hvl & Hfr).
      destruct (cells_split _ _ _ _ _ Hc) as (es1 & e & es2 & -> & Hc1 & He & Hc2).
      apply Forall2_nil_inv_l in Hc2 as ->.
      eexists _, h', (l :: ls'), ((k, v) :: es1).
      split; [exact Hrun|]. split; [done|]. split; [done|].
      split; [|split].
      * revert Hlen. simpl. rewrite length_app. simpl. lia.
      * constructor; [by apply entry_of_Some|].
        by apply (cells_ext h).
      * constructor; [done|].
        rewrite (cells_length _ _ _ Hc). lia.
    + destruct (put_room_spec _ _ _ k v Hrep E Hat)
        as (h' & Hrun & Hrep' & Hkl & Hvl & Hfr).
      eexists _, h', (fresh (dom h) :: ls), ((k, v) :: es).
      split; [exact Hrun|]. split; [done|]. split; [done|].
      split; [|split].
      * simpl. lia.
      * constructor; [by apply entry_of_Some|].
        apply (cells_ext h); [|done]. intros x Hx. apply Hfr.
        intros ->. destruct (cache_rep_alloc _ _ _ _ Hrep Hx) as [? Hs].
        by rewrite fresh_not_alloc in Hs.
      * constructor; [done|].
        rewrite (cells_length _ _ _ Hc). lia.
Qed.

Lemma cache_inv_at_entries h c :
  cache_inv_at ecap h c →
  ∃ ls es, cache_rep h c ls ∧ cells h ls es ∧ entries h c = Some es ∧
           Z.of_nat (length ls) ≤ ecap.
Proof.
  intros (_ & ls & Hrep & Hlen).
  destruct (cache_rep_has_cells _ _ _ Hrep) as [es Hc].
  exists ls, es. split; [done|]. split; [done|].
  split; [by apply (cache_rep_cells h c ls)|done].
Qed.

Lemma step_refines_at h c o es :
  cache_inv_at ecap h c → entries h c = Some es →
  ∃ r c' h' es',
    step o c h = Some ((r, c'), h') ∧ cache_inv_at ecap h' c' ∧
    entries h' c' = Some es' ∧ lru_step ecap o es r es' ∧ NoDup es.*1.
Proof.
  intros (Ecap & ls & Hrep & Hlen) Hes.
  apply (cache_rep_cells _ _ _ _ Hrep) in Hes.
  pose proof (cache_rep_cells_NoDup _ _ _ _ Hrep Hes) as Hnd.
  destruct o as [k|k v].
  - destruct (get_refines ecap _ _ _ _ k Hrep Hes)
      as (r & h' & ls' & es' & Hrun & Hrep' & Hc' & Hlen' & Hstep).
    exists (Some r), c, h', es'. split; [|split; [|split; [|done]]].
    + unfold step. by exec Hrun.
    + split; [done|]. exists ls'. split; [done|]. lia.
    + by apply (cache_rep_cells _ _ ls').
  - destruct (put_refines_at _ _ _ _ k v Ecap Hrep Hlen Hes)
      as (c' & h' & ls' & es' & Hrun & Ecap' & Hrep' & Hlen' & Hc' & Hstep).
    exists None, c', h', es'. split; [|split; [|split; [|done]]].
    + unfold step. by exec Hrun.
    + split; [by rewrite Ecap'|]. by exists ls'.
    + by apply (cache_rep_cells _ _ ls').
Qed.

Lemma run_model ops : ∀ h c es,
  cache_inv_at ecap h c → entries h c = Some es →
  ∃ rs c' h' es',
    run ops c h = Some ((rs, c'), h') ∧ cache_inv_at ecap h' c' ∧
    entries h' c' = Some es' ∧ model_run ecap ops es = (rs, es').
Proof.
  induction ops as [|o ops IH]; intros h c es Hinv Hes.
  - by exists [], c, h, es.
  - destruct (step_refines_at h c o es Hinv Hes)
      as (r & c1 & h1 & es1 & Hstep & Hinv1 & Hes1 & Hlru & Hnd).
    destruct (IH h1 c1 es1 Hinv1 Hes1) as (rs & c' & h' & es' & Hrun & Hinv' & Hes' & Hm).
    exists (from_option (λ z, [z]) [] r ++ rs), c', h', es'.
    split; [|split; [done|split; [done|]]].
    + cbn [run]. exec Hstep. cbn beta iota. by exec Hrun.
    + cbn [model_run]. by rewrite (lru_step_model _ _ _ _ _ Hlru Hnd), Hm.
Qed.

End effective.

Lemma new_inv_at cap h0 :
  ∃ c h, LRU_CACHE_new cap h0 = Some (c, h) ∧ cache_inv_at (to_size_t cap) h c ∧
         entries h c = Some [].
Proof.
  destruct (LRU_CACHE_new_spec cap h0) as (L & h & Hrun & Hrep).
  exists (Cache cap ∅ L), h. split; [done|]. split.
  - split; [done|]. exists []. split; [done|]. simpl.
    unfold to_size_t, SIZE_WIDTH. apply Z.mod_pos_bound. lia.
  - by rewrite (cache_rep_entries _ _ _ Hrep).
Qed.

Lemma session_model cap ops h0 :
  1 ≤ to_size_t cap →
  ∃ rs c h es,
    session cap ops h0 = Some ((rs, c), h) ∧
    cache_inv_at (to_size_t cap) h c ∧
    entries h c = Some es ∧
    model_run (to_size_t cap) ops [] = (rs, es).
Proof.
  intros Hcap. destruct (new_inv_at cap h0) as (c0 & h1 & Hnew & Hinv & Hes).
  destruct (run_model _ Hcap ops h1 c0 [] Hinv Hes)
    as (rs & c & h & es & Hrun & Hinv' & Hes' & Hm).
  exists rs, c, h, es. split; [|done]. unfold session. by exec Hnew.
Qed.

(** ** The cache against the list model *)

(** X9 -- the cache is the list model.  For every capacity that converts
    to a [size_t] of at least 1 (every [int] but 0), every sequence of
    calls on a freshly built cache succeeds, the [get]s return what the
    list model returns, and the entries left, read along the list, are
    those the model is left with; the model evicts at [to_size_t cap]
    entries.  The index holds as many keys as there are entries. *)
Theorem session_refines_model cap ops h0 :
  1 ≤ to_size_t cap →
  ∃ rs c h es,
    session cap ops h0 = Some ((rs, c), h) ∧
    entries h c = Some es ∧
    model_run (to_size_t cap) ops [] = (rs, es) ∧
    size (cacheMap c) = length es ∧
    Z.of_nat (length es) ≤ to_size_t cap.
Proof.
  intros Hcap.
  destruct (session_model cap ops h0 Hcap) as (rs & c & h & es & Hrun & Hinv & Hes & Hm).
  exists rs, c, h, es. split; [done|]. split; [done|]. split; [done|].
  destruct Hinv as (_ & ls & Hrep & Hlen).
  pose proof (proj1 (cache_rep_cells _ _ _ _ Hrep) Hes) as Hc.
  rewrite (cache_rep_size _ _ _ Hrep), (cells_length _ _ _ Hc). split; [done | lia].
Qed.

Lemma session_refines_model_witness :
  1 ≤ to_size_t 2 ∧
  ∃ rs c h es,
    session 2 main_ops ∅ = Some ((rs, c), h) ∧
    entries h c = Some es ∧
    model_run (to_size_t 2) main_ops [] = (rs, es) ∧
    size (cacheMap c) = length es ∧
    Z.of_nat (length es) ≤ to_size_t 2.
Proof.
  assert (1 ≤ to_size_t 2) as H by (by vm_compute).
  split; [exact H|]. exact (session_refines_model 2 main_ops ∅ H).
Defined.

(** The list model on the calls of [main]. *)
Example model_run_main :
  model_run 2 main_ops [] = ([10; -1; -1; 30; 40], [(4, 40); (3, 30)]).
Proof. vm_compute. reflexivity. Qed.

(** ** Capacities from 0 down *)

Lemma model_step_keeps ecap o (es : list (Z * Z)) :
  Z.of_nat (length es) < ecap →
  (∀ k, k ∈ es.*1 → k ∈ (model_step ecap o es).2.*1) ∧
  (length (model_step ecap o es).2 ≤ S (length es))%nat ∧
  (∀ k v, o = Put k v → k ∈ (model_step ecap o es).2.*1).
Proof.
  intros Hlen.
  assert (∀ (k v : Z) k', k' ∈ es.*1 → k' ∈ ((k, v) :: without k es).*1) as Hw.
  { intros k v k' Hin. rewrite fmap_cons. cbn [fst].
    destruct (decide (k' = k)) as [->|Hne]; [left|right].
    apply list_elem_of_fmap in Hin as ([k0 v0] & -> & Hin).
    apply list_elem_of_fmap. exists (k0, v0). split; [done|].
    apply list_elem_of_filter. done. }
  assert (∀ (k v : Z), (length ((k, v) :: without k es) ≤ S (length es))%nat) as Hl.
  { intros k v. simpl. pose proof (length_filter (λ e : Z * Z, e.1 ≠ k) es).
    unfold without. lia. }
  destruct o as [k|k v]; cbn [model_step].
  - destruct (assoc k es) as [v|]; cbn [snd].
    + split; [by apply Hw|]. split; [apply Hl | done].
    + split; [done|]. split; [lia | done].
  - destruct (assoc k es) as [v0|]; cbn [snd].
    + split; [by apply Hw|]. split; [apply Hl|].
      intros k' v' [= <- <-]. rewrite fmap_cons. left.
    + rewrite bool_decide_eq_false_2 by lia.
      split; [|split; [simpl; lia|]].
      * intros k' Hin. rewrite fmap_cons. by right.
      * intros k' v' [= <- <-]. rewrite fmap_cons. left.
Qed.

(** A model that is far enough from full loses no key. *)
Lemma model_run_keeps ecap ops : ∀ (es : list (Z * Z)) k,
  Z.of_nat (length es) + Z.of_nat (length ops) ≤ ecap →
  k ∈ es.*1 ∨ (∃ v, Put k v ∈ ops) → k ∈ (model_run ecap ops es).2.*1.
Proof.
  induction ops as [|o ops IH]; intros es k Hlen Hk.
  - destruct Hk as [Hk|[v Hv]]; [done|by apply elem_of_nil in Hv].
  - cbn [length] in Hlen.
    destruct (model_step_keeps ecap o es) as (Hkeep & Hl & Hput); [lia|].
    cbn [model_run]. destruct (model_step ecap o es) as [r es1] eqn:E1.
    cbn [snd] in *.
    specialize (IH es1 k). destruct (model_run ecap ops es1) as [rs es2] eqn:E2.
    cbn [snd] in *. apply IH; [lia|].
    destruct Hk as [Hk|[v Hv]]; [left; by apply Hkeep|].
    apply elem_of_cons in Hv as [<-|Hv]; [left; by apply (Hput k v)|].
    right. eauto.
Qed.

(** X10 -- a negative capacity.  The comparison with the size is made in
    [size_t], where a negative [int] is at least [2^63]: the cache built
    with it acts as the list model that evicts at [2^64 + cap] entries,
    and in a sequence of fewer than [2^63] calls it evicts nothing, so
    every key that was [put] is among the entries at the end. *)
Theorem negative_capacity_never_evicts cap ops h0 :
  INT_MIN ≤ cap < 0 → Z.of_nat (length ops) < 2 ^ 63 →
  ∃ rs c h es,
    session cap ops h0 = Some ((rs, c), h) ∧
    entries h c = Some es ∧
    model_run (2 ^ 64 + cap) ops [] = (rs, es) ∧
    ∀ k v, Put k v ∈ ops → k ∈ es.*1.
Proof.
  unfold INT_MIN. intros Hcap Hlen.
  assert (to_size_t cap = 2 ^ 64 + cap) as Ecap.
  { unfold to_size_t, SIZE_WIDTH. symmetry. apply (Z.mod_unique _ _ (-1)); lia. }
  destruct (session_model cap ops h0) as (rs & c & h & es & Hrun & _ & Hes & Hm); [lia|].
  rewrite Ecap in Hm.
  exists rs, c, h, es. split; [done|]. split; [done|]. split; [done|].
  intros k v Hin.
  pose proof (model_run_keeps (2 ^ 64 + cap) ops [] k) as Hk.
  rewrite Hm in Hk. apply Hk; [simpl; lia|]. right. eauto.
Qed.

Lemma negative_capacity_never_evicts_witness :
  INT_MIN ≤ -1 < 0 ∧ Z.of_nat (length main_ops) < 2 ^ 63 ∧
  ∃ rs c h es,
    session (-1) main_ops ∅ = Some ((rs, c), h) ∧
    entries h c = Some es ∧
    model_run (2 ^ 64 + -1) main_ops [] = (rs, es) ∧
    ∀ k v, Put k v ∈ main_ops → k ∈ es.*1.
Proof.
  assert (INT_MIN ≤ -1 < 0) as H1 by (unfold INT_MIN; lia).
  assert (Z.of_nat (length main_ops) < 2 ^ 63) as H2 by (simpl; lia).
  split; [exact H1|]. split; [exact H2|].
  exact (negative_capacity_never_evicts (-1) main_ops ∅ H1 H2).
Defined.

(** [get]s on a cache whose index is empty. *)
Lemma run_gets_empty ops : ∀ h c,
  existsb is_put ops = false → cacheMap c = ∅ →
  run ops c h = Some (((λ _, -1) <$> ops, c), h).
Proof.
  induction ops as [|o ops IH]; intros h c Hops Em; [done|].
  cbn [existsb] in Hops. apply orb_false_iff in Hops as [Ho Hops].
  destruct o as [k|k v]; [|done].
  assert (get k c h = Some (-1, h)) as Hget.
  { apply get_miss_spec. by rewrite Em. }
  cbn [run step]. unfold bind at 1. unfold bind at 1. rewrite Hget.
  unfold ret at 1. unfold bind at 1. by rewrite (IH h c Hops Em).
Qed.

(** X11 -- capacity 0.  The constructor succeeds, and the cache it yields
    is at capacity while it is empty.  A sequence of [get]s on it returns
    -1 at each, and leaves the cache and the heap as they were built. *)
Theorem capacity_zero_sessions ops h0 :
  existsb is_put ops = false →
  ∃ c0 h1,
    LRU_CACHE_new 0 h0 = Some (c0, h1) ∧
    cacheMap c0 = ∅ ∧ at_capacity c0 = true ∧
    session 0 ops h0 = Some (((λ _, -1) <$> ops, c0), h1).
Proof.
  intros Hops.
  destruct (LRU_CACHE_new_spec 0 h0) as (L & h1 & Hnew & Hrep).
  exists (Cache 0 ∅ L), h1. split; [done|]. split; [done|]. split; [done|].
  unfold session. exec Hnew. by apply run_gets_empty.
Qed.

Lemma capacity_zero_sessions_witness :
  existsb is_put [Get 1; Get 2; Get 1] = false ∧
  ∃ c0 h1,
    LRU_CACHE_new 0 ∅ = Some (c0, h1) ∧
    cacheMap c0 = ∅ ∧ at_capacity c0 = true ∧
    session 0 [Get 1; Get 2; Get 1] ∅ =
      Some (((λ _, -1) <$> [Get 1; Get 2; Get 1], c0), h1).
Proof.
  split; [reflexivity|].
  apply (capacity_zero_sessions [Get 1; Get 2; Get 1] ∅). reflexivity.
Defined.

(** ** Reading back *)

(** [get] of the key of the first cell returns its value and writes
    nothing. *)
Lemma get_of_first h c l ls k v :
  cache_rep h c (l :: ls) → entry_of h l = Some (k, v) →
  get k c h = Some (v, h).
Proof.
  intros Hrep He. apply entry_of_Some in He as [Hk Hv].
  destruct Hrep as (hd & tl & EL & Hd & Hm).
  assert (cacheMap c !! k = Some (Some l)) as E.
  { apply Hm. exists l. split; [done|]. split; [left | done]. }
  unfold get. rewrite E, EL.
  exec (dll_move_to_front_first h hd tl l ls Hd). by apply get_value_some.
Qed.

(** X12 -- [put] then [get].  In every state reached by calls on a
    freshly built cache whose capacity converts to a [size_t] of at least
    1, [put(k, v)] succeeds, and the [get(k)] that follows returns [v] and
    leaves the heap as [put] left it. *)
Theorem put_then_get cap ops h0 k v :
  1 ≤ to_size_t cap →
  ∃ rs c h c' h',
    session cap ops h0 = Some ((rs, c), h) ∧
    put k v c h = Some (c', h') ∧
    get k c' h' = Some (v, h').
Proof.
  intros Hcap.
  destruct (session_model cap ops h0 Hcap) as (rs & c & h & es & Hrun & Hinv & Hes & _).
  destruct (step_refines_at _ Hcap h c (Put k v) es Hinv Hes)
    as (r & c' & h' & es' & Hstep & Hinv' & Hes' & Hlru & _).
  apply lru_put_front in Hlru as [rest ->].
  destruct Hinv' as (_ & ls' & Hrep' & _).
  pose proof (proj1 (cache_rep_cells _ _ _ _ Hrep') Hes') as Hc.
  destruct ls' as [|l ls']; [inversion Hc|].
  apply Forall2_cons in Hc as [He _].
  exists rs, c, h, c', h'. split; [done|]. split.
  - unfold step in Hstep. apply bind_inv in Hstep as (c1 & h1 & Hput & E).
    by injection E as _ <- <-.
  - by apply (get_of_first h' c' l ls').
Qed.

Lemma put_then_get_witness :
  1 ≤ to_size_t 2 ∧
  ∃ rs c h c' h',
    session 2 [Put 1 10; Put 2 20] ∅ = Some ((rs, c), h) ∧
    put 3 30 c h = Some (c', h') ∧
    get 3 c' h' = Some (30, h').
Proof.
  assert (1 ≤ to_size_t 2) as H by (by vm_compute).
  split; [exact H|]. exact (put_then_get 2 [Put 1 10; Put 2 20] ∅ 3 30 H).
Defined.

(** X13 -- a [get] repeated.  In every well-formed state, a [get] that
    hits, made a second time, returns the same value and writes nothing:
    the heap after the second is the heap after the first. *)
Theorem get_twice h c ls k p :
  cache_rep h c ls → cacheMap c !! k = Some p →
  ∃ v h', get k c h = Some (v, h') ∧ get k c h' = Some (v, h').
Proof.
  intros Hrep E.
  destruct (cache_rep_find _ _ _ _ _ Hrep E) as (l & l1 & l2 & -> & -> & Hk).
  destruct (get_hit_spec _ _ _ _ _ _ Hrep E) as (v & h' & Hrun & Hv & Hrep' & [Hsk Hsv]).
  exists v, h'. split; [done|].
  apply (get_of_first h' c l (l1 ++ l2)); [done|].
  apply entry_of_Some. by rewrite Hsk, Hsv.
Qed.

Lemma get_twice_witness :
  cache_rep demo_heap demo_cache [4%positive; 3%positive] ∧
  cacheMap demo_cache !! 1 = Some (Some 3%positive) ∧
  ∃ v h', get 1 demo_cache demo_heap = Some (v, h') ∧
          get 1 demo_cache h' = Some (v, h').
Proof.
  split; [exact demo_rep|]. split; [reflexivity|].
  exact (get_twice demo_heap demo_cache [4%positive; 3%positive] 1
           (Some 3%positive) demo_rep eq_refl).
Defined.

(** X14 -- a [get] changes no answer.  In every well-formed state, after
    [get(k)], hit or miss, [get(k')] of any key returns what it would have
    returned before. *)
Theorem get_keeps_answers h c ls k k' :
  cache_rep h c ls →
  ∃ r h' r' h1 h2,
    get k c h = Some (r, h') ∧
    get k' c h = Some (r', h1) ∧
    get k' c h' = Some (r', h2).
Proof.
  intros Hrep.
  assert (∃ r h' ls', get k c h = Some (r, h') ∧ cache_rep h' c ls' ∧ same_data h h')
    as (r & h' & ls' & Hget & Hrep' & Hsd).
  { destruct (cacheMap c !! k) as [p|] eqn:E.
    - destruct (cache_rep_find _ _ _ _ _ Hrep E) as (l & l1 & l2 & -> & -> & Hk).
      destruct (get_hit_spec _ _ _ _ _ _ Hrep E) as (v & h' & Hrun & _ & Hrep' & Hsd).
      by exists v, h', (l :: l1 ++ l2).
    - exists (-1), h, ls. split; [by apply get_miss_spec|]. split; [done|].
      apply same_data_refl. }
  destruct (cacheMap c !! k') as [p'|] eqn:E'.
  - destruct (cache_rep_find _ _ _ _ _ Hrep E') as (l & l1 & l2 & -> & -> & Hk).
    destruct (get_hit_spec _ _ _ _ _ _ Hrep E') as (v1 & h1 & Hrun1 & Hv1 & _).
    destruct (cache_rep_find _ _ _ _ _ Hrep' E') as (l' & l1' & l2' & [= <-] & -> & _).
    destruct (get_hit_spec _ _ _ _ _ _ Hrep' E') as (v2 & h2 & Hrun2 & Hv2 & _).
    destruct Hsd as [_ Hsv]. rewrite Hsv in Hv2.
    assert (v2 = v1) as -> by congruence.
    by exists r, h', v1, h1, h2.
  - exists r, h', (-1), h, h'. split; [done|]. split; by apply get_miss_spec.
Qed.

Lemma get_keeps_answers_witness :
  cache_rep demo_heap demo_cache [4%positive; 3%positive] ∧
  ∃ r h' r' h1 h2,
    get 1 demo_cache demo_heap = Some (r, h') ∧
    get 2 demo_cache demo_heap = Some (r', h1) ∧
    get 2 demo_cache h' = Some (r', h2).
Proof.
  split; [exact demo_rep|].
  exact (get_keeps_answers demo_heap demo_cache [4%positive; 3%positive] 1 2 demo_rep).
Defined.

(** ** [put] of a new key *)

(** X15 -- [put] of a new key below capacity.  In every well-formed state
    where the index does not hold [k] and its size is below the capacity
    as [size_t], [put(k, v)] succeeds without evicting: it makes one cell
    at an address that was not in use, puts it in front of the cells that
    were there, which keep their order, keys and values, and the index
    gains the key [k] and no other change. *)
Theorem put_new_key_with_room h c ls es k v :
  cache_rep h c ls → entries h c = Some es →
  cacheMap c !! k = None → at_capacity c = false →
  ∃ l h',
    h !! l = None ∧
    put k v c h =
      Some (Cache (capacity c) (<[k := Some l]> (cacheMap c)) (cacheList c), h') ∧
    cache_rep h' (Cache (capacity c) (<[k := Some l]> (cacheMap c)) (cacheList c))
      (l :: ls) ∧
    entries h' (Cache (capacity c) (<[k := Some l]> (cacheMap c)) (cacheList c))
      = Some ((k, v) :: es) ∧
    size (<[k := Some l]> (cacheMap c)) = S (size (cacheMap c)).
Proof.
  intros Hrep Hes E Hat.
  destruct (put_room_spec _ _ _ k v Hrep E Hat) as (h' & Hrun & Hrep' & Hkl & Hvl & Hfr).
  exists (fresh (dom h)), h'. split; [apply fresh_not_alloc|]. split; [done|].
  split; [done|]. split; [|by apply map_size_insert_None].
  apply (cache_rep_cells _ _ _ _ Hrep'). constructor; [by apply entry_of_Some|].
  apply (cells_ext h); [|by apply (cache_rep_cells _ _ _ _ Hrep)].
  intros x Hx. apply Hfr. intros ->.
  destruct (cache_rep_alloc _ _ _ _ Hrep Hx) as [? Hs]. by rewrite fresh_not_alloc in Hs.
Qed.

(** X16 -- [put] of a new key at capacity evicts the tail and nothing
    else.  In every well-formed state whose list ends with the cell [p],
    where the index does not hold [k] and is at capacity, [put(k, v)]
    succeeds; afterwards the key [kp] of [p] is out of the index and
    [get(kp)] misses; every other key of the index is still mapped to its
    cell, which keeps its key and value. *)
Theorem put_evicts_only_tail h c ls p k v :
  cache_rep h c (ls ++ [p]) → cacheMap c !! k = None → at_capacity c = true →
  ∃ kp c' h',
    hkey h p = Some kp ∧
    put k v c h = Some (c', h') ∧
    cacheMap c' !! kp = None ∧
    get kp c' h' = Some (-1, h') ∧
    (∀ k', k' ≠ kp → k' ≠ k → cacheMap c' !! k' = cacheMap c !! k') ∧
    (∀ x, x ∈ ls → entry_of h' x = entry_of h x) ∧
    size (cacheMap c') = size (cacheMap c).
Proof.
  intros Hrep E Hat.
  destruct (put_full_spec _ _ _ _ k v Hrep E Hat)
    as (kp & h1 & l & h' & Hkp & _ & Hrep1 & El & Hrun & Hrep' & Hkl & Hvl & Hfr).
  assert (cacheMap c !! kp = Some (Some p)) as Ekp.
  { destruct Hrep as (hd & tl & _ & _ & Hm). apply Hm.
    exists p. split; [done|]. split; [set_solver | done]. }
  assert (kp ≠ k) as Hne by (intros ->; congruence).
  eexists kp, _, h'. split; [done|]. split; [exact Hrun|].
  assert (<[k:=Some l]> (delete kp (cacheMap c)) !! kp = None) as Enone.
  { rewrite lookup_insert_ne by done. apply lookup_delete_eq. }
  split; [done|]. split; [by apply get_miss_spec|]. split; [|split].
  - intros k' H1 H2. cbn [cacheMap]. by rewrite lookup_insert_ne, lookup_delete_ne.
  - intros x Hx. destruct (Hfr x Hx). by apply entry_of_ext.
  - rewrite (cache_rep_size _ _ _ Hrep'), (cache_rep_size _ _ _ Hrep).
    rewrite length_app. simpl. lia.
Qed.

Lemma put_new_key_with_room_witness :
  cache_rep demo_heap_empty (Cache 2 ∅ (DLL (Some 1%positive) (Some 2%positive))) [] ∧
  entries demo_heap_empty (Cache 2 ∅ (DLL (Some 1%positive) (Some 2%positive)))
    = Some [] ∧
  (∅ : gmap Z ptr) !! 1 = None ∧
  at_capacity (Cache 2 ∅ (DLL (Some 1%positive) (Some 2%positive))) = false ∧
  ∃ l h',
    demo_heap_empty !! l = None ∧
    put 1 10 (Cache 2 ∅ (DLL (Some 1%positive) (Some 2%positive))) demo_heap_empty =
      Some (Cache 2 (<[1 := Some l]> ∅) (DLL (Some 1%positive) (Some 2%positive)), h') ∧
    cache_rep h' (Cache 2 (<[1 := Some l]> ∅) (DLL (Some 1%positive) (Some 2%positive)))
      [l] ∧
    entries h' (Cache 2 (<[1 := Some l]> ∅) (DLL (Some 1%positive) (Some 2%positive)))
      = Some [(1, 10)] ∧
    size (<[1 := Some l]> (∅ : gmap Z ptr)) = 1%nat.
Proof.
  assert (cache_rep demo_heap_empty
            (Cache 2 ∅ (DLL (Some 1%positive) (Some 2%positive))) []) as Hrep.
  { exists 1%positive, 2%positive. split; [done|]. split; [exact demo_empty_dll_rep|].
    intros k p. cbn [cacheMap]. rewrite lookup_empty. split; [done|].
    intros (l & _ & Hl & _). by apply elem_of_nil in Hl. }
  split; [exact Hrep|]. split; [by vm_compute|]. split; [reflexivity|].
  split; [by vm_compute|].
  exact (put_new_key_with_room demo_heap_empty
           (Cache 2 ∅ (DLL (Some 1%positive) (Some 2%positive))) [] [] 1 10
           Hrep eq_refl eq_refl eq_refl).
Defined.

Lemma put_evicts_only_tail_witness :
  cache_rep demo_heap demo_cache ([4%positive] ++ [3%positive]) ∧
  cacheMap demo_cache !! 3 = None ∧ at_capacity demo_cache = true ∧
  ∃ kp c' h',
    hkey demo_heap 3%positive = Some kp ∧
    put 3 30 demo_cache demo_heap = Some (c', h') ∧
    cacheMap c' !! kp = None ∧
    get kp c' h' = Some (-1, h') ∧
    (∀ k', k' ≠ kp → k' ≠ 3 → cacheMap c' !! k' = cacheMap demo_cache !! k') ∧
    (∀ x, x ∈ [4%positive] → entry_of h' x = entry_of demo_heap x) ∧
    size (cacheMap c') = size (cacheMap demo_cache).
Proof.
  split; [exact demo_rep|]. split; [reflexivity|]. split; [reflexivity|].
  exact (put_evicts_only_tail demo_heap demo_cache [4%positive] 3%positive 3 30
           demo_rep eq_refl eq_refl).
Defined.

(** ** The cells of the cache among the others *)

Lemma dll_move_to_front_frame h hd tl l1 p l2 h' :
  dll_rep h hd tl (l1 ++ p :: l2) →
  move_to_front (DLL (Some hd) (Some tl)) (Some p) h = Some (tt, h') →
  dll_rep h' hd tl (p :: l1 ++ l2) ∧
  (∀ x, entry_of h' x = entry_of h x) ∧
  (∀ x, x ∉ chain_of hd tl (l1 ++ p :: l2) → h' !! x = h !! x).
Proof.
  intros Hd Hrun.
  destruct (dll_remove_node _ _ _ _ _ _ Hd) as (h1 & Hrm & Hd1 & _ & Hp).
  destruct (dll_remove_node_frame _ _ _ _ _ _ Hd) as (h1' & Hrm' & _ & Hp1 & He1 & Hfr1).
  assert (h1' = h1) as -> by congruence.
  assert (is_Some (h1 !! p)) as Hsp.
  { rewrite Hp1. eapply dll_rep_alloc; [exact Hd|]. set_solver. }
  destruct (dll_add_first_frame h1 hd tl (l1 ++ l2) p Hd1 Hp Hsp)
    as (h2 & Hadd & Hd2 & He2 & Hfr2).
  assert (h' = h2) as ->.
  { unfold move_to_front in Hrun. rewrite (bind_some _ _ _ _ _ Hrm) in Hrun. congruence. }
  split; [done|]. split; [intros x; by rewrite He2, He1|].
  intros x Hx. rewrite Hfr2, Hfr1; [done | done |].
  intros Hin. apply Hx. unfold chain_of in *. set_solver.
Qed.

(** What a call must do to the heap for the cache to keep to its cells. *)
Lemma owns_transfer h0 h h' c c' hd tl ls ls' :
  cacheList c = DLL (Some hd) (Some tl) → cacheList c' = DLL (Some hd) (Some tl) →
  owns h0 h c ls →
  (∀ x, x ∈ chain_of hd tl ls' → is_Some (h' !! x)) →
  (∀ x, x ∉ chain_of hd tl ls → x ∉ chain_of hd tl ls' → h' !! x = h !! x) →
  (∀ x, x ∈ chain_of hd tl ls → x ∉ chain_of hd tl ls' → h' !! x = None) →
  (∀ x, x ∈ chain_of hd tl ls' → x ∉ chain_of hd tl ls → h !! x = None) →
  owns h0 h' c' ls'.
Proof.
  intros EL EL' (hd' & tl' & EL0 & Hold & Hnew & Hdom) Hal Hfr Hgone Hfresh.
  rewrite EL in EL0. injection EL0 as <- <-.
  assert (∀ x, is_Some (h0 !! x) → x ∉ chain_of hd tl ls) as Hout.
  { intros x [n Hx] Hin. rewrite (Hnew x Hin) in Hx. done. }
  assert (∀ x, is_Some (h0 !! x) → x ∉ chain_of hd tl ls') as Hout'.
  { intros x Hx Hin. pose proof (Hfresh x Hin (Hout x Hx)) as Hn.
    rewrite (Hold x Hx) in Hn. destruct Hx as [n Hx]. congruence. }
  exists hd, tl. split; [done|]. split; [|split].
  - intros x Hx. rewrite (Hfr x (Hout x Hx) (Hout' x Hx)). by apply Hold.
  - intros x Hin. destruct (decide (x ∈ chain_of hd tl ls)) as [Hc|Hc]; [by apply Hnew|].
    pose proof (Hfresh x Hin Hc) as Hn.
    destruct (h0 !! x) as [n|] eqn:E; [|done].
    rewrite (Hold x (mk_is_Some _ _ E)) in Hn. congruence.
  - intros x. split.
    + intros Hs. destruct (decide (x ∈ chain_of hd tl ls')) as [Hc'|Hc']; [by right|].
      destruct (decide (x ∈ chain_of hd tl ls)) as [Hc|Hc].
      * rewrite (Hgone x Hc Hc') in Hs. by destruct Hs.
      * rewrite (Hfr x Hc Hc') in Hs. apply Hdom in Hs as [Hs|Hs]; [by left|done].
    + intros [Hs|Hin]; [|by apply Hal].
      rewrite (Hfr x (Hout x Hs) (Hout' x Hs)), (Hold x Hs). done.
Qed.

Lemma get_value_inv p h v h' :
  get_value p h = Some (v, h') → h' = h.
Proof.
  intros E. apply bind_inv in E as (n & h1 & E1 & E2).
  apply load_inv in E1 as (l & _ & _ & ->). by injection E2 as _ <-.
Qed.

(** ** The cells of the cache *)

(** The chain of a list with one node moved to the front has the same
    members. *)
Lemma chain_of_front hd tl (l : loc) l1 l2 x :
  x ∈ chain_of hd tl (l1 ++ l :: l2) ↔ x ∈ chain_of hd tl (l :: l1 ++ l2).
Proof.
  unfold chain_of.
  rewrite !elem_of_cons, !elem_of_app, !elem_of_cons, !elem_of_app. tauto.
Qed.

Lemma chain_of_alloc h c hd tl ls x :
  cache_rep h c ls → cacheList c = DLL (Some hd) (Some tl) →
  x ∈ chain_of hd tl ls → is_Some (h !! x).
Proof.
  intros (hd' & tl' & EL & Hd & _) EL'. rewrite EL in EL'. injection EL' as -> ->.
  by eapply dll_rep_alloc.
Qed.

Lemma cache_rep_dll h c hd tl ls :
  cache_rep h c ls → cacheList c = DLL (Some hd) (Some tl) → dll_rep h hd tl ls.
Proof.
  intros (hd' & tl' & EL & Hd & _) EL'. rewrite EL in EL'. by injection EL' as -> ->.
Qed.

(** [put] of a new key, after the eviction if there was one. *)
Lemma insert_new_frame h h' c c' ls k v hd tl :
  cacheList c = DLL (Some hd) (Some tl) →
  cache_rep h c ls → cacheMap c !! k = None →
  insert_new k v c h = Some (c', h') →
  let l := fresh (dom h) in
  cacheList c' = DLL (Some hd) (Some tl) ∧ cache_rep h' c' (l :: ls) ∧
  (∀ x, x ≠ l → x ∉ chain_of hd tl ls → h' !! x = h !! x).
Proof.
  intros EL Hrep Ek Hins l.
  destruct (insert_new_spec h c ls k v Hrep Ek)
    as (h4 & _ & (hd1 & tl1 & EL1 & Hd3) & Hadd & Hins' & Hrep2 & _).
  fold l in Hd3, Hadd, Hins', Hrep2.
  rewrite EL in EL1. injection EL1 as <- <-. rewrite EL in Hadd.
  rewrite Hins' in Hins. injection Hins as <- <-.
  split; [done|]. split; [done|].
  assert (l ∉ chain_of hd tl ls) as Hl.
  { intros Hin. destruct (chain_of_alloc _ _ _ _ _ _ Hrep EL Hin) as [n Hn].
    unfold l in Hn. by rewrite fresh_not_alloc in Hn. }
  destruct (dll_add_first_frame _ hd tl ls l Hd3 Hl) as (h4' & Hadd' & _ & _ & Hfr).
  { rewrite lookup_insert_eq. eauto. }
  assert (h4' = h4) as -> by congruence.
  intros x Hxl Hx. rewrite Hfr.
  - by rewrite lookup_insert_ne.
  - unfold chain_of in *. set_solver.
Qed.

Lemma step_owns h0 h c ls o r c' h' :
  cache_rep h c ls → owns h0 h c ls → step o c h = Some ((r, c'), h') →
  ∃ ls', cache_rep h' c' ls' ∧ owns h0 h' c' ls'.
Proof.
  intros Hrep Hown Hstep.
  pose proof Hrep as (hd & tl & EL & Hd & Hm).
  destruct o as [k|k v]; unfold step in Hstep;
    apply bind_inv in Hstep as (a & h1 & Hcall & E);
    injection E as E1 E2 E3; subst r c' h'.
  - (* get *)
    destruct (cacheMap c !! k) as [p|] eqn:Ek.
    + destruct (cache_rep_find _ _ _ _ _ Hrep Ek) as (l & l1 & l2 & -> & -> & Hk).
      destruct (get_hit_spec _ _ _ _ _ _ Hrep Ek) as (v & h'' & Hrun & _ & Hrep' & _).
      assert (h'' = h1) as -> by congruence.
      exists (l :: l1 ++ l2). split; [done|].
      unfold get in Hcall. rewrite Ek, EL in Hcall.
      apply bind_inv in Hcall as ([] & h2 & Hmtf & Hgv).
      apply get_value_inv in Hgv. subst h2.
      destruct (dll_move_to_front_frame _ _ _ _ _ _ _ Hd Hmtf) as (Hd' & _ & Hfr).
      apply (owns_transfer h0 h h1 c c hd tl (l1 ++ l :: l2)); try done.
      * intros x Hx. by eapply dll_rep_alloc.
      * intros x Hx _. by apply Hfr.
      * intros x Hx Hx'. exfalso. apply Hx'. by apply chain_of_front.
      * intros x Hx Hx'. exfalso. apply Hx'. by apply chain_of_front.
    + rewrite (get_miss_spec h c k Ek) in Hcall. injection Hcall as <- <-. eauto.
  - (* put *)
    destruct (cacheMap c !! k) as [p|] eqn:Ek.
    + destruct (cache_rep_find _ _ _ _ _ Hrep Ek) as (l & l1 & l2 & -> & -> & Hk).
      destruct (put_hit_spec _ _ _ _ _ _ v Hrep Ek) as (h'' & Hrun & Hrep' & _).
      assert (h'' = h1 ∧ a = c) as [-> ->] by (split; congruence).
      exists (l :: l1 ++ l2). split; [done|].
      unfold put in Hcall. rewrite Ek, EL in Hcall.
      apply bind_inv in Hcall as ([] & h2 & Hsv & Hcall).
      unfold set_value in Hsv.
      apply store_inv in Hsv as (l' & [= <-] & Hsl & ->).
      apply bind_inv in Hcall as ([] & h3 & Hmtf & Hret).
      unfold ret in Hret. injection Hret as Hret. subst h3.
      assert (dll_rep (alter (with_value v) l h) hd tl (l1 ++ l :: l2)) as Hd1.
      { destruct Hd as [Hnd Hl]. split; [done|].
        apply (linked_frame h); [| |done]; intros x _.
        - apply hnext_alter_value.
        - apply hprev_alter_value. }
      destruct (dll_move_to_front_frame _ _ _ _ _ _ _ Hd1 Hmtf) as (Hd' & _ & Hfr).
      apply (owns_transfer h0 h h1 c c hd tl (l1 ++ l :: l2)); try done.
      * intros x Hx. by eapply dll_rep_alloc.
      * intros x Hx Hx'. rewrite (Hfr x Hx). apply lookup_alter_ne.
        intros ->. apply Hx, chain_of_front. unfold chain_of. simpl.
        rewrite !elem_of_cons. tauto.
      * intros x Hx Hx'. exfalso. apply Hx'. by apply chain_of_front.
      * intros x Hx Hx'. exfalso. apply Hx'. by apply chain_of_front.
    + rewrite (put_miss_eq _ _ _ _ Ek) in Hcall.
      destruct (at_capacity c) eqn:Hat.
      * (* full *)
        destruct ls as [|l0 ls0].
        { unfold bind in Hcall. by rewrite (evict_empty _ _ Hrep) in Hcall. }
        destruct (snoc_shape l0 ls0) as (ls' & p & Els). rewrite Els in *.
        destruct (evict_spec _ _ _ _ Hrep)
          as (kp & h2 & h3 & Hkp & Hrl & _ & Hsp & Hsd & -> & Hev & Hrep1 & _).
        rewrite (bind_some _ _ _ _ _ Hev) in Hcall.
        set (c1 := Cache (capacity c) (delete kp (cacheMap c)) (cacheList c)) in *.
        assert (cacheMap c1 !! k = None) as E1.
        { simpl. apply lookup_delete_None. by right. }
        destruct (insert_new_frame _ _ c1 a ls' k v hd tl EL Hrep1 E1 Hcall)
          as (EL' & Hrep2 & Hfr2).
        set (l := fresh (dom (delete p h2))) in *.
        exists (l :: ls'). split; [done|].
        destruct (dll_remove_last_frame _ _ _ _ _ Hd) as (h2' & Hrl' & _ & _ & _ & Hfr1).
        rewrite EL in Hrl. assert (h2' = h2) as -> by congruence.
        assert (p ∉ chain_of hd tl ls') as Hp.
        { destruct Hd as [Hnd _]. unfold chain_of. intros Hin.
          assert (hd :: (ls' ++ [p]) ++ [tl] = (hd :: ls') ++ p :: [tl]) as E
            by (by rewrite <- app_assoc).
          rewrite E in Hnd. apply NoDup_app in Hnd as (_ & Hdisj & Hnd).
          apply NoDup_cons in Hnd as [Hptl _].
          apply elem_of_cons in Hin as [->|Hin]; [apply (Hdisj hd); [left|left]|].
          apply elem_of_app in Hin as [Hin|Hin]; [|done].
          apply (Hdisj p); [by right | left]. }
        assert (∀ x, x ∈ chain_of hd tl (ls' ++ [p]) ↔ x = p ∨ x ∈ chain_of hd tl ls')
          as Hchain.
        { intros x. unfold chain_of. set_solver. }
        assert (∀ x, x ∈ chain_of hd tl (l :: ls') ↔ x = l ∨ x ∈ chain_of hd tl ls')
          as Hchain'.
        { intros x. unfold chain_of. set_solver. }
        assert (l ∉ chain_of hd tl ls') as Hl.
        { intros Hin. destruct (chain_of_alloc _ _ _ _ _ _ Hrep1 EL Hin) as [n Hn].
          unfold l in Hn. by rewrite fresh_not_alloc in Hn. }
        apply (owns_transfer h0 h h1 c a hd tl (ls' ++ [p])); try done.
        -- intros x Hx. by apply (chain_of_alloc _ _ _ _ _ _ Hrep2 EL').
        -- intros x Hx Hx'. rewrite Hchain in Hx. rewrite Hchain' in Hx'.
           rewrite Hfr2 by tauto. rewrite lookup_delete_ne by (intros ->; tauto).
           apply Hfr1. rewrite Hchain. tauto.
        -- intros x Hx Hx'. rewrite Hchain in Hx. rewrite Hchain' in Hx'.
           assert (x = p) as -> by tauto.
           rewrite Hfr2 by tauto. apply lookup_delete_eq.
        -- intros x Hx' Hx. rewrite Hchain in Hx. rewrite Hchain' in Hx'.
           assert (x = l) as Exl by tauto.
           assert (p ≠ l) as Hpl by (intros Epl; apply Hx; left; congruence).
           rewrite Exl. clear Exl Hx Hx' x.
           pose proof (fresh_not_alloc (delete p h2)) as Hn. fold l in Hn.
           rewrite lookup_delete_ne in Hn by done.
           destruct (h !! l) as [n|] eqn:En; [|done].
           assert (is_Some (h2 !! l)) as [n' Hn'].
           { apply (same_data_alloc h h2 l Hsd). rewrite En. eauto. }
           congruence.
      * (* room *)
        unfold bind at 1, ret at 1 in Hcall.
        destruct (insert_new_frame _ _ c a ls k v hd tl EL Hrep Ek Hcall)
          as (EL' & Hrep2 & Hfr2).
        set (l := fresh (dom h)) in *.
        exists (l :: ls). split; [done|].
        assert (∀ x, x ∈ chain_of hd tl (l :: ls) ↔ x = l ∨ x ∈ chain_of hd tl ls)
          as Hchain'.
        { intros x. unfold chain_of. set_solver. }
        apply (owns_transfer h0 h h1 c a hd tl ls); try done.
        -- intros x Hx. by apply (chain_of_alloc _ _ _ _ _ _ Hrep2 EL').
        -- intros x Hx Hx'. rewrite Hchain' in Hx'. apply Hfr2; tauto.
        -- intros x Hx Hx'. rewrite Hchain' in Hx'. tauto.
        -- intros x Hx' Hx. rewrite Hchain' in Hx'.
           assert (x = l) as Exl by tauto. rewrite Exl. apply fresh_not_alloc.
Qed.

Lemma run_owns h0 ops : ∀ h c ls rs c' h',
  cache_rep h c ls → owns h0 h c ls → run ops c h = Some ((rs, c'), h') →
  ∃ ls', cache_rep h' c' ls' ∧ owns h0 h' c' ls'.
Proof.
  induction ops as [|o ops IH]; intros h c ls rs c' h' Hrep Hown Hrun.
  - injection Hrun as _ <- <-. eauto.
  - cbn [run] in Hrun.
    apply bind_inv in Hrun as ([r c1] & h1 & Hstep & Hrun).
    apply bind_inv in Hrun as ([rs1 c2] & h2 & Hrun & E).
    injection E as _ <- <-.
    destruct (step_owns _ _ _ _ _ _ _ _ Hrep Hown Hstep) as (ls1 & Hrep1 & Hown1).
    eauto.
Qed.

Lemma new_owns cap h0 c h :
  LRU_CACHE_new cap h0 = Some (c, h) → cache_rep h c [] ∧ owns h0 h c [].
Proof.
  intros Hnew. unfold LRU_CACHE_new in Hnew.
  destruct (double_linked_list_new_spec h0) as (h1 & Hrun & Hd & Hfr).
  rewrite (bind_some _ _ _ _ _ Hrun) in Hnew. injection Hnew as <- <-.
  set (hd := fresh (dom h0)) in *.
  set (tl := fresh (dom (<[hd := Node (-1) (-1) nullptr nullptr]> h0))) in *.
  assert (h0 !! hd = None) as Hhd by apply fresh_not_alloc.
  assert (h0 !! tl = None) as Htl.
  { pose proof (fresh_not_alloc (<[hd := Node (-1) (-1) nullptr nullptr]> h0)) as F.
    fold tl in F. apply lookup_insert_None in F as [F _]. done. }
  assert (∀ x, x ∈ chain_of hd tl [] ↔ x = hd ∨ x = tl) as Hchain.
  { intros x. unfold chain_of. simpl. rewrite !elem_of_cons, elem_of_nil. tauto. }
  split.
  - eexists _, _. split; [done|]. split; [done|]. simpl.
    intros k p. rewrite lookup_empty. split; [done|].
    intros (l & _ & Hl & _). by apply elem_of_nil in Hl.
  - exists hd, tl. split; [done|]. split; [|split].
    + intros x [n Hx]. apply Hfr; intros E; rewrite E in Hx; congruence.
    + intros x Hx. apply Hchain in Hx as [E|E]; by rewrite E.
    + intros x. rewrite Hchain. split.
      * intros Hs. destruct (decide (x = hd)) as [|Hn1]; [tauto|].
        destruct (decide (x = tl)) as [|Hn2]; [tauto|].
        left. by rewrite <- (Hfr x Hn1 Hn2).
      * intros [Hs|Hx].
        -- destruct Hs as [n Hx]. rewrite Hfr; [by rewrite Hx| |];
             intros E; rewrite E in Hx; congruence.
        -- eapply dll_rep_alloc; [done|]. by apply Hchain.
Qed.

Lemma owns_size h0 h c ls :
  cache_rep h c ls → owns h0 h c ls →
  size h = (size h0 + 2 + size (cacheMap c))%nat.
Proof.
  intros Hrep (hd & tl & EL & Hold & Hnew & Hdom).
  pose proof (cache_rep_dll _ _ _ _ _ Hrep EL) as [Hnd _].
  rewrite (cache_rep_size _ _ _ Hrep).
  assert (dom h = dom h0 ∪ list_to_set (chain_of hd tl ls)) as Edom.
  { apply set_eq. intros x.
    rewrite elem_of_union, !elem_of_dom, elem_of_list_to_set. apply Hdom. }
  rewrite <- !size_dom, Edom, size_union.
  - rewrite size_list_to_set by done. unfold chain_of. simpl.
    rewrite length_app. simpl. lia.
  - intros x Hx Hin. apply elem_of_dom in Hx as [n Hx].
    apply elem_of_list_to_set in Hin. rewrite (Hnew x Hin) in Hx. done.
Qed.

(** X17 -- the cache keeps to its own cells.  Whatever the capacity, the
    calls and the heap [h0] in which the cache is built, when the session
    returns the cache is well formed, every cell that was allocated in [h0]
    still holds what it held, and the allocated cells are those of [h0],
    the two sentinels and one node per entry, all of them fresh: nothing
    of [h0] is written or freed, and every node that left the list was
    freed.  So the heap has grown by exactly two cells plus the number of
    keys of the index. *)
Theorem session_owns cap ops h0 rs c h :
  session cap ops h0 = Some ((rs, c), h) →
  ∃ ls, cache_rep h c ls ∧ owns h0 h c ls ∧
        size h = (size h0 + 2 + size (cacheMap c))%nat.
Proof.
  intros Hs. unfold session in Hs.
  apply bind_inv in Hs as (c0 & h1 & Hnew & Hrun).
  destruct (new_owns _ _ _ _ Hnew) as [Hrep0 Hown0].
  destruct (run_owns _ _ _ _ _ _ _ _ Hrep0 Hown0 Hrun) as (ls & Hrep & Hown).
  exists ls. split; [done|]. split; [done|]. by apply (owns_size h0 h c ls).
Qed.

Lemma session_owns_witness :
  ∃ rs c h,
    session 2 main_ops demo_heap_other = Some ((rs, c), h) ∧
    ∃ ls, cache_rep h c ls ∧ owns demo_heap_other h c ls ∧
          size h = (size demo_heap_other + 2 + size (cacheMap c))%nat.
Proof.
  assert (∃ r, session 2 main_ops demo_heap_other = Some r) as Hr.
  { eexists. vm_compute. reflexivity. }
  destruct Hr as [[[rs c] h] Hr].
  exists rs, c, h. split; [exact Hr|].
  exact (session_owns 2 main_ops demo_heap_other rs c h Hr).
Defined.
